(** * update_imports.py: the import-path rewriter

    A shallow embedding of [src/update_imports.py].  A Python [str] is a
    finite sequence of Unicode code points: it is modelled as a list of
    natural numbers ([N]), so the development covers non-ASCII file
    contents as well.  String literals of the script are written as Rocq
    strings and turned into code points by [codes]. *)

From Stdlib Require Import List Bool Arith NArith Lia Ascii String.
From Stdlib Require Import Permutation.
Import ListNotations.

Local Open Scope list_scope.

(* ================================================================== *)
(** ** Text *)

Definition char := N.
Definition text := list char.

Definition codes (s : string) : text :=
  map N_of_ascii (list_ascii_of_string s).

Arguments codes s%_string.

(** The two quote characters of the table's string literals. *)
Definition sq : text := codes "'".
Definition dq : text := [34%N].

(** A string literal that the source writes between double quotes. *)
Definition dquoted (s : string) : text := dq ++ codes s ++ dq.

Arguments dquoted s%_string.

Definition char_eqb (a b : char) : bool := N.eqb a b.

Fixpoint text_eqb (a b : text) : bool :=
  match a, b with
  | [], [] => true
  | x :: a', y :: b' => char_eqb x y && text_eqb a' b'
  | _, _ => false
  end.

(** [s.startswith(p)] *)
Fixpoint startswith (p s : text) : bool :=
  match p with
  | [] => true
  | x :: p' =>
      match s with
      | [] => false
      | y :: s' => char_eqb x y && startswith p' s'
      end
  end.

(** [s.endswith(p)] *)
Definition endswith (p s : text) : bool :=
  startswith (rev p) (rev s).

(** [p in s] for two strings: [p] occurs in [s] as a substring. *)
Fixpoint contains (p s : text) : bool :=
  startswith p s ||
  match s with
  | [] => false
  | _ :: s' => contains p s'
  end.

(** [s.replace(old, new)]: every non-overlapping occurrence of [old],
    found scanning from the left, is replaced by [new].  [skip] counts
    the characters of a matched occurrence that are still to be passed
    over. *)
Fixpoint replace_from (old new : text) (skip : nat) (s : text) : text :=
  match s with
  | [] => []
  | c :: s' =>
      match skip with
      | S k => replace_from old new k s'
      | O =>
          if startswith old s
          then new ++ replace_from old new (List.length old - 1) s'
          else c :: replace_from old new 0 s'
      end
  end.

Definition replace (old new s : text) : text :=
  match old with
  | [] => new ++ flat_map (fun c => c :: new) s
  | _ :: _ => replace_from old new 0 s
  end.

(* ================================================================== *)
(** ** The replacement table *)

(** [REPLACEMENTS]: a dict literal; iteration over [items()] follows the
    insertion order, so the table is a list of pairs in source order. *)
Definition REPLACEMENTS : list (text * text) :=
  [ (codes "'@platform/core'", codes "'@/lib/core'");
    (dquoted "@platform/core", dquoted "@/lib/core");
    (codes "'@platform/ui-kit'", codes "'@super-platform/ui'");
    (dquoted "@platform/ui-kit", dquoted "@super-platform/ui");
    (codes "'@platform/ui'", codes "'@super-platform/ui-base'");
    (dquoted "@platform/ui", dquoted "@super-platform/ui-base");
    (codes "'@platform/firebase'", codes "'@/lib/firebase'");
    (dquoted "@platform/firebase", dquoted "@/lib/firebase");
    (codes "'@platform/firebase-admin'", codes "'@/lib/firebase-admin'");
    (dquoted "@platform/firebase-admin", dquoted "@/lib/firebase-admin");
    (codes "'@platform/types'", codes "'@/lib/types'");
    (dquoted "@platform/types", dquoted "@/lib/types");
    (codes "'@modules/", codes "'@/modules/");
    (dq ++ codes "@modules/", dq ++ codes "@/modules/") ].

Definition ROOT_DIR : text := codes "/Users/jukkritsuwannakum/Super-Platform".

(** The loop [for old, new in REPLACEMENTS.items(): new_content =
    new_content.replace(old, new)] over an arbitrary table. *)
Fixpoint apply_rules (rules : list (text * text)) (s : text) : text :=
  match rules with
  | [] => s
  | (old, new) :: rest => apply_rules rest (replace old new s)
  end.

(** [new_content] of [update_file] as a function of [content]. *)
Definition transform (content : text) : text :=
  apply_rules REPLACEMENTS content.

(* ================================================================== *)
(** ** Files, output and the effects of the script *)

(** Result of an operation that can raise: a value, or the message of
    the exception ([str(e)]). *)
Inductive outcome (A : Type) : Type :=
| Ok (a : A)
| Raises (msg : text).

Arguments Ok {A} a.
Arguments Raises {A} msg.

(** What opening a file for writing and writing to it does: it succeeds,
    or it raises and leaves the file in some state (untouched when the
    open fails, truncated when the write fails after the open). *)
Inductive write_behaviour : Type :=
| WriteOk
| WriteRaises (msg : text) (after : outcome text).

(** A file: what [open(..., 'r').read()] gives and what writing does. *)
Record file : Type := {
  f_read : outcome text;
  f_write : write_behaviour
}.

(** The files of the machine, each under its real path (the path that
    is left once every link is followed); a real path with no file
    behind it raises on reading. *)
Definition store := text -> file.

Definition put (st : store) (n : text) (f : file) : store :=
  fun m => if text_eqb m n then f else st m.

(** What the script meets and does not change (it creates, deletes and
    renames nothing): [resolve p] is the real path of the file that
    [open(p, ...)] works on, symbolic links followed and one name chosen
    among hard links, so two paths with the same real path are the same
    file; [console line] is what printing [line] to standard output
    does (a line with a character that the encoding of the output lacks
    raises). *)
Record system : Type := {
  resolve : text -> text;
  console : text -> outcome unit
}.

(** What the script does that can be observed: opening a path and
    reading it, with what the reading gave; opening a path and writing
    [data] to it; a line printed. *)
Inductive event : Type :=
| Read (p : text) (r : outcome text)
| Write (p : text) (data : text)
| Print (line : text).

(** How a piece of the script ends: normally, or with an exception that
    nothing catches, which ends the script. *)
Inductive ending : Type :=
| Done
| Uncaught (msg : text).

(** A piece of the script: it changes the files, produces events and
    ends. *)
Definition result : Type := store * list event * ending.

Definition r_store (r : result) : store := fst (fst r).
Definition r_events (r : result) : list event := snd (fst r).
Definition r_end (r : result) : ending := snd r.

Definition prog := store -> result.

Definition skip : prog := fun st => (st, [], Done).

(** [a] then [b]; an exception that leaves [a] leaves the sequence. *)
Definition seq (a b : prog) : prog :=
  fun st =>
    match a st with
    | (st1, e1, Done) =>
        match b st1 with
        | (st2, e2, x) => (st2, e1 ++ e2, x)
        end
    | (st1, e1, Uncaught msg) => (st1, e1, Uncaught msg)
    end.

Notation "a ;; b" := (seq a b) (at level 61, right associativity).

(** A [for] loop whose body neither breaks nor returns ([continue] ends
    the body of one iteration); an exception that leaves the body leaves
    the loop. *)
Fixpoint for_each {A : Type} (l : list A) (body : A -> prog) : prog :=
  match l with
  | [] => skip
  | x :: rest => body x ;; for_each rest body
  end.

Definition updated_line (filepath : text) : text :=
  codes "Updated: " ++ filepath.

Definition error_line (filepath msg : text) : text :=
  codes "Error reading " ++ filepath ++ codes ": " ++ msg.

(** The handler [except Exception as e: print(f"Error reading ...")],
    entered with the files [st], after the events [ev], for an exception
    of message [msg].  Its own [print] is outside every [try]: when it
    raises, the exception leaves [update_file]. *)
Definition handler (E : system) (filepath : text) (st : store)
           (ev : list event) (msg : text) : result :=
  match console E (error_line filepath msg) with
  | Ok _ => (st, ev ++ [Print (error_line filepath msg)], Done)
  | Raises msg' => (st, ev, Uncaught msg')
  end.

(** [update_file(filepath)].  Reading, writing and the [print] of the
    [Updated] line are inside the [try]: what they raise is an
    [Exception] and goes to the handler. *)
Definition update_file (E : system) (filepath : text) : prog :=
  fun st =>
    let n := resolve E filepath in
    match f_read (st n) with
    | Raises msg => handler E filepath st [Read filepath (Raises msg)] msg
    | Ok content =>
        let new_content := transform content in
        if negb (text_eqb content new_content) then
          let ev := [Read filepath (Ok content); Write filepath new_content] in
          match f_write (st n) with
          | WriteOk =>
              let st' :=
                put st n {| f_read := Ok new_content; f_write := WriteOk |} in
              match console E (updated_line filepath) with
              | Ok _ => (st', ev ++ [Print (updated_line filepath)], Done)
              | Raises msg => handler E filepath st' ev msg
              end
          | WriteRaises msg after =>
              handler E filepath
                (put st n {| f_read := after; f_write := WriteRaises msg after |})
                ev msg
          end
        else (st, [Read filepath (Ok content)], Done)
    end.

(* ================================================================== *)
(** ** Paths and the directory walk *)

Definition slash : text := codes "/".

(** [os.path.join(a, b)] of [posixpath]. *)
Definition join (a b : text) : text :=
  if startswith slash b then b
  else if text_eqb a [] || endswith slash a then a ++ b
  else a ++ slash ++ b.

(** A directory as [os.scandir] sees it: listing it fails, or it gives
    the sub-directories and the other entries, in listing order.  A
    link to a directory is listed among the sub-directories and is not
    entered ([followlinks=False]): its walk yields nothing, like that
    of a directory that cannot be listed. *)
#[local] Set Warnings "-register-all".

Inductive tree : Type :=
| Unlistable
| Listing (subdirs : list (text * tree)) (files : list text).

(** [os.walk(top)] with its defaults ([topdown=True], [onerror=None]):
    a directory that cannot be listed is passed over in silence; one
    that can yields [(top, dirs, files)] and then the walks of its
    sub-directories [join(top, name)].  The script never changes [dirs],
    so every sub-directory is walked. *)
Fixpoint walk (top : text) (t : tree) : list (text * list text * list text) :=
  match t with
  | Unlistable => []
  | Listing subdirs files =>
      (top, map fst subdirs, files)
      :: flat_map (fun d => match d with (name, sub) => walk (join top name) sub end)
           subdirs
  end.

Definition EXTENSIONS : list text :=
  [codes ".ts"; codes ".tsx"; codes ".js"; codes ".jsx"; codes ".json"].

(** [file.endswith(('.ts', '.tsx', '.js', '.jsx', '.json'))] *)
Definition endswith_any (suffixes : list text) (s : text) : bool :=
  existsb (fun e => endswith e s) suffixes.

(** ['node_modules' in root or '.git' in root or '.next' in root] *)
Definition skipped_root (root : text) : bool :=
  contains (codes "node_modules") root
  || contains (codes ".git") root
  || contains (codes ".next") root.

(** [file == 'package.json' or file == 'package-lock.json'] *)
Definition skipped_name (file : text) : bool :=
  text_eqb file (codes "package.json")
  || text_eqb file (codes "package-lock.json").

(** The body of the inner loop [for file in files]. *)
Definition visit_file (E : system) (root file : text) : prog :=
  if endswith_any EXTENSIONS file then
    if skipped_name file then skip
    else update_file E (join root file)
  else skip.

(** The body of the outer loop [for root, dirs, files in os.walk(...)]. *)
Definition visit_dir (E : system) (entry : text * list text * list text)
  : prog :=
  match entry with
  | (root, _, files) =>
      if skipped_root root then skip
      else for_each files (visit_file E root)
  end.

(** The module-level loop over the walk of [top]. *)
Definition run (E : system) (top : text) (t : tree) : prog :=
  for_each (walk top t) (visit_dir E).

(** The script: the walk starts at [ROOT_DIR]. *)
Definition main (E : system) (t : tree) : prog := run E ROOT_DIR t.

(* ================================================================== *)
(** ** The rewriting as the specification words it *)

(** [p] occurs in [s]: [s] is some text, then [p], then some text. *)
Definition occurs (p s : text) : Prop :=
  exists a b, s = a ++ p ++ b.

(** [replaced_all old new s r]: [r] is [s] with every non-overlapping
    literal occurrence of [old] replaced by [new], scanning from the
    left.  Either [old] does not occur and nothing changes, or the
    leftmost occurrence is replaced and the scan goes on in the text
    after it. *)
Inductive replaced_all (old new : text) : text -> text -> Prop :=
| replaced_none s :
    ~ occurs old s ->
    replaced_all old new s s
| replaced_leftmost a b r :
    (forall a' b', a ++ old ++ b = a' ++ old ++ b' ->
                   List.length a <= List.length a') ->
    replaced_all old new b r ->
    replaced_all old new (a ++ old ++ b) (a ++ new ++ r).

(** [rewritten rules s r]: the rules are applied one after the other in
    the order of the table, each to the result of the one before. *)
Inductive rewritten : list (text * text) -> text -> text -> Prop :=
| rewritten_done s : rewritten [] s s
| rewritten_rule old new rest s s1 r :
    replaced_all old new s s1 ->
    rewritten rest s1 r ->
    rewritten ((old, new) :: rest) s r.

(* ================================================================== *)
(** ** The files the script works on, and what it did to them *)

(** The two tests of the inner loop as one: the name has one of the
    extensions and is neither of the two skipped names. *)
Definition wanted (file : text) : bool :=
  endswith_any EXTENSIONS file && negb (skipped_name file).

(** The paths [update_file] is called on for one entry of the walk, in
    order. *)
Definition dir_targets (entry : text * list text * list text) : list text :=
  match entry with
  | (root, _, files) =>
      if skipped_root root then []
      else map (join root) (filter wanted files)
  end.

(** The paths [update_file] is called on in a run, in order. *)
Definition targets (top : text) (t : tree) : list text :=
  flat_map dir_targets (walk top t).

(** The paths opened for reading, those opened for writing and the lines
    printed, in order. *)
Definition reads (ev : list event) : list text :=
  flat_map (fun e => match e with Read p _ => [p] | _ => [] end) ev.

Definition writes (ev : list event) : list text :=
  flat_map (fun e => match e with Write p _ => [p] | _ => [] end) ev.

Definition printed (ev : list event) : list text :=
  flat_map (fun e => match e with Print l => [l] | _ => [] end) ev.

(** The files after the writes among some events: a write through a
    path changes the file at its real path, as the file's way of being
    written says. *)
Definition written (f : file) (data : text) : file :=
  match f_write f with
  | WriteOk => {| f_read := Ok data; f_write := WriteOk |}
  | WriteRaises msg after =>
      {| f_read := after; f_write := WriteRaises msg after |}
  end.

Fixpoint replay (E : system) (ev : list event) (st : store) : store :=
  match ev with
  | [] => st
  | Write p data :: rest =>
      replay E rest (put st (resolve E p) (written (st (resolve E p)) data))
  | _ :: rest => replay E rest st
  end.

(** The events of calls of [update_file], read against the files: a
    read reports what the file named by the path holds at that moment; a
    write comes right after a read of the same path that gave a content
    [c], carries the rewritten [c], which differs from [c], and changes
    the file; a print changes nothing.  [trace E st ev st'] holds when
    the events [ev], from the files [st], are of that kind and leave the
    files [st']. *)
Inductive trace (E : system) : store -> list event -> store -> Prop :=
| trace_nil (st : store) : trace E st [] st
| trace_read (st st' : store) (p : text) (rest : list event) :
    trace E st rest st' ->
    trace E st (Read p (f_read (st (resolve E p))) :: rest) st'
| trace_write (st st' : store) (p c : text) (rest : list event) :
    f_read (st (resolve E p)) = Ok c ->
    transform c <> c ->
    trace E (put st (resolve E p) (written (st (resolve E p)) (transform c)))
          rest st' ->
    trace E st (Read p (Ok c) :: Write p (transform c) :: rest) st'
| trace_print (st st' : store) (line : text) (rest : list event) :
    trace E st rest st' -> trace E st (Print line :: rest) st'.

(** A file that can be read and written. *)
Definition plain_file (content : text) : file :=
  {| f_read := Ok content; f_write := WriteOk |}.

(** The five ways a call of [update_file] goes. *)
Inductive update_case (E : system) (p : text) (st : store) : Prop :=
| case_unreadable msg :
    f_read (st (resolve E p)) = Raises msg ->
    update_file E p st = handler E p st [Read p (Raises msg)] msg ->
    update_case E p st
| case_unchanged c :
    f_read (st (resolve E p)) = Ok c ->
    transform c = c ->
    update_file E p st = (st, [Read p (Ok c)], Done) ->
    update_case E p st
| case_updated c :
    f_read (st (resolve E p)) = Ok c ->
    transform c <> c ->
    f_write (st (resolve E p)) = WriteOk ->
    console E (updated_line p) = Ok tt ->
    update_file E p st
    = (put st (resolve E p) (plain_file (transform c)),
       [Read p (Ok c); Write p (transform c); Print (updated_line p)],
       Done) ->
    update_case E p st
| case_unannounced c msg :
    f_read (st (resolve E p)) = Ok c ->
    transform c <> c ->
    f_write (st (resolve E p)) = WriteOk ->
    console E (updated_line p) = Raises msg ->
    update_file E p st
    = handler E p (put st (resolve E p) (plain_file (transform c)))
              [Read p (Ok c); Write p (transform c)] msg ->
    update_case E p st
| case_unwritable c msg after :
    f_read (st (resolve E p)) = Ok c ->
    transform c <> c ->
    f_write (st (resolve E p)) = WriteRaises msg after ->
    update_file E p st
    = handler E p
              (put st (resolve E p)
                   {| f_read := after; f_write := WriteRaises msg after |})
              [Read p (Ok c); Write p (transform c)] msg ->
    update_case E p st.

(** A path split at its last slash: the directory part, up to and
    including that slash, and the name after it. *)
Fixpoint dirpart (p : text) : text :=
  match p with
  | [] => []
  | c :: p' => if contains slash p then c :: dirpart p' else []
  end.

Fixpoint basename (p : text) : text :=
  match p with
  | [] => []
  | c :: p' => if contains slash p then basename p' else p
  end.

(** The names of directory entries contain no slash: here, the names of
    the files that the walk lists. *)
Definition well_named (top : text) (t : tree) : bool :=
  forallb (fun e => forallb (fun f => negb (contains slash f)) (snd e))
          (walk top t).

(** [p] lies under a directory named [d]: one of the components of [p]
    before its last one is [d]. *)
Definition below (d p : text) : Prop :=
  exists a b, p = a ++ d ++ slash ++ b /\ (a = [] \/ endswith slash a = true).

(* ================================================================== *)
(** ** Texts cut at their quote characters *)

(** Every pattern of the table starts with a quote character and has no
    other, but for the same quote character closing twelve of them.  So
    the rules are followed on a text cut into segments, each a quote
    character and the quote-free word after it. *)

Definition is_quote (c : char) : bool :=
  char_eqb c 39%N || char_eqb c 34%N.

Definition quote_free (w : text) : bool :=
  forallb (fun c => negb (is_quote c)) w.

Definition seg : Type := char * text.

Definition flat (segs : list seg) : text :=
  flat_map (fun sg => fst sg :: snd sg) segs.

(** The word before the first quote character, and the segments. *)
Fixpoint parse (s : text) : text * list seg :=
  match s with
  | [] => ([], [])
  | c :: s' =>
      let (w, segs) := parse s' in
      if is_quote c then ([], (c, w) :: segs) else (c :: w, segs)
  end.

Definition well_cut (segs : list seg) : bool :=
  forallb (fun sg => is_quote (fst sg) && quote_free (snd sg)) segs.

(** The quote character that follows a segment, if there is one. *)
Definition nextq (segs : list seg) : option char :=
  match segs with
  | [] => None
  | (q, _) :: _ => Some q
  end.

(** A text that is empty or starts with a quote character. *)
Definition quoted_start (t : text) : Prop :=
  match t with
  | [] => True
  | c :: _ => is_quote c = true
  end.

(** The two shapes of rule in the table: a quoted name [q body q]
    replaced by [q body' q], and an opening [q pre] replaced by
    [q pre']. *)
Inductive shape : Type :=
| Closed (q : char) (body body' : text)
| Opening (q : char) (pre pre' : text).

Definition rule_of (sh : shape) : text * text :=
  match sh with
  | Closed q body body' => (q :: body ++ [q], q :: body' ++ [q])
  | Opening q pre pre' => (q :: pre, q :: pre')
  end.

Definition SHAPES : list shape :=
  [ Closed 39%N (codes "@platform/core") (codes "@/lib/core");
    Closed 34%N (codes "@platform/core") (codes "@/lib/core");
    Closed 39%N (codes "@platform/ui-kit") (codes "@super-platform/ui");
    Closed 34%N (codes "@platform/ui-kit") (codes "@super-platform/ui");
    Closed 39%N (codes "@platform/ui") (codes "@super-platform/ui-base");
    Closed 34%N (codes "@platform/ui") (codes "@super-platform/ui-base");
    Closed 39%N (codes "@platform/firebase") (codes "@/lib/firebase");
    Closed 34%N (codes "@platform/firebase") (codes "@/lib/firebase");
    Closed 39%N (codes "@platform/firebase-admin") (codes "@/lib/firebase-admin");
    Closed 34%N (codes "@platform/firebase-admin") (codes "@/lib/firebase-admin");
    Closed 39%N (codes "@platform/types") (codes "@/lib/types");
    Closed 34%N (codes "@platform/types") (codes "@/lib/types");
    Opening 39%N (codes "@modules/") (codes "@/modules/");
    Opening 34%N (codes "@modules/") (codes "@/modules/") ].

(** A closed rule matches at a segment: the quote, the word and the
    quote that follows are those of the pattern. *)
Definition hitc (q : char) (body : text) (q1 : char) (w1 : text)
           (nq : option char) : bool :=
  char_eqb q q1 && text_eqb w1 body
  && match nq with Some q2 => char_eqb q q2 | None => false end.

(** [replace] for a closed rule, on segments: a match takes the quote of
    the next segment with it, so the scan goes on after that segment's
    word. *)
Fixpoint crep (q : char) (body body' : text) (segs : list seg) : list seg :=
  match segs with
  | [] => []
  | (q1, w1) :: rest =>
      if hitc q body q1 w1 (nextq rest) then
        (q1, body')
        :: match rest with
           | [] => []
           | sg2 :: rest' => sg2 :: crep q body body' rest'
           end
      else (q1, w1) :: crep q body body' rest
  end.

(** What a rule does to the word of one segment, seen on its own. *)
Definition cfun (q : char) (body body' : text)
           (q1 : char) (w : text) (nq : option char) : text :=
  if hitc q body q1 w nq then body' else w.

Definition ofun (q : char) (pre pre' : text)
           (q1 : char) (w : text) (nq : option char) : text :=
  if char_eqb q q1 && startswith pre w
  then pre' ++ skipn (List.length pre) w
  else w.

Definition sfun (sh : shape) : char -> text -> option char -> text :=
  match sh with
  | Closed q body body' => cfun q body body'
  | Opening q pre pre' => ofun q pre pre'
  end.

Fixpoint sfuns (shs : list shape) (q1 : char) (w : text)
         (nq : option char) : text :=
  match shs with
  | [] => w
  | sh :: rest => sfuns rest q1 (sfun sh q1 w nq) nq
  end.

(** A function of the word, its quote and the next quote, applied to
    every segment; [nq] is the quote after the last segment. *)
Fixpoint lmapn (f : char -> text -> option char -> text)
         (nq : option char) (segs : list seg) : list seg :=
  match segs with
  | [] => []
  | (q, w) :: rest =>
      (q, f q w (match rest with [] => nq | (q2, _) :: _ => Some q2 end))
      :: lmapn f nq rest
  end.

Definition lmap (f : char -> text -> option char -> text)
           (segs : list seg) : list seg :=
  lmapn f None segs.

(** [replace] for a rule of either shape, and for a list of rules. *)
Definition srep (sh : shape) (segs : list seg) : list seg :=
  match sh with
  | Closed q body body' => crep q body body' segs
  | Opening q pre pre' => lmap (ofun q pre pre') segs
  end.

Fixpoint sreps (shs : list shape) (segs : list seg) : list seg :=
  match shs with
  | [] => segs
  | sh :: rest => sreps rest (srep sh segs)
  end.

(** The words the patterns are made of start with [@p] or [@m]; the
    words of the substitutes do not. *)
Definition live (w : text) : bool :=
  match w with
  | a :: c :: _ => char_eqb a 64%N && (char_eqb c 112%N || char_eqb c 109%N)
  | _ => false
  end.

Definition good (sh : shape) : bool :=
  match sh with
  | Closed q body body' =>
      is_quote q && quote_free body && quote_free body'
      && live body && negb (live body')
  | Opening q pre pre' =>
      is_quote q && quote_free pre && quote_free pre'
      && live pre && negb (live pre') && (2 <=? List.length pre')
  end.

(** A segment matched by a closed rule and followed by a segment matched
    by the same rule: two occurrences of the pattern that share a quote
    character. *)
Definition hit_head (q : char) (body : text) (segs : list seg) : bool :=
  match segs with
  | [] => false
  | (q1, w1) :: rest => hitc q body q1 w1 (nextq rest)
  end.

Fixpoint no_adj (q : char) (body : text) (segs : list seg) : bool :=
  match segs with
  | [] => true
  | sg :: rest =>
      negb (hit_head q body (sg :: rest) && hit_head q body rest)
      && no_adj q body rest
  end.

Definition calm (shs : list shape) (segs : list seg) : bool :=
  forallb (fun sh => match sh with
                     | Closed q body _ => no_adj q body segs
                     | Opening _ _ _ => true
                     end) shs.

(** A pattern that ends with the character it starts with can overlap
    its own next occurrence on that character: [doubled old] is two such
    occurrences.  A text is [overlap_free] when no pattern of the table
    occurs in it in that way. *)
Definition self_overlapping (old : text) : bool :=
  match old with
  | c :: _ :: _ => char_eqb c (last old c)
  | _ => false
  end.

Definition doubled (old : text) : text := old ++ tl old.

Definition overlap_free (s : text) : bool :=
  forallb (fun r => negb (self_overlapping (fst r)
                          && contains (doubled (fst r)) s))
          REPLACEMENTS.

(** The quote characters of a text pair up: read from the left, a quote
    character outside a string opens one, which the next occurrence of
    the same character closes, and no string is open at the end. *)
Fixpoint quoted_from (opened : option char) (s : text) : bool :=
  match s with
  | [] => match opened with None => true | Some _ => false end
  | c :: s' =>
      match opened with
      | None => quoted_from (if is_quote c then Some c else None) s'
      | Some o => quoted_from (if char_eqb c o then None else Some o) s'
      end
  end.

Definition well_quoted (s : text) : bool := quoted_from None s.

(** An occurrence of the quoted name [q body q] between [a] and [b]
    stands alone when it shares neither of its quote characters with
    another occurrence of the same quoted name: [a] does not end with
    [q body] and [b] does not start with [body q]. *)
Definition stands_alone (q body a b : text) : bool :=
  negb (endswith (q ++ body) a) && negb (startswith (body ++ q) b).

(** Every occurrence of the quoted name that stands alone is rewritten
    in place: it becomes the quoted [body'], and the text before it (up
    to and with the opening quote) and the text after it (from the
    closing quote on) become what they would become without the
    occurrence. *)
Definition maps_in_place (q body body' : text) : Prop :=
  forall a b : text,
    stands_alone q body a b = true ->
    exists a' b',
      transform (a ++ q) = a' ++ q
      /\ transform (q ++ b) = q ++ b'
      /\ transform (a ++ (q ++ body ++ q) ++ b)
         = a' ++ (q ++ body' ++ q) ++ b'.

(** The rule [(old, new)] passes over every occurrence of [occ], a text
    between two quote characters [q]: whatever stands before and after,
    the occurrence is kept and the rule works on each side as it would
    without the occurrence. *)
Definition passes_over (q old new occ : text) : Prop :=
  forall a b : text,
    exists a' b',
      replace old new (a ++ q) = a' ++ q
      /\ replace old new (q ++ b) = q ++ b'
      /\ replace old new (a ++ occ ++ b) = a' ++ occ ++ b'.

(** A file is settled when the rules leave its content as it is; the
    files that a list of paths names are ready when each can be written
    and holds, if it can be read, a content that the rules settle in one
    application. *)
Definition settled (st : store) (n : text) : Prop :=
  forall c, f_read (st n) = Ok c -> transform c = c.

Definition ready (E : system) (l : list text) (st : store) : Prop :=
  forall p, In p l ->
    f_write (st (resolve E p)) = WriteOk
    /\ forall c, f_read (st (resolve E p)) = Ok c ->
                 transform (transform c) = transform c.

(** A character that is in no pattern of the table, such as the line
    feed. *)
Definition separator (c : char) : bool :=
  forallb (fun r => negb (existsb (char_eqb c) (fst r))) REPLACEMENTS.

(** Some segment is matched by the closed rule [q body q]; some segment
    is matched by the opening rule [q pre]. *)
Fixpoint any_hit (q : char) (body : text) (segs : list seg) : bool :=
  match segs with
  | [] => false
  | sg :: rest => hit_head q body (sg :: rest) || any_hit q body rest
  end.

Definition opens (q : char) (pre : text) (sg : seg) : bool :=
  char_eqb q (fst sg) && startswith pre (snd sg).

(** No name of a directory or of a file in the tree starts with a
    slash (names of directory entries have no slash at all). *)
Fixpoint relative_names (t : tree) : bool :=
  match t with
  | Unlistable => true
  | Listing subdirs files =>
      forallb (fun d => match d with
                        | (name, sub) =>
                            negb (startswith slash name) && relative_names sub
                        end) subdirs
      && forallb (fun f => negb (startswith slash f)) files
  end.

(** The segments a rule can change: those with its quote and its body,
    or with its quote and a word that starts with its opening. *)
Definition fires (sh : shape) (sg : seg) : bool :=
  match sh with
  | Closed q body _ => char_eqb q (fst sg) && text_eqb (snd sg) body
  | Opening q pre _ => opens q pre sg
  end.

(** A rule that cannot change a segment [(q, body)] nor make one. *)
Definition avoids (q : char) (body : text) (sh : shape) : bool :=
  match sh with
  | Closed q' body' _ => negb (char_eqb q' q && text_eqb body body')
  | Opening _ pre _ => negb (startswith pre body)
  end.

Definition shape_eqb (a b : shape) : bool :=
  match a, b with
  | Closed q x y, Closed q' x' y' =>
      char_eqb q q' && text_eqb x x' && text_eqb y y'
  | Opening q x y, Opening q' x' y' =>
      char_eqb q q' && text_eqb x x' && text_eqb y y'
  | _, _ => false
  end.

Fixpoint distinct (shs : list shape) : bool :=
  match shs with
  | [] => true
  | sh :: rest => negb (existsb (shape_eqb sh) rest) && distinct rest
  end.

(** What one rule does to one segment: it keeps the quote, and it keeps
    the word or, where it fires, puts a word that is not live. *)
Definition touch (sh : shape) (sg sg' : seg) : Prop :=
  fst sg' = fst sg
  /\ (snd sg' = snd sg \/ (fires sh sg = true /\ live (snd sg') = false)).

(** The segment has the quote and the body of a closed rule; two
    segments with the same quote that agree on that. *)
Definition isk (q : char) (body : text) (sg : seg) : bool :=
  char_eqb q (fst sg) && text_eqb (snd sg) body.

Definition alike (q : char) (body : text) (sg sg' : seg) : Prop :=
  fst sg' = fst sg /\ isk q body sg' = isk q body sg.

(** Every rule of [L] is good and is the rule [k] or avoids its
    segments [(q, body)]. *)
Definition all_around (k : shape) (q : char) (body : text)
           (L : list shape) : Prop :=
  forall sh, In sh L ->
    good sh = true /\ (sh = k \/ avoids q body sh = true).

(** The number of segments whose word is live. *)
Definition live_count (segs : list seg) : nat :=
  List.length (filter (fun sg => live (snd sg)) segs).

(* ================================================================== *)
(** ** Small project trees, for the examples *)

Definition demo_tree : tree :=
  Listing
    [ (codes "src",
       Listing [] [codes "a.ts"; codes "b.js"; codes "c.json";
                   codes "package.json"]);
      (codes "node_modules",
       Listing [(codes "pkg", Listing [] [codes "index.js"])] []);
      (codes ".github", Listing [] [codes "ci.json"]) ]
    [codes "app.tsx"; codes "README.md"; codes "package.json"].

(** [src/a.ts] cannot be read, [src/b.js] can be read but not written,
    [src/c.json] has no pattern in it; every other path holds one import
    of the old core package. *)
Definition demo_store : store :=
  fun p =>
    if text_eqb p (ROOT_DIR ++ codes "/src/a.ts") then
      {| f_read := Raises (codes "[Errno 13] Permission denied");
         f_write := WriteOk |}
    else if text_eqb p (ROOT_DIR ++ codes "/src/b.js") then
      {| f_read := Ok (codes "import u from '@platform/ui';");
         f_write :=
           WriteRaises (codes "[Errno 13] Permission denied")
                       (Ok (codes "import u from '@platform/ui';")) |}
    else if text_eqb p (ROOT_DIR ++ codes "/src/c.json") then
      plain_file (codes "{}")
    else plain_file (codes "import x from '@platform/core';").

(** A machine without links, whose output takes every line. *)
Definition demo_system : system :=
  {| resolve := fun p => p; console := fun _ => Ok tt |}.

(** A project with three links: [src/pkg.json], [src/mod.js] and
    [src/ci.json] are links to [cfg/package.json], to
    [node_modules/pkg/index.js] and to [.github/ci.json]. *)
Definition linked_tree : tree :=
  Listing
    [ (codes "src",
       Listing [] [codes "pkg.json"; codes "mod.js"; codes "ci.json"]);
      (codes "cfg", Listing [] [codes "package.json"]);
      (codes "node_modules",
       Listing [(codes "pkg", Listing [] [codes "index.js"])] []);
      (codes ".github", Listing [] [codes "ci.json"]) ]
    [].

Definition linked_system : system :=
  {| resolve := fun p =>
       if text_eqb p (ROOT_DIR ++ codes "/src/pkg.json")
       then ROOT_DIR ++ codes "/cfg/package.json"
       else if text_eqb p (ROOT_DIR ++ codes "/src/mod.js")
       then ROOT_DIR ++ codes "/node_modules/pkg/index.js"
       else if text_eqb p (ROOT_DIR ++ codes "/src/ci.json")
       then ROOT_DIR ++ codes "/.github/ci.json"
       else p;
     console := fun _ => Ok tt |}.

(** Every file holds one import of the old core package. *)
Definition core_store : store :=
  fun _ => plain_file (codes "import x from '@platform/core';").

(** An output in UTF-8: a line with a surrogate code point (as a file
    name that is not valid UTF-8 gives) cannot be encoded.  A project
    with such a file name, [caf\udce9.ts], before [later.ts]. *)
Definition is_surrogate (c : char) : bool :=
  (55296 <=? c)%N && (c <=? 57343)%N.

Definition utf8_system : system :=
  {| resolve := fun p => p;
     console := fun line =>
       if existsb is_surrogate line
       then Raises (codes "'utf-8' codec can't encode character: surrogates not allowed")
       else Ok tt |}.

Definition odd_name : text := codes "caf" ++ [56553%N] ++ codes ".ts".

Definition odd_tree : tree :=
  Listing [] [odd_name; codes "later.ts"].


(* ================================================================== *)
(** * Properties *)

(** Equal texts written with different bracketings of [++]. *)
Ltac same_text :=
  repeat (rewrite <- ?app_assoc; cbn [app]); reflexivity.

(** ** Characters and texts *)

Lemma char_eqb_eq (a b : char) : char_eqb a b = true <-> a = b.
Proof. apply N.eqb_eq. Qed.

Lemma char_eqb_refl (a : char) : char_eqb a a = true.
Proof. apply N.eqb_refl. Qed.

Lemma char_eqb_neq (a b : char) : char_eqb a b = false <-> a <> b.
Proof. apply N.eqb_neq. Qed.

Lemma text_eqb_eq (a b : text) : text_eqb a b = true <-> a = b.
Proof.
  revert b; induction a as [|x a IH]; intros [|y b]; simpl; split;
    try congruence; try reflexivity.
  - rewrite andb_true_iff, char_eqb_eq, IH. intros [-> ->]; reflexivity.
  - intros E; injection E as -> ->.
    rewrite char_eqb_refl. simpl. apply IH. reflexivity.
Qed.

Lemma text_eqb_refl (a : text) : text_eqb a a = true.
Proof. apply text_eqb_eq. reflexivity. Qed.

Lemma text_eqb_neq (a b : text) : text_eqb a b = false <-> a <> b.
Proof.
  rewrite <- text_eqb_eq. destruct (text_eqb a b); split; congruence.
Qed.

Lemma startswith_app (p b : text) : startswith p (p ++ b) = true.
Proof.
  induction p as [|x p IH]; simpl; [reflexivity|].
  rewrite char_eqb_refl. exact IH.
Qed.

Lemma startswith_true (p s : text) :
  startswith p s = true <-> exists b, s = p ++ b.
Proof.
  split.
  - revert s; induction p as [|x p IH]; intros s H; simpl in *.
    + exists s. reflexivity.
    + destruct s as [|y s]; [discriminate|].
      apply andb_true_iff in H as [H1 H2].
      apply char_eqb_eq in H1 as ->.
      destruct (IH _ H2) as [b ->]. exists b. reflexivity.
  - intros [b ->]. apply startswith_app.
Qed.

Lemma endswith_true (p s : text) :
  endswith p s = true <-> exists a, s = a ++ p.
Proof.
  unfold endswith. rewrite startswith_true. split.
  - intros [b E]. exists (rev b).
    rewrite <- (rev_involutive s), E, rev_app_distr, rev_involutive.
    reflexivity.
  - intros [a ->]. exists (rev a). apply rev_app_distr.
Qed.

Lemma contains_here (p s : text) :
  startswith p s = true -> contains p s = true.
Proof. intros H. destruct s; simpl in *; rewrite H; reflexivity. Qed.

Lemma contains_true (p s : text) : contains p s = true <-> occurs p s.
Proof.
  unfold occurs. split.
  - induction s as [|c s IH]; simpl; intros H.
    + rewrite orb_false_r in H. apply startswith_true in H as [b E].
      exists [], b. exact E.
    + apply orb_true_iff in H as [H|H].
      * apply startswith_true in H as [b E]. exists [], b. exact E.
      * destruct (IH H) as (a & b & ->). exists (c :: a), b. reflexivity.
  - intros (a & b & ->). induction a as [|c a IH]; simpl.
    + apply contains_here, startswith_app.
    + rewrite IH. apply orb_true_r.
Qed.

Lemma contains_false (p s : text) : contains p s = false <-> ~ occurs p s.
Proof.
  rewrite <- contains_true. destruct (contains p s); split; congruence.
Qed.

(** ** [str.replace] *)

Lemma replace_from_skip (old new a b : text) :
  replace_from old new (List.length a) (a ++ b) = replace_from old new 0 b.
Proof. induction a as [|c a IH]; simpl; [reflexivity | exact IH]. Qed.

Lemma replace_from_hit (old new b : text) :
  old <> [] ->
  replace_from old new 0 (old ++ b) = new ++ replace_from old new 0 b.
Proof.
  destruct old as [|x old]; [congruence|]. intros _.
  change ((x :: old) ++ b) with (x :: (old ++ b)).
  cbn [replace_from].
  change (x :: old ++ b) with ((x :: old) ++ b).
  rewrite startswith_app.
  replace (List.length (x :: old) - 1) with (List.length old)
    by (simpl; lia).
  rewrite replace_from_skip. reflexivity.
Qed.

Lemma replace_from_miss (old new : text) (c : char) (s : text) :
  startswith old (c :: s) = false ->
  replace_from old new 0 (c :: s) = c :: replace_from old new 0 s.
Proof. intros H. cbn [replace_from]. rewrite H. reflexivity. Qed.

Lemma replace_nonempty (old new s : text) :
  old <> [] -> replace old new s = replace_from old new 0 s.
Proof. destruct old; [congruence | reflexivity]. Qed.

(** One step of the scan: [old] does not occur at all, or the text
    splits at its leftmost occurrence. *)
Lemma replace_from_leftmost (old new s : text) :
  old <> [] ->
  (~ occurs old s /\ replace_from old new 0 s = s)
  \/ exists a b,
       s = a ++ old ++ b
       /\ (forall a' b', s = a' ++ old ++ b' ->
                         List.length a <= List.length a')
       /\ replace_from old new 0 s = a ++ new ++ replace_from old new 0 b.
Proof.
  intros Hold. induction s as [|c s IH].
  - destruct (startswith old []) eqn:E.
    + apply startswith_true in E as [b E].
      destruct old; [congruence | discriminate].
    + left. split; [|reflexivity].
      intros (a & b & E'). destruct a; simpl in E'.
      * destruct old; [congruence | discriminate].
      * discriminate.
  - destruct (startswith old (c :: s)) eqn:E.
    + right. apply startswith_true in E as [b E].
      exists [], b. rewrite E. repeat split.
      * intros; simpl; lia.
      * apply replace_from_hit, Hold.
    + rewrite (replace_from_miss _ _ _ _ E).
      destruct IH as [[Hno Hid] | (a & b & Es & Hmin & Hr)].
      * left. split; [|rewrite Hid; reflexivity].
        intros (a & b & E'). destruct a as [|x a]; simpl in E'.
        -- rewrite E', startswith_app in E. discriminate.
        -- injection E' as _ E'. apply Hno. exists a, b. exact E'.
      * right. exists (c :: a), b. repeat split.
        -- rewrite Es. reflexivity.
        -- intros a' b' E'. destruct a' as [|x a']; simpl in E'.
           ++ rewrite E', startswith_app in E. discriminate.
           ++ injection E' as _ E'. simpl.
              specialize (Hmin _ _ E'). lia.
        -- rewrite Hr. reflexivity.
Qed.

Lemma replace_replaced_all (old new s : text) :
  old <> [] -> replaced_all old new s (replace old new s).
Proof.
  intros Hold. rewrite (replace_nonempty _ _ _ Hold).
  remember (List.length s) as n eqn:En.
  revert s En. induction n as [n IH] using lt_wf_ind. intros s En.
  destruct (replace_from_leftmost old new s Hold)
    as [[Hno Hid] | (a & b & Es & Hmin & Hr)].
  - rewrite Hid. apply replaced_none, Hno.
  - rewrite Hr. subst s. apply replaced_leftmost; [exact Hmin|].
    apply (IH (List.length b)); [|reflexivity].
    subst n. rewrite !length_app.
    destruct old; [congruence | simpl; lia].
Qed.

Lemma app_same_length {A : Type} (a a' b b' : list A) :
  a ++ b = a' ++ b' -> List.length a = List.length a' -> a = a' /\ b = b'.
Proof.
  revert a'; induction a as [|x a IH]; intros [|y a'] E L;
    simpl in *; try discriminate.
  - split; [reflexivity | exact E].
  - injection E as -> E. injection L as L.
    destruct (IH _ E L) as [-> ->]. split; reflexivity.
Qed.

(** The specification's relation determines its result. *)
Lemma replaced_all_functional (old new s r1 r2 : text) :
  replaced_all old new s r1 -> replaced_all old new s r2 -> r1 = r2.
Proof.
  intros H1; revert r2.
  induction H1 as [s Hno | a b r Hmin H1 IH]; intros r2 H2.
  - inversion H2 as [s' Hno' | a' b' r' Hmin' H2' E]; subst; [reflexivity|].
    exfalso. apply Hno. exists a', b'. reflexivity.
  - inversion H2 as [s' Hno' E1 E2 | a' b' r' Hmin' H2' E]; subst.
    + exfalso. apply Hno'. exists a, b. reflexivity.
    + assert (L : List.length a = List.length a').
      { apply Nat.le_antisymm.
        - apply (Hmin a' b'). symmetry. exact E.
        - apply (Hmin' a b). exact E. }
      destruct (app_same_length _ _ _ _ E (eq_sym L)) as [-> E'].
      apply app_inv_head in E'. subst b'.
      rewrite (IH _ H2'). reflexivity.
Qed.

Lemma apply_rules_rewritten (rules : list (text * text)) (s : text) :
  Forall (fun r => fst r <> []) rules ->
  rewritten rules s (apply_rules rules s).
Proof.
  intros H; revert s.
  induction H as [|[old new] rest Hne _ IH]; intros s; simpl.
  - apply rewritten_done.
  - eapply rewritten_rule; [apply replace_replaced_all, Hne | apply IH].
Qed.

Lemma rewritten_functional (rules : list (text * text)) (s r1 r2 : text) :
  rewritten rules s r1 -> rewritten rules s r2 -> r1 = r2.
Proof.
  intros H1; revert r2.
  induction H1 as [s | old new rest s s1 r Hs _ IH]; intros r2 H2;
    inversion H2; subst; [reflexivity|].
  apply IH.
  match goal with
  | H : replaced_all old new s ?x |- rewritten rest s1 _ =>
      rewrite (replaced_all_functional _ _ _ _ _ Hs H)
  end.
  assumption.
Qed.

Lemma patterns_nonempty : Forall (fun r => fst r <> []) REPLACEMENTS.
Proof. repeat constructor; discriminate. Qed.

(** C3.  For every file content the buffer that [update_file] computes is
    the result of the 14 rules of the table applied one after the other
    in table order, each replacing every non-overlapping occurrence of
    its pattern from the left in the result of the rule before; it is the
    only such result; and the content
    [import x from '@platform/core';] becomes
    [import x from '@/lib/core';]. *)
Theorem transform_is_sequential_rewriting :
  List.length REPLACEMENTS = 14
  /\ (forall content r,
        rewritten REPLACEMENTS content r <-> r = transform content)
  /\ transform (codes "import x from '@platform/core';")
     = codes "import x from '@/lib/core';".
Proof.
  split; [reflexivity|]. split; [|vm_compute; reflexivity].
  intros content r. split.
  - intros H. eapply rewritten_functional; [exact H|].
    apply apply_rules_rewritten, patterns_nonempty.
  - intros ->. apply apply_rules_rewritten, patterns_nonempty.
Qed.

Lemma replace_absent (old new s : text) :
  old <> [] -> ~ occurs old s -> replace old new s = s.
Proof.
  intros Hold Hno. rewrite (replace_nonempty _ _ _ Hold).
  destruct (replace_from_leftmost old new s Hold)
    as [[_ Hid] | (a & b & Es & _)]; [exact Hid|].
  exfalso. apply Hno. exists a, b. exact Es.
Qed.

Lemma apply_rules_absent (rules : list (text * text)) (s : text) :
  Forall (fun r => fst r <> []) rules ->
  Forall (fun r => ~ occurs (fst r) s) rules ->
  apply_rules rules s = s.
Proof.
  intros Hne Hno.
  induction rules as [|[old new] rest IH]; simpl; [reflexivity|].
  inversion Hne; inversion Hno; subst; simpl in *.
  rewrite replace_absent by assumption. apply IH; assumption.
Qed.

(** ** Sequencing and loops *)

Lemma seq_skip_l (a : prog) (st : store) : (skip ;; a) st = a st.
Proof. unfold seq, skip. destruct (a st) as [[st1 e1] x]. reflexivity. Qed.

Lemma seq_skip_r (a : prog) (st : store) : (a ;; skip) st = a st.
Proof.
  unfold seq, skip. destruct (a st) as [[st1 e1] [|m]];
    rewrite ?app_nil_r; reflexivity.
Qed.

Lemma seq_assoc (a b c : prog) (st : store) :
  ((a ;; b) ;; c) st = (a ;; (b ;; c)) st.
Proof.
  unfold seq. destruct (a st) as [[st1 e1] [|m]]; [|reflexivity].
  destruct (b st1) as [[st2 e2] [|m]]; [|reflexivity].
  destruct (c st2) as [[st3 e3] x]. rewrite app_assoc. reflexivity.
Qed.

Lemma seq_ext (a a' b b' : prog) (st : store) :
  a st = a' st -> (forall s, b s = b' s) -> (a ;; b) st = (a' ;; b') st.
Proof.
  intros Ha Hb. unfold seq. rewrite Ha.
  destruct (a' st) as [[st1 e1] [|m]]; [|reflexivity].
  rewrite Hb. reflexivity.
Qed.

Lemma for_each_app {A : Type} (l1 l2 : list A) (body : A -> prog)
      (st : store) :
  for_each (l1 ++ l2) body st = (for_each l1 body ;; for_each l2 body) st.
Proof.
  revert st; induction l1 as [|x l1 IH]; intros st; simpl.
  - rewrite seq_skip_l. reflexivity.
  - rewrite seq_assoc. apply seq_ext; [reflexivity | exact IH].
Qed.

Lemma for_each_flat_map {A B : Type} (f : A -> list B) (body : B -> prog)
      (l : list A) (st : store) :
  for_each (flat_map f l) body st
  = for_each l (fun x => for_each (f x) body) st.
Proof.
  revert st; induction l as [|x l IH]; intros st; simpl; [reflexivity|].
  rewrite for_each_app. apply seq_ext; [reflexivity | exact IH].
Qed.

Lemma for_each_ext {A : Type} (body body' : A -> prog) (l : list A)
      (st : store) :
  (forall x s, body x s = body' x s) ->
  for_each l body st = for_each l body' st.
Proof.
  intros H. revert st; induction l as [|x l IH]; intros st; simpl;
    [reflexivity|].
  apply seq_ext; [apply H | exact IH].
Qed.

(** One more turn of a loop: when the body ends normally the loop goes
    on from the files it left; when an exception leaves the body the
    loop ends there. *)
Lemma for_each_done {A : Type} (x : A) (l : list A) (body : A -> prog)
      (st : store) :
  r_end (body x st) = Done ->
  for_each (x :: l) body st
  = (r_store (for_each l body (r_store (body x st))),
     r_events (body x st) ++ r_events (for_each l body (r_store (body x st))),
     r_end (for_each l body (r_store (body x st)))).
Proof.
  cbn [for_each]. unfold seq. destruct (body x st) as [[st1 e1] y].
  cbn [r_end r_store r_events fst snd]. intros ->.
  destruct (for_each l body st1) as [[st2 e2] z]. reflexivity.
Qed.

Lemma for_each_stop {A : Type} (x : A) (l : list A) (body : A -> prog)
      (st : store) (msg : text) :
  r_end (body x st) = Uncaught msg ->
  for_each (x :: l) body st = body x st.
Proof.
  cbn [for_each]. unfold seq. destruct (body x st) as [[st1 e1] y].
  cbn [r_end snd]. intros ->. reflexivity.
Qed.

(** ** The run as a loop over its targets *)

Lemma visit_file_targets (E : system) (root file : text) (st : store) :
  visit_file E root file st
  = for_each (if wanted file then [join root file] else [])
             (update_file E) st.
Proof.
  unfold visit_file, wanted.
  destruct (endswith_any EXTENSIONS file); simpl; [|reflexivity].
  destruct (skipped_name file); simpl; [reflexivity|].
  rewrite seq_skip_r. reflexivity.
Qed.

Lemma for_each_filter_map (E : system) (root : text) (files : list text)
      (st : store) :
  for_each files (visit_file E root) st
  = for_each (map (join root) (filter wanted files)) (update_file E) st.
Proof.
  revert st; induction files as [|f files IH]; intros st; [reflexivity|].
  cbn [for_each filter].
  destruct (wanted f) eqn:W.
  - cbn [map for_each]. apply seq_ext; [|exact IH].
    rewrite visit_file_targets, W. simpl. apply seq_skip_r.
  - rewrite <- IH, <- (seq_skip_l (for_each files (visit_file E root)) st).
    apply seq_ext; [|reflexivity].
    rewrite visit_file_targets, W. reflexivity.
Qed.

Lemma visit_dir_targets (E : system) (entry : text * list text * list text)
      (st : store) :
  visit_dir E entry st = for_each (dir_targets entry) (update_file E) st.
Proof.
  destruct entry as [[root dirs] files]. unfold visit_dir, dir_targets.
  destruct (skipped_root root); [reflexivity|].
  apply for_each_filter_map.
Qed.

Lemma run_targets (E : system) (top : text) (t : tree) (st : store) :
  run E top t st = for_each (targets top t) (update_file E) st.
Proof.
  unfold run, targets. rewrite for_each_flat_map.
  apply for_each_ext. intros x s. apply visit_dir_targets.
Qed.

(** ** One call of [update_file] *)

Lemma put_other (st : store) (n m : text) (f : file) :
  m <> n -> put st n f m = st m.
Proof.
  intros H. unfold put. apply text_eqb_neq in H. rewrite H. reflexivity.
Qed.

Lemma put_same (st : store) (n : text) (f : file) : put st n f n = f.
Proof. unfold put. rewrite text_eqb_refl. reflexivity. Qed.


Lemma transform_unchanged (c : text) :
  transform c = c -> negb (text_eqb c (transform c)) = false.
Proof.
  intros H. rewrite H, text_eqb_refl. reflexivity.
Qed.

(** The two ways the handler ends. *)
Lemma handler_cases (E : system) (p : text) (st : store)
      (ev : list event) (msg : text) :
  (console E (error_line p msg) = Ok tt
   /\ handler E p st ev msg = (st, ev ++ [Print (error_line p msg)], Done))
  \/ (exists msg', console E (error_line p msg) = Raises msg'
                   /\ handler E p st ev msg = (st, ev, Uncaught msg')).
Proof.
  unfold handler. destruct (console E (error_line p msg)) as [[]|msg'].
  - left. split; reflexivity.
  - right. exists msg'. split; reflexivity.
Qed.

Lemma update_file_cases (E : system) (p : text) (st : store) :
  update_case E p st.
Proof.
  destruct (f_read (st (resolve E p))) as [c|msg] eqn:Hr.
  - destruct (text_eqb c (transform c)) eqn:Ec.
    + apply (case_unchanged E p st c Hr).
      * symmetry. apply text_eqb_eq, Ec.
      * unfold update_file. rewrite Hr. cbv zeta. rewrite Ec. reflexivity.
    + assert (Hne : transform c <> c)
        by (apply text_eqb_neq in Ec; congruence).
      destruct (f_write (st (resolve E p))) as [|msg after] eqn:Hw.
      * destruct (console E (updated_line p)) as [[]|msg] eqn:Hc.
        -- apply (case_updated E p st c Hr Hne Hw Hc).
           unfold update_file. rewrite Hr. cbv zeta. rewrite Ec, Hw, Hc.
           reflexivity.
        -- apply (case_unannounced E p st c msg Hr Hne Hw Hc).
           unfold update_file. rewrite Hr. cbv zeta. rewrite Ec, Hw, Hc.
           reflexivity.
      * apply (case_unwritable E p st c msg after Hr Hne Hw).
        unfold update_file. rewrite Hr. cbv zeta. rewrite Ec, Hw.
        reflexivity.
  - apply (case_unreadable E p st msg Hr).
    unfold update_file. rewrite Hr. reflexivity.
Qed.

Lemma reads_app (e1 e2 : list event) : reads (e1 ++ e2) = reads e1 ++ reads e2.
Proof. apply flat_map_app. Qed.

Lemma writes_app (e1 e2 : list event) :
  writes (e1 ++ e2) = writes e1 ++ writes e2.
Proof. apply flat_map_app. Qed.

Lemma printed_app (e1 e2 : list event) :
  printed (e1 ++ e2) = printed e1 ++ printed e2.
Proof. apply flat_map_app. Qed.

Lemma handler_store (E : system) (p : text) (st : store) (ev : list event)
      (msg : text) :
  r_store (handler E p st ev msg) = st.
Proof.
  destruct (handler_cases E p st ev msg) as [[_ ->] | (m & _ & ->)];
    reflexivity.
Qed.

Lemma handler_reads (E : system) (p : text) (st : store) (ev : list event)
      (msg : text) :
  reads (r_events (handler E p st ev msg)) = reads ev.
Proof.
  destruct (handler_cases E p st ev msg) as [[_ ->] | (m & _ & ->)];
    cbn [r_events fst snd]; [|reflexivity].
  rewrite reads_app. apply app_nil_r.
Qed.

Lemma handler_writes (E : system) (p : text) (st : store) (ev : list event)
      (msg : text) :
  writes (r_events (handler E p st ev msg)) = writes ev.
Proof.
  destruct (handler_cases E p st ev msg) as [[_ ->] | (m & _ & ->)];
    cbn [r_events fst snd]; [|reflexivity].
  rewrite writes_app. apply app_nil_r.
Qed.

Lemma update_file_reads (E : system) (q : text) (st : store) :
  reads (r_events (update_file E q st)) = [q].
Proof.
  destruct (update_file_cases E q st) as [? ? ->|? ? ? ->|? ? ? ? ? ->
                                          |? ? ? ? ? ? ->|? ? ? ? ? ? ->];
    rewrite ?handler_reads; reflexivity.
Qed.

Lemma update_file_writes (E : system) (q : text) (st : store) :
  incl (writes (r_events (update_file E q st))) [q].
Proof.
  destruct (update_file_cases E q st) as [? ? ->|? ? ? ->|? ? ? ? ? ->
                                          |? ? ? ? ? ? ->|? ? ? ? ? ? ->];
    rewrite ?handler_writes; cbn;
    first [apply incl_refl | apply incl_nil_l].
Qed.

(** A call of [update_file] changes no other file than the one its path
    names. *)
Lemma update_file_frame (E : system) (q n : text) (st : store) :
  n <> resolve E q -> r_store (update_file E q st) n = st n.
Proof.
  intros H.
  destruct (update_file_cases E q st) as [? ? ->|? ? ? ->|? ? ? ? ? ->
                                          |? ? ? ? ? ? ->|? ? ? ? ? ? ->];
    rewrite ?handler_store; cbn [r_store fst]; try reflexivity;
    apply put_other, H.
Qed.

(** ** The files a run opens, and those it leaves alone *)

Lemma for_each_update_reads (E : system) (l : list text) (st : store) :
  (exists l2, l = reads (r_events (for_each l (update_file E) st)) ++ l2)
  /\ (r_end (for_each l (update_file E) st) = Done ->
      reads (r_events (for_each l (update_file E) st)) = l).
Proof.
  revert st; induction l as [|q l IH]; intros st.
  - split; [exists []; reflexivity | reflexivity].
  - destruct (r_end (update_file E q st)) as [|msg] eqn:Hend.
    + rewrite (for_each_done _ _ _ _ Hend). cbn [r_events r_end fst snd].
      rewrite reads_app, update_file_reads.
      destruct (IH (r_store (update_file E q st))) as [[l2 H1] H2]. split.
      * exists l2. cbn [app]. f_equal. exact H1.
      * intros Hd. cbn [app]. f_equal. apply H2, Hd.
    + rewrite (for_each_stop _ _ _ _ _ Hend), update_file_reads. split.
      * exists l. reflexivity.
      * intros Hd. congruence.
Qed.

Lemma for_each_update_writes (E : system) (l : list text) (st : store) :
  incl (writes (r_events (for_each l (update_file E) st))) l.
Proof.
  revert st; induction l as [|q l IH]; intros st; [intros x []|].
  destruct (r_end (update_file E q st)) as [|msg] eqn:Hend.
  - rewrite (for_each_done _ _ _ _ Hend). cbn [r_events fst snd].
    rewrite writes_app. apply incl_app.
    + intros x Hx. apply update_file_writes in Hx. destruct Hx as [<-|[]].
      left. reflexivity.
    + apply incl_tl, IH.
  - rewrite (for_each_stop _ _ _ _ _ Hend).
    intros x Hx. apply update_file_writes in Hx. destruct Hx as [<-|[]].
    left. reflexivity.
Qed.

Lemma for_each_update_frame (E : system) (l : list text) (n : text)
      (st : store) :
  (forall q, In q l -> resolve E q <> n) ->
  r_store (for_each l (update_file E) st) n = st n.
Proof.
  revert st; induction l as [|q l IH]; intros st H; [reflexivity|].
  assert (Hq : n <> resolve E q).
  { intros ->. apply (H q); [left|]; reflexivity. }
  destruct (r_end (update_file E q st)) as [|msg] eqn:Hend.
  - rewrite (for_each_done _ _ _ _ Hend). cbn [r_store fst].
    rewrite IH; [apply update_file_frame, Hq|].
    intros x Hx. apply H. right. exact Hx.
  - rewrite (for_each_stop _ _ _ _ _ Hend). apply update_file_frame, Hq.
Qed.

(** A path that is no target of the run is not opened; a file that no
    target names is not changed. *)
Lemma run_not_opened (E : system) (top : text) (t : tree) (st : store)
      (p : text) :
  ~ In p (targets top t) ->
  ~ In p (reads (r_events (run E top t st)))
  /\ ~ In p (writes (r_events (run E top t st))).
Proof.
  intros H. rewrite run_targets. split.
  - destruct (for_each_update_reads E (targets top t) st) as [[l2 Hl] _].
    intros Hin. apply H. rewrite Hl. apply in_or_app. left. exact Hin.
  - intros Hin. apply for_each_update_writes in Hin. exact (H Hin).
Qed.

Lemma run_frame (E : system) (top : text) (t : tree) (st : store)
      (n : text) :
  (forall q, In q (targets top t) -> resolve E q <> n) ->
  r_store (run E top t st) n = st n.
Proof. intros H. rewrite run_targets. apply for_each_update_frame, H. Qed.

(** ** Paths *)

Lemma slash_eq : slash = [47%N].
Proof. reflexivity. Qed.

Lemma contains_slash_false (s : text) :
  contains slash s = false <-> ~ In 47%N s.
Proof.
  rewrite slash_eq. induction s as [|c s IH].
  - split; [intros _ [] | reflexivity].
  - cbn [contains startswith In].
    rewrite andb_true_r, orb_false_iff, IH, char_eqb_neq. split.
    + intros [H1 H2] [E|E]; [apply H1; symmetry; exact E | exact (H2 E)].
    + intros H. split; [intros E; apply H; left; symmetry; exact E|].
      intros E; apply H; right; exact E.
Qed.

Lemma contains_slash_app (a b : text) :
  contains slash (a ++ b) = contains slash a || contains slash b.
Proof.
  destruct (contains slash a) eqn:Ea, (contains slash b) eqn:Eb; simpl.
  1-3: apply not_false_iff_true; intros H;
       apply contains_slash_false in H; rewrite in_app_iff in H.
  - apply not_false_iff_true in Ea. apply Ea, contains_slash_false. tauto.
  - apply not_false_iff_true in Ea. apply Ea, contains_slash_false. tauto.
  - apply not_false_iff_true in Eb. apply Eb, contains_slash_false. tauto.
  - apply contains_slash_false. rewrite in_app_iff.
    apply contains_slash_false in Ea, Eb. tauto.
Qed.

Lemma endswith_slash (s : text) :
  endswith slash s = true <-> exists a, s = a ++ [47%N].
Proof. apply endswith_true. Qed.

(** A path built by [join] from a slash-free name is a directory part,
    empty or ended by a slash, followed by the name; the directory part
    is the root, with a slash added where it is needed. *)
Lemma join_shape (root name : text) :
  contains slash name = false ->
  exists D, join root name = D ++ name
            /\ (D = [] \/ endswith slash D = true)
            /\ (D = root \/ D = root ++ slash).
Proof.
  intros Hn. unfold join.
  assert (Hs : startswith slash name = false).
  { destruct (startswith slash name) eqn:E; [|reflexivity].
    apply contains_here in E. congruence. }
  rewrite Hs. destruct (text_eqb root []) eqn:E1; simpl.
  - apply text_eqb_eq in E1. subst root. exists []. auto.
  - destruct (endswith slash root) eqn:E2.
    + exists root. auto.
    + exists (root ++ slash). rewrite <- app_assoc. repeat split.
      * right. apply endswith_true. exists root. reflexivity.
      * right. reflexivity.
Qed.

Lemma split_at_last_slash (D name : text) :
  (D = [] \/ endswith slash D = true) ->
  contains slash name = false ->
  dirpart (D ++ name) = D /\ basename (D ++ name) = name.
Proof.
  intros HD Hn. induction D as [|c D IH].
  - simpl. destruct name as [|x name]; [split; reflexivity|].
    cbn [dirpart basename]. rewrite Hn. split; reflexivity.
  - destruct HD as [HD|HD]; [discriminate|].
    apply endswith_slash in HD as [a Ea].
    assert (Hc : contains slash ((c :: D) ++ name) = true).
    { rewrite contains_slash_app, Ea, contains_slash_app.
      reflexivity || (simpl; rewrite orb_true_r; reflexivity). }
    change ((c :: D) ++ name) with (c :: (D ++ name)) in *.
    cbn [dirpart basename]. rewrite Hc.
    assert (HD' : D = [] \/ endswith slash D = true).
    { destruct a as [|x a]; simpl in Ea; injection Ea as _ Ea.
      - left. exact Ea.
      - right. apply endswith_slash. exists a. exact Ea. }
    destruct (IH HD') as [-> ->]. split; reflexivity.
Qed.

Lemma cut_before_slash_free {A : Type} (c : A) (u v D n : list A) :
  u ++ c :: v = D ++ n -> ~ In c n -> exists v', D = u ++ c :: v'.
Proof.
  revert D; induction u as [|x u IH]; intros D E Hc.
  - destruct D as [|y D]; simpl in E.
    + exfalso. apply Hc. rewrite <- E. left. reflexivity.
    + injection E as -> _. exists D. reflexivity.
  - destruct D as [|y D]; simpl in E.
    + exfalso. apply Hc. rewrite <- E. right. apply in_or_app. right. left.
      reflexivity.
    + injection E as -> E. destruct (IH _ E Hc) as [v' ->].
      exists v'. reflexivity.
Qed.

Lemma occurs_before_slash (d root : text) :
  ~ In 47%N d -> occurs d (root ++ slash) -> occurs d root.
Proof.
  rewrite slash_eq. intros Hd (a & b & E).
  induction b as [|x b' _] using rev_ind.
  - rewrite app_nil_r in E.
    induction d as [|y d' _] using rev_ind.
    + exists root, []. rewrite app_nil_r. reflexivity.
    + rewrite app_assoc in E. apply app_inj_tail in E as [_ E].
      exfalso. apply Hd. apply in_or_app. right. left. symmetry. exact E.
  - exists a, b'.
    rewrite !app_assoc in E. apply app_inj_tail in E as [E _].
    rewrite <- app_assoc in E. exact E.
Qed.

Lemma skipped_root_true (root : text) :
  skipped_root root = true
  <-> occurs (codes "node_modules") root
      \/ occurs (codes ".git") root
      \/ occurs (codes ".next") root.
Proof.
  unfold skipped_root. rewrite !orb_true_iff, !contains_true. tauto.
Qed.

Lemma skipped_root_slash (root : text) :
  skipped_root (root ++ slash) = true -> skipped_root root = true.
Proof.
  rewrite !skipped_root_true.
  intros [H|[H|H]]; [left | right; left | right; right];
    (apply occurs_before_slash;
     [apply contains_slash_false; reflexivity | exact H]).
Qed.

(** Where a target comes from: a listed file with a wanted name in a
    directory whose path passed the test of the outer loop. *)
Lemma target_origin (top : text) (t : tree) (p : text) :
  well_named top t = true ->
  In p (targets top t) ->
  exists root name,
    skipped_root root = false /\ wanted name = true
    /\ contains slash name = false /\ p = join root name.
Proof.
  unfold well_named, targets. rewrite forallb_forall, in_flat_map.
  intros Hwn ([[root dirs] files] & Hin & Hp).
  specialize (Hwn _ Hin). cbn [snd] in Hwn. rewrite forallb_forall in Hwn.
  unfold dir_targets in Hp.
  destruct (skipped_root root) eqn:Hs; [destruct Hp|].
  apply in_map_iff in Hp as (name & <- & Hf).
  apply filter_In in Hf as [Hf Hw].
  exists root, name. repeat split; try assumption.
  apply negb_true_iff, Hwn, Hf.
Qed.

Lemma target_split (top : text) (t : tree) (p : text) :
  well_named top t = true ->
  In p (targets top t) ->
  wanted (basename p) = true
  /\ skipped_root (dirpart p) = false
  /\ exists root, skipped_root root = false
                  /\ (dirpart p = root \/ dirpart p = root ++ slash).
Proof.
  intros Hwn Hin.
  destruct (target_origin _ _ _ Hwn Hin) as (root & name & Hs & Hw & Hn & ->).
  destruct (join_shape root name Hn) as (D & -> & HD & Hroot).
  destruct (split_at_last_slash D name HD Hn) as [-> ->].
  split; [exact Hw|]. split.
  - destruct Hroot as [-> | ->]; [exact Hs|].
    destruct (skipped_root (root ++ slash)) eqn:E; [|reflexivity].
    apply skipped_root_slash in E. congruence.
  - exists root. split; assumption.
Qed.

Lemma below_dirpart (d p : text) :
  below d p -> occurs d (dirpart p).
Proof.
  intros (a & b & E & _).
  assert (Hp : p = dirpart p ++ basename p
               /\ contains slash (basename p) = false).
  { clear. induction p as [|c p [IH1 IH2]]; [split; reflexivity|].
    cbn [dirpart basename].
    destruct (contains slash (c :: p)) eqn:Hc.
    - split; [simpl; f_equal; exact IH1 | exact IH2].
    - split; [reflexivity | exact Hc]. }
  destruct Hp as [Hp Hb].
  assert (E' : (a ++ d) ++ 47%N :: b = dirpart p ++ basename p).
  { rewrite <- Hp, E, slash_eq, <- app_assoc. reflexivity. }
  apply cut_before_slash_free in E' as [v' E'];
    [|apply contains_slash_false, Hb].
  exists a, (47%N :: v'). rewrite E', <- app_assoc. reflexivity.
Qed.

(** ** Which files a run leaves alone *)

(** Every sub-directory is walked, whatever its name: the walk of a
    listed directory contains the walk of each of its sub-directories. *)
Lemma walk_enters_subdirs (top : text) (subdirs : list (text * tree))
      (files : list text) (name : text) (sub : tree) :
  In (name, sub) subdirs ->
  incl (walk (join top name) sub) (walk top (Listing subdirs files)).
Proof.
  intros Hin e He. cbn [walk]. right. apply in_flat_map.
  exists (name, sub). split; assumption.
Qed.

(** The [continue] of the outer loop: a walked directory whose path has
    one of the three names in it is passed over. *)
Lemma visit_dir_skipped (E : system) (entry : text * list text * list text)
      (st : store) :
  skipped_root (fst (fst entry)) = true ->
  visit_dir E entry st = (st, [], Done).
Proof.
  destruct entry as [[root dirs] files]. cbn [fst]. intros H.
  unfold visit_dir. rewrite H. reflexivity.
Qed.

(** C6 as stated fails: [src/pkg.json] is a link to [cfg/package.json].
    The name of the link is a wanted one, so the run opens it, and the
    file named [package.json] that it leads to is read and rewritten. *)
Lemma skipped_name_changed_through_link :
  let p := ROOT_DIR ++ codes "/cfg/package.json" in
  basename p = codes "package.json"
  /\ resolve linked_system p = p
  /\ f_read (core_store p) = Ok (codes "import x from '@platform/core';")
  /\ f_read (r_store (main linked_system linked_tree core_store) p)
     = Ok (codes "import x from '@/lib/core';").
Proof. vm_compute. repeat split; reflexivity. Qed.

(** C6, amended.  In a tree whose file names are proper names (no slash
    in them), a path whose last component does not end in one of [.ts],
    [.tsx], [.js], [.jsx], [.json], or is [package.json] or
    [package-lock.json], is neither opened for reading nor for writing
    by the run, whatever the file contains; and the file it names is the
    same file after the run when no path that the run does open names
    that file too (as a link to it would). *)
Theorem unwanted_names_untouched (E : system) (top : text) (t : tree)
        (st : store) (p : text) :
  well_named top t = true ->
  endswith_any EXTENSIONS (basename p) = false
  \/ basename p = codes "package.json"
  \/ basename p = codes "package-lock.json" ->
  ~ In p (reads (r_events (run E top t st)))
  /\ ~ In p (writes (r_events (run E top t st)))
  /\ ((forall q, In q (targets top t) -> resolve E q <> resolve E p) ->
      r_store (run E top t st) (resolve E p) = st (resolve E p)).
Proof.
  intros Hwn Hname.
  assert (Hno : ~ In p (targets top t)).
  { intros Hin.
    destruct (target_split _ _ _ Hwn Hin) as [Hw _].
    unfold wanted in Hw. apply andb_true_iff in Hw as [He Hs].
    destruct Hname as [H|[H|H]].
    - congruence.
    - rewrite H in Hs. discriminate.
    - rewrite H in Hs. discriminate. }
  destruct (run_not_opened E top t st p Hno) as [Hr Hw].
  split; [exact Hr|]. split; [exact Hw|]. apply run_frame.
Qed.

Lemma unwanted_names_untouched_witness :
  ~ In (ROOT_DIR ++ codes "/package.json")
       (reads (r_events (run demo_system ROOT_DIR demo_tree demo_store)))
  /\ ~ In (ROOT_DIR ++ codes "/package.json")
          (writes (r_events (run demo_system ROOT_DIR demo_tree demo_store)))
  /\ r_store (run demo_system ROOT_DIR demo_tree demo_store)
             (ROOT_DIR ++ codes "/package.json")
     = demo_store (ROOT_DIR ++ codes "/package.json").
Proof.
  destruct (unwanted_names_untouched
              demo_system ROOT_DIR demo_tree demo_store
              (ROOT_DIR ++ codes "/package.json")) as (Hr & Hw & Hf).
  - vm_compute. reflexivity.
  - right. left. vm_compute. reflexivity.
  - split; [exact Hr|]. split; [exact Hw|]. apply Hf.
    intros q Hq. vm_compute in Hq.
    repeat (destruct Hq as [<-|Hq]; [vm_compute; discriminate|]).
    destruct Hq.
Defined.

(** C7 as stated fails, twice.  The directory [node_modules] is not
    pruned: the walk lists [node_modules/pkg] like any other directory,
    and only the test on its path passes over its files.  And a file
    under [node_modules] is rewritten when a link outside leads to it:
    [src/mod.js] is a link to [node_modules/pkg/index.js]. *)
Lemma excluded_directory_walked_and_changed :
  let p := ROOT_DIR ++ codes "/node_modules/pkg/index.js" in
  In (ROOT_DIR ++ codes "/node_modules/pkg", [], [codes "index.js"])
     (walk ROOT_DIR linked_tree)
  /\ below (codes "node_modules") p
  /\ resolve linked_system p = p
  /\ f_read (core_store p) = Ok (codes "import x from '@platform/core';")
  /\ f_read (r_store (main linked_system linked_tree core_store) p)
     = Ok (codes "import x from '@/lib/core';").
Proof.
  split; [|split].
  - vm_compute. do 4 right. left. reflexivity.
  - exists (ROOT_DIR ++ codes "/"), (codes "pkg/index.js").
    split; [vm_compute; reflexivity | right; vm_compute; reflexivity].
  - vm_compute. repeat split; reflexivity.
Qed.

(** C7, amended.  Directories are not pruned: every sub-directory is
    walked, whatever its name, and a walked directory whose path has
    [node_modules], [.git] or [.next] in it is passed over by the test
    at the head of the loop.  So, in a tree whose file names are proper
    names, a path with a component [node_modules], [.git] or [.next]
    before its last one is neither opened for reading nor for writing
    by the run, even when its name is a wanted one; and the file it
    names is the same file after the run when no path that the run does
    open names that file too. *)
Theorem excluded_directories_untouched :
  (forall (top : text) (subdirs : list (text * tree)) (files : list text)
          (name : text) (sub : tree),
      In (name, sub) subdirs ->
      incl (walk (join top name) sub) (walk top (Listing subdirs files)))
  /\ (forall (E : system) (root : text) (dirs files : list text)
             (st : store),
      skipped_root root = true ->
      visit_dir E (root, dirs, files) st = (st, [], Done))
  /\ (forall (E : system) (top : text) (t : tree) (st : store)
             (d p : text),
      well_named top t = true ->
      In d [codes "node_modules"; codes ".git"; codes ".next"] ->
      below d p ->
      ~ In p (reads (r_events (run E top t st)))
      /\ ~ In p (writes (r_events (run E top t st)))
      /\ ((forall q, In q (targets top t) -> resolve E q <> resolve E p) ->
          r_store (run E top t st) (resolve E p) = st (resolve E p))).
Proof.
  split; [exact walk_enters_subdirs|]. split.
  - intros E root dirs files st H.
    apply (visit_dir_skipped E (root, dirs, files) st H).
  - intros E top t st d p Hwn Hd Hb.
    assert (Hno : ~ In p (targets top t)).
    { intros Hin.
      destruct (target_split _ _ _ Hwn Hin) as (_ & Hs & _).
      apply below_dirpart in Hb.
      assert (skipped_root (dirpart p) = true); [|congruence].
      apply skipped_root_true.
      destruct Hd as [<-|[<-|[<-|[]]]]; auto. }
    destruct (run_not_opened E top t st p Hno) as [Hr Hw].
    split; [exact Hr|]. split; [exact Hw|]. apply run_frame.
Qed.

Lemma excluded_directories_untouched_witness :
  incl (walk (join ROOT_DIR (codes "node_modules"))
             (Listing [(codes "pkg", Listing [] [codes "index.js"])] []))
       (walk ROOT_DIR demo_tree)
  /\ ~ In (ROOT_DIR ++ codes "/node_modules/pkg/index.js")
          (reads (r_events (run demo_system ROOT_DIR demo_tree demo_store)))
  /\ ~ In (ROOT_DIR ++ codes "/node_modules/pkg/index.js")
          (writes (r_events (run demo_system ROOT_DIR demo_tree demo_store)))
  /\ r_store (run demo_system ROOT_DIR demo_tree demo_store)
             (ROOT_DIR ++ codes "/node_modules/pkg/index.js")
     = demo_store (ROOT_DIR ++ codes "/node_modules/pkg/index.js").
Proof.
  destruct excluded_directories_untouched as (Hwalk & _ & Hrun).
  split.
  - apply Hwalk. right. left. reflexivity.
  - destruct (Hrun demo_system ROOT_DIR demo_tree demo_store
                   (codes "node_modules")
                   (ROOT_DIR ++ codes "/node_modules/pkg/index.js"))
      as (Hr & Hw & Hf).
    + vm_compute. reflexivity.
    + simpl. left. reflexivity.
    + exists (ROOT_DIR ++ codes "/"), (codes "pkg/index.js").
      split; [vm_compute; reflexivity | right; vm_compute; reflexivity].
    + split; [exact Hr|]. split; [exact Hw|]. apply Hf.
      intros q Hq. vm_compute in Hq.
      repeat (destruct Hq as [<-|Hq]; [vm_compute; discriminate|]).
      destruct Hq.
Defined.

(** C10 as stated fails: [src/ci.json] is a link to [.github/ci.json].
    The directory of the link has none of the three names in its path,
    so the run opens the link, and the file under [.github] that it
    leads to is read and rewritten. *)
Lemma substring_directory_changed_through_link :
  let p := ROOT_DIR ++ codes "/.github/ci.json" in
  skipped_root (dirpart p) = true
  /\ resolve linked_system p = p
  /\ f_read (core_store p) = Ok (codes "import x from '@platform/core';")
  /\ f_read (r_store (main linked_system linked_tree core_store) p)
     = Ok (codes "import x from '@/lib/core';").
Proof. vm_compute. repeat split; reflexivity. Qed.

(** C10, amended.  The test on directories is a substring test on the
    whole path of the walked directory.  In a tree whose file names are
    proper names, a path whose directory part has [node_modules], [.git]
    or [.next] anywhere in it is neither opened for reading nor for
    writing by the run; and the file it names is the same file after
    the run when no path that the run does open names that file too.
    The paths of directories named [.github] and [my.nextapp] are such
    paths, although neither name is one of the three. *)
Theorem substring_directories_untouched :
  (forall root : text,
      skipped_root root = true
      <-> occurs (codes "node_modules") root
          \/ occurs (codes ".git") root
          \/ occurs (codes ".next") root)
  /\ (forall (E : system) (top : text) (t : tree) (st : store) (p : text),
      well_named top t = true ->
      skipped_root (dirpart p) = true ->
      ~ In p (reads (r_events (run E top t st)))
      /\ ~ In p (writes (r_events (run E top t st)))
      /\ ((forall q, In q (targets top t) -> resolve E q <> resolve E p) ->
          r_store (run E top t st) (resolve E p) = st (resolve E p)))
  /\ skipped_root (dirpart (ROOT_DIR ++ codes "/.github/ci.json")) = true
  /\ skipped_root (dirpart (ROOT_DIR ++ codes "/my.nextapp/page.tsx")) = true
  /\ ~ below (codes ".git") (ROOT_DIR ++ codes "/.github/ci.json").
Proof.
  split; [exact skipped_root_true|].
  split; [|split; [vm_compute; reflexivity|split; [vm_compute; reflexivity|]]].
  - intros E top t st p Hwn Hs.
    assert (Hno : ~ In p (targets top t)).
    { intros Hin.
      destruct (target_split _ _ _ Hwn Hin) as (_ & Hs' & _). congruence. }
    destruct (run_not_opened E top t st p Hno) as [Hr Hw].
    split; [exact Hr|]. split; [exact Hw|]. apply run_frame.
  - intros (a & b & Hp & _).
    assert (H : contains (codes ".git/")
                         (ROOT_DIR ++ codes "/.github/ci.json") = true).
    { apply contains_true. exists a, b. rewrite Hp. reflexivity. }
    vm_compute in H. discriminate.
Qed.

Lemma substring_directories_untouched_witness :
  ~ In (ROOT_DIR ++ codes "/.github/ci.json")
       (reads (r_events (run demo_system ROOT_DIR demo_tree demo_store)))
  /\ ~ In (ROOT_DIR ++ codes "/.github/ci.json")
          (writes (r_events (run demo_system ROOT_DIR demo_tree demo_store)))
  /\ r_store (run demo_system ROOT_DIR demo_tree demo_store)
             (ROOT_DIR ++ codes "/.github/ci.json")
     = demo_store (ROOT_DIR ++ codes "/.github/ci.json").
Proof.
  destruct (proj1 (proj2 substring_directories_untouched)
              demo_system ROOT_DIR demo_tree demo_store
              (ROOT_DIR ++ codes "/.github/ci.json")) as (Hr & Hw & Hf).
  - vm_compute. reflexivity.
  - vm_compute. reflexivity.
  - split; [exact Hr|]. split; [exact Hw|]. apply Hf.
    intros q Hq. vm_compute in Hq.
    repeat (destruct Hq as [<-|Hq]; [vm_compute; discriminate|]).
    destruct Hq.
Defined.

(** ** Failures and the log *)

(** What a call of [update_file] prints and how it ends depends on the
    one file its path names. *)
Lemma update_file_local (E : system) (p : text) (st1 st2 : store) :
  st1 (resolve E p) = st2 (resolve E p) ->
  r_events (update_file E p st1) = r_events (update_file E p st2)
  /\ r_end (update_file E p st1) = r_end (update_file E p st2).
Proof.
  intros H. unfold update_file, handler. cbv zeta. rewrite H.
  repeat match goal with
         | |- context [match ?x with _ => _ end] => destruct x
         end; split; reflexivity.
Qed.








Lemma update_file_unreadable (E : system) (p : text) (st : store)
      (msg : text) :
  f_read (st (resolve E p)) = Raises msg ->
  update_file E p st = handler E p st [Read p (Raises msg)] msg.
Proof. intros H. unfold update_file. cbv zeta. rewrite H. reflexivity. Qed.





(** C9 as stated fails: when the root cannot be listed, the run ends
    normally and nothing is printed at all. *)
Lemma unlistable_root_prints_nothing :
  r_end (main demo_system Unlistable demo_store) = Done
  /\ ~ exists line,
         In (Print line) (r_events (main demo_system Unlistable demo_store)).
Proof. split; [reflexivity|]. intros [line H]. exact H. Qed.

(** C9, amended.  When the root directory cannot be listed (it does not
    exist, say), the walk yields nothing: the run ends normally, having
    opened and changed no file and printed nothing. *)
Theorem unlistable_root_is_silent (E : system) (st : store) :
  walk ROOT_DIR Unlistable = []
  /\ main E Unlistable st = (st, [], Done).
Proof. split; reflexivity. Qed.

Lemma updated_is_no_error (p q msg : text) :
  updated_line p <> error_line q msg.
Proof. unfold updated_line, error_line. simpl. discriminate. Qed.

(** C5 as stated fails: a file that is changed by the rules but cannot
    be written gets no [Updated] line although its buffer differs. *)
Lemma changed_but_not_updated :
  let p := ROOT_DIR ++ codes "/src/b.js" in
  exists c, f_read (demo_store (resolve demo_system p)) = Ok c
            /\ transform c <> c
            /\ ~ In (updated_line p)
                    (printed (r_events (update_file demo_system p demo_store))).
Proof.
  exists (codes "import u from '@platform/ui';").
  split; [vm_compute; reflexivity|]. split.
  - vm_compute. discriminate.
  - vm_compute. intros [H|[]]. discriminate.
Qed.

(** C5, amended.  The two lines are [Updated: <path>] and
    [Error reading <path>: <message>].  For a file that is read with
    content [c]: when no pattern of the table occurs in [c], the buffer
    equals [c]; when the buffer equals [c], the file is only read:
    nothing is written, the files are the same and nothing is printed; a
    write is attempted exactly when the buffer differs from [c], and
    what is written is the buffer; the line [Updated: <path>] is printed
    exactly when the buffer differs, the write succeeds and the line can
    be printed, and then the file holds the buffer.  A write that fails
    is reported by the line [Error reading <path>: <message>] with the
    message of the failure; so is an [Updated] line that cannot be
    printed, after the file has been written.  When that line cannot be
    printed either, the exception leaves [update_file]. *)
Theorem write_back_only_when_changed (E : system) (p : text) (st : store)
        (c : text) :
  f_read (st (resolve E p)) = Ok c ->
  updated_line p = codes "Updated: " ++ p
  /\ (forall msg,
         error_line p msg = codes "Error reading " ++ p ++ codes ": " ++ msg)
  /\ (Forall (fun r => ~ occurs (fst r) c) REPLACEMENTS -> transform c = c)
  /\ (transform c = c -> update_file E p st = (st, [Read p (Ok c)], Done))
  /\ (In p (writes (r_events (update_file E p st))) <-> transform c <> c)
  /\ (forall q data, In (Write q data) (r_events (update_file E p st)) ->
                     q = p /\ data = transform c)
  /\ (In (updated_line p) (printed (r_events (update_file E p st)))
      <-> transform c <> c
          /\ f_write (st (resolve E p)) = WriteOk
          /\ console E (updated_line p) = Ok tt)
  /\ (transform c <> c ->
      f_write (st (resolve E p)) = WriteOk ->
      console E (updated_line p) = Ok tt ->
      update_file E p st
      = (put st (resolve E p) (plain_file (transform c)),
         [Read p (Ok c); Write p (transform c); Print (updated_line p)],
         Done))
  /\ (forall msg after,
         transform c <> c ->
         f_write (st (resolve E p)) = WriteRaises msg after ->
         console E (error_line p msg) = Ok tt ->
         update_file E p st
         = (put st (resolve E p)
                {| f_read := after; f_write := WriteRaises msg after |},
            [Read p (Ok c); Write p (transform c);
             Print (error_line p msg)],
            Done))
  /\ (forall msg,
         transform c <> c ->
         f_write (st (resolve E p)) = WriteOk ->
         console E (updated_line p) = Raises msg ->
         console E (error_line p msg) = Ok tt ->
         update_file E p st
         = (put st (resolve E p) (plain_file (transform c)),
            [Read p (Ok c); Write p (transform c);
             Print (error_line p msg)],
            Done))
  /\ (forall msg after m,
         transform c <> c ->
         f_write (st (resolve E p)) = WriteRaises msg after ->
         console E (error_line p msg) = Raises m ->
         update_file E p st
         = (put st (resolve E p)
                {| f_read := after; f_write := WriteRaises msg after |},
            [Read p (Ok c); Write p (transform c)],
            Uncaught m))
  /\ (forall msg m,
         transform c <> c ->
         f_write (st (resolve E p)) = WriteOk ->
         console E (updated_line p) = Raises msg ->
         console E (error_line p msg) = Raises m ->
         update_file E p st
         = (put st (resolve E p) (plain_file (transform c)),
            [Read p (Ok c); Write p (transform c)],
            Uncaught m)).
Proof.
  intros Hr. split; [reflexivity|]. split; [reflexivity|].
  split; [apply apply_rules_absent, patterns_nonempty|].
  unfold update_file, handler. cbv zeta. rewrite Hr.
  destruct (text_eqb c (transform c)) eqn:Ec; cbn [negb].
  - assert (Es : transform c = c) by (symmetry; apply text_eqb_eq, Ec).
    split; [reflexivity|].
    split; [|split; [|split; [|split; [|split; [|split; [|split]]]]]].
    + split; [intros [] | intros H; destruct (H Es)].
    + intros q data [H|[]]. discriminate.
    + split; [intros [] | intros [H _]; destruct (H Es)].
    + intros H; destruct (H Es).
    + intros msg after H; destruct (H Es).
    + intros msg H; destruct (H Es).
    + intros msg after m H; destruct (H Es).
    + intros msg m H; destruct (H Es).
  - assert (Hne : transform c <> c)
      by (apply text_eqb_neq in Ec; congruence).
    split; [intros H; destruct (Hne H)|].
    destruct (f_write (st (resolve E p))) as [|wmsg wafter] eqn:Hw.
    + destruct (console E (updated_line p)) as [[]|umsg] eqn:Hu.
      * split; [|split; [|split; [|split; [|split; [|split; [|split]]]]]].
        -- split; [intros _; exact Hne | intros _; left; reflexivity].
        -- intros q data [H|[H|[H|[]]]]; try discriminate.
           injection H as <- <-. split; reflexivity.
        -- split; [intros _; repeat split; assumption
                  | intros _; left; reflexivity].
        -- intros _ _ _. reflexivity.
        -- intros msg after _ ?; discriminate.
        -- intros msg _ _ ?; discriminate.
        -- intros msg after m _ ?; discriminate.
        -- intros msg m _ _ ?; discriminate.
      * assert (Hev : forall q data,
                   In (Write q data)
                      (r_events
                         match console E (error_line p umsg) with
                         | Ok _ =>
                             (put st (resolve E p)
                                  {| f_read := Ok (transform c);
                                     f_write := WriteOk |},
                              [Read p (Ok c); Write p (transform c)]
                                ++ [Print (error_line p umsg)], Done)
                         | Raises msg' =>
                             (put st (resolve E p)
                                  {| f_read := Ok (transform c);
                                     f_write := WriteOk |},
                              [Read p (Ok c); Write p (transform c)],
                              Uncaught msg')
                         end) ->
                   q = p /\ data = transform c).
        { intros q data.
          destruct (console E (error_line p umsg)); cbn;
            intros H; repeat (destruct H as [H|H]; try discriminate);
            try (injection H as <- <-; split; reflexivity);
            destruct H. }
        split; [|split; [exact Hev|split; [|split; [|split; [|split; [|split]]]]]].
        -- split; [intros _; exact Hne|]. intros _.
           destruct (console E (error_line p umsg)); cbn; auto.
        -- split; [|intros (_ & _ & ?); discriminate].
           destruct (console E (error_line p umsg)); cbn.
           ++ intros [H|[]]. symmetry in H.
              destruct (updated_is_no_error _ _ _ H).
           ++ intros [].
        -- intros _ _ ?; discriminate.
        -- intros msg after _ ?; discriminate.
        -- intros msg _ _ [= ->] Hp. rewrite Hp. reflexivity.
        -- intros msg after m _ ?; discriminate.
        -- intros msg m _ _ [= ->] Hp. rewrite Hp. reflexivity.
    + assert (Hev : forall q data,
                 In (Write q data)
                    (r_events
                       match console E (error_line p wmsg) with
                       | Ok _ =>
                           (put st (resolve E p)
                                {| f_read := wafter;
                                   f_write := WriteRaises wmsg wafter |},
                            [Read p (Ok c); Write p (transform c)]
                              ++ [Print (error_line p wmsg)], Done)
                       | Raises msg' =>
                           (put st (resolve E p)
                                {| f_read := wafter;
                                   f_write := WriteRaises wmsg wafter |},
                            [Read p (Ok c); Write p (transform c)],
                            Uncaught msg')
                       end) ->
                 q = p /\ data = transform c).
      { intros q data.
        destruct (console E (error_line p wmsg)); cbn;
          intros H; repeat (destruct H as [H|H]; try discriminate);
          try (injection H as <- <-; split; reflexivity);
          destruct H. }
      split; [|split; [exact Hev|split; [|split; [|split; [|split; [|split]]]]]].
      * split; [intros _; exact Hne|]. intros _.
        destruct (console E (error_line p wmsg)); cbn; auto.
      * split; [|intros (_ & ? & _); discriminate].
        destruct (console E (error_line p wmsg)); cbn.
        -- intros [H|[]]. symmetry in H.
           destruct (updated_is_no_error _ _ _ H).
        -- intros [].
      * intros _ ?; discriminate.
      * intros msg after _ [= -> ->] Hp. rewrite Hp. reflexivity.
      * intros msg _ ?; discriminate.
      * intros msg after m _ [= -> ->] Hp. rewrite Hp. reflexivity.
      * intros msg m _ ?; discriminate.
Qed.

Lemma write_back_only_when_changed_witness :
  update_file demo_system (ROOT_DIR ++ codes "/src/c.json") demo_store
  = (demo_store, [Read (ROOT_DIR ++ codes "/src/c.json") (Ok (codes "{}"))],
     Done)
  /\ In (updated_line (ROOT_DIR ++ codes "/app.tsx"))
        (printed (r_events (update_file demo_system
                                        (ROOT_DIR ++ codes "/app.tsx")
                                        demo_store))).
Proof.
  split.
  - apply (write_back_only_when_changed demo_system _ demo_store (codes "{}")).
    + vm_compute. reflexivity.
    + vm_compute. reflexivity.
  - apply (write_back_only_when_changed
             demo_system _ demo_store
             (codes "import x from '@platform/core';")).
    + vm_compute. reflexivity.
    + split; [vm_compute; discriminate|].
      split; [vm_compute; reflexivity | reflexivity].
Defined.

(** ** Segments *)

Lemma char_eqb_sym (a b : char) : char_eqb a b = char_eqb b a.
Proof. apply N.eqb_sym. Qed.

Lemma flat_app (A B : list seg) : flat (A ++ B) = flat A ++ flat B.
Proof. apply flat_map_app. Qed.

Lemma flat_cons (q : char) (w : text) (rest : list seg) :
  flat ((q, w) :: rest) = q :: w ++ flat rest.
Proof. reflexivity. Qed.

Lemma parse_flat (s : text) :
  s = fst (parse s) ++ flat (snd (parse s))
  /\ quote_free (fst (parse s)) = true
  /\ well_cut (snd (parse s)) = true.
Proof.
  induction s as [|c s (IH1 & IH2 & IH3)]; [repeat split|].
  cbn [parse]. destruct (parse s) as [w segs]. cbn [fst snd] in *.
  destruct (is_quote c) eqn:Hq; cbn [fst snd].
  - repeat split.
    + rewrite flat_cons. simpl. f_equal. exact IH1.
    + cbn [well_cut forallb fst snd]. rewrite Hq, IH2. exact IH3.
  - repeat split.
    + simpl. f_equal. exact IH1.
    + cbn [quote_free forallb]. rewrite Hq. exact IH2.
    + exact IH3.
Qed.

Lemma quote_free_cons (c : char) (w : text) :
  quote_free (c :: w) = true <-> is_quote c = false /\ quote_free w = true.
Proof.
  cbn [quote_free forallb]. rewrite andb_true_iff, negb_true_iff.
  reflexivity.
Qed.

Lemma quote_free_app (a b : text) :
  quote_free (a ++ b) = quote_free a && quote_free b.
Proof. apply forallb_app. Qed.

Lemma quote_free_skipn (n : nat) (w : text) :
  quote_free w = true -> quote_free (skipn n w) = true.
Proof.
  intros H. rewrite <- (firstn_skipn n w), quote_free_app in H.
  apply andb_true_iff in H as [_ H]. exact H.
Qed.

Lemma quote_differs (q c : char) :
  is_quote q = true -> is_quote c = false -> char_eqb q c = false.
Proof.
  intros Hq Hc. apply char_eqb_neq. intros ->. congruence.
Qed.

Lemma well_cut_cons (q : char) (w : text) (rest : list seg) :
  well_cut ((q, w) :: rest) = true
  <-> is_quote q = true /\ quote_free w = true /\ well_cut rest = true.
Proof.
  cbn [well_cut forallb fst snd]. rewrite !andb_true_iff. tauto.
Qed.

Lemma well_cut_app (A B : list seg) :
  well_cut (A ++ B) = well_cut A && well_cut B.
Proof. apply forallb_app. Qed.

Lemma flat_quoted (segs : list seg) :
  well_cut segs = true -> quoted_start (flat segs).
Proof.
  destruct segs as [|[q w] rest]; [exact (fun _ => I)|].
  intros H. apply well_cut_cons in H as [H _]. exact H.
Qed.

Lemma startswith_quote_flat (q : char) (segs : list seg) :
  startswith [q] (flat segs)
  = match nextq segs with Some q2 => char_eqb q q2 | None => false end.
Proof.
  destruct segs as [|[q2 w] rest]; [reflexivity|].
  rewrite flat_cons. cbn [startswith nextq]. apply andb_true_r.
Qed.

(** Scanning over a quote-free word: no pattern starts there. *)
Lemma replace_from_word (q : char) (P new w t : text) :
  is_quote q = true -> quote_free w = true ->
  replace_from (q :: P) new 0 (w ++ t)
  = w ++ replace_from (q :: P) new 0 t.
Proof.
  intros Hq. induction w as [|c w IH]; intros Hw; [reflexivity|].
  apply quote_free_cons in Hw as [Hc Hw].
  change ((c :: w) ++ t) with (c :: (w ++ t)).
  rewrite replace_from_miss.
  - rewrite (IH Hw). reflexivity.
  - cbn [startswith]. rewrite (quote_differs _ _ Hq Hc). reflexivity.
Qed.

Lemma startswith_word (q : char) (body w t : text) :
  is_quote q = true -> quote_free body = true -> quote_free w = true ->
  quoted_start t ->
  startswith (body ++ [q]) (w ++ t) = text_eqb w body && startswith [q] t.
Proof.
  intros Hq Hb Hw Ht. revert w Hw.
  induction body as [|b body IH]; intros [|c w] Hw.
  - reflexivity.
  - apply quote_free_cons in Hw as [Hc _].
    cbn [app startswith text_eqb]. rewrite (quote_differs _ _ Hq Hc).
    reflexivity.
  - apply quote_free_cons in Hb as [Hb' _].
    cbn [app text_eqb andb]. destruct t as [|x t]; [reflexivity|].
    cbn [startswith]. simpl in Ht.
    rewrite char_eqb_sym, (quote_differs _ _ Ht Hb'). reflexivity.
  - apply quote_free_cons in Hb as [_ Hb].
    apply quote_free_cons in Hw as [_ Hw].
    cbn [app startswith text_eqb]. rewrite (IH Hb _ Hw).
    rewrite (char_eqb_sym b c), andb_assoc. reflexivity.
Qed.

Lemma startswith_pre (pre w t : text) :
  quote_free pre = true -> quoted_start t ->
  startswith pre (w ++ t) = startswith pre w.
Proof.
  intros Hp Ht. revert w.
  induction pre as [|b pre IH]; intros [|c w]; try reflexivity.
  - apply quote_free_cons in Hp as [Hb _].
    cbn [app]. destruct t as [|x t]; [reflexivity|].
    cbn [startswith]. simpl in Ht.
    rewrite char_eqb_sym, (quote_differs _ _ Ht Hb). reflexivity.
  - apply quote_free_cons in Hp as [_ Hp].
    cbn [app startswith]. rewrite (IH Hp). reflexivity.
Qed.

Lemma startswith_skipn (pre w : text) :
  startswith pre w = true -> w = pre ++ skipn (List.length pre) w.
Proof.
  intros H. apply startswith_true in H as [b ->].
  rewrite skipn_app, skipn_all, Nat.sub_diag. reflexivity.
Qed.

Lemma startswith_closed (q : char) (body : text) (q1 : char) (w1 : text)
      (rest : list seg) :
  is_quote q = true -> quote_free body = true ->
  well_cut ((q1, w1) :: rest) = true ->
  startswith (q :: body ++ [q]) (flat ((q1, w1) :: rest))
  = hitc q body q1 w1 (nextq rest).
Proof.
  intros Hq Hb Hwc. apply well_cut_cons in Hwc as (_ & Hw & Hrest).
  rewrite flat_cons. cbn [startswith].
  rewrite (startswith_word q body w1 (flat rest) Hq Hb Hw
             (flat_quoted _ Hrest)).
  rewrite startswith_quote_flat. unfold hitc. rewrite andb_assoc.
  reflexivity.
Qed.

Lemma hitc_true (q : char) (body : text) (q1 : char) (w1 : text)
      (nq : option char) :
  hitc q body q1 w1 nq = true <-> q1 = q /\ w1 = body /\ nq = Some q.
Proof.
  unfold hitc. rewrite !andb_true_iff, char_eqb_eq, text_eqb_eq.
  destruct nq as [q2|].
  - rewrite char_eqb_eq. split.
    + intros [[-> ->] ->]. auto.
    + intros (-> & -> & E). injection E as ->. auto.
  - split; [intros [_ ?]; discriminate | intros (_ & _ & ?); discriminate].
Qed.

(** [replace] with a closed rule, on the flattened segments. *)
Lemma replace_closed_flat (q : char) (body body' : text) (segs : list seg) :
  is_quote q = true -> quote_free body = true ->
  well_cut segs = true ->
  replace_from (q :: body ++ [q]) (q :: body' ++ [q]) 0 (flat segs)
  = flat (crep q body body' segs).
Proof.
  intros Hq Hb.
  remember (List.length segs) as n eqn:En. revert segs En.
  induction n as [n IH] using lt_wf_ind. intros segs En Hwc.
  destruct segs as [|[q1 w1] rest]; [reflexivity|].
  cbn [crep].
  pose proof (startswith_closed q body q1 w1 rest Hq Hb Hwc) as Hs.
  destruct (hitc q body q1 w1 (nextq rest)) eqn:Hh.
  - apply hitc_true in Hh as (-> & -> & Hn).
    destruct rest as [|[q2 w2] rest']; [discriminate|].
    injection Hn as ->.
    apply well_cut_cons in Hwc as (_ & _ & Hwc).
    apply well_cut_cons in Hwc as (_ & Hw2 & Hwc).
    rewrite !flat_cons.
    replace (q :: body ++ q :: w2 ++ flat rest')
      with ((q :: body ++ [q]) ++ (w2 ++ flat rest'))
      by (simpl; rewrite <- app_assoc; reflexivity).
    rewrite replace_from_hit by discriminate.
    rewrite (replace_from_word q _ _ w2 _ Hq Hw2).
    rewrite (IH (List.length rest')); [|subst n; simpl; lia|reflexivity|exact Hwc].
    simpl. rewrite <- app_assoc. reflexivity.
  - rewrite flat_cons in *. rewrite (replace_from_miss _ _ _ _ Hs).
    apply well_cut_cons in Hwc as (_ & Hw1 & Hwc).
    rewrite (replace_from_word q _ _ w1 _ Hq Hw1).
    rewrite (IH (List.length rest)); [|subst n; simpl; lia|reflexivity|exact Hwc].
    reflexivity.
Qed.

Lemma lmapn_last (f : char -> text -> option char -> text)
      (nq : option char) (q : char) (w : text) (rest : list seg) :
  lmapn f nq ((q, w) :: rest)
  = (q, f q w (match nextq rest with None => nq | Some q2 => Some q2 end))
    :: lmapn f nq rest.
Proof. destruct rest as [|[q2 w2] rest]; reflexivity. Qed.

Lemma lmap_cons (f : char -> text -> option char -> text)
      (q : char) (w : text) (rest : list seg) :
  lmap f ((q, w) :: rest) = (q, f q w (nextq rest)) :: lmap f rest.
Proof. destruct rest as [|[q2 w2] rest]; reflexivity. Qed.

(** [replace] with an opening rule, on the flattened segments. *)
Lemma replace_opening_flat (q : char) (pre pre' : text) (segs : list seg) :
  is_quote q = true -> quote_free pre = true ->
  well_cut segs = true ->
  replace_from (q :: pre) (q :: pre') 0 (flat segs)
  = flat (lmap (ofun q pre pre') segs).
Proof.
  intros Hq Hp. induction segs as [|[q1 w1] rest IH]; intros Hwc;
    [reflexivity|].
  apply well_cut_cons in Hwc as (_ & Hw1 & Hwc).
  rewrite lmap_cons, !flat_cons, <- (IH Hwc). unfold ofun.
  assert (Hs : startswith (q :: pre) (q1 :: w1 ++ flat rest)
               = char_eqb q q1 && startswith pre w1).
  { cbn [startswith].
    rewrite (startswith_pre pre w1 _ Hp (flat_quoted _ Hwc)). reflexivity. }
  destruct (char_eqb q q1 && startswith pre w1) eqn:Hh.
  - apply andb_true_iff in Hh as [Hq1 Hpre].
    apply char_eqb_eq in Hq1. subst q1.
    rewrite (startswith_skipn _ _ Hpre) at 1.
    replace (q :: (pre ++ skipn (List.length pre) w1) ++ flat rest)
      with ((q :: pre) ++ (skipn (List.length pre) w1 ++ flat rest))
      by (simpl; rewrite <- app_assoc; reflexivity).
    rewrite replace_from_hit by discriminate.
    rewrite (replace_from_word q _ _ _ _ Hq (quote_free_skipn _ _ Hw1)).
    simpl. rewrite <- app_assoc. reflexivity.
  - rewrite (replace_from_miss _ _ _ _ Hs).
    rewrite (replace_from_word q _ _ w1 _ Hq Hw1). reflexivity.
Qed.

(** ** The rules of the table on segments *)

Lemma shapes_table : map rule_of SHAPES = REPLACEMENTS.
Proof. reflexivity. Qed.

Lemma shapes_good : forallb good SHAPES = true.
Proof. vm_compute. reflexivity. Qed.

Lemma good_closed (q : char) (body body' : text) :
  good (Closed q body body') = true ->
  is_quote q = true /\ quote_free body = true /\ quote_free body' = true
  /\ live body = true /\ live body' = false.
Proof.
  cbn [good]. rewrite !andb_true_iff, negb_true_iff. tauto.
Qed.

Lemma good_opening (q : char) (pre pre' : text) :
  good (Opening q pre pre') = true ->
  is_quote q = true /\ quote_free pre = true /\ quote_free pre' = true
  /\ live pre = true /\ (forall x, live (pre' ++ x) = false).
Proof.
  cbn [good]. rewrite !andb_true_iff, negb_true_iff, Nat.leb_le.
  intros (((((H1 & H2) & H3) & H4) & H5) & H6). repeat split; try assumption.
  intros x. destruct pre' as [|a [|c pre']]; simpl in H6; try lia.
  exact H5.
Qed.

Lemma live_startswith (pre w : text) :
  live pre = true -> startswith pre w = true -> live w = true.
Proof.
  intros Hl Hs. apply startswith_true in Hs as [b ->].
  destruct pre as [|a [|c pre]]; try discriminate. exact Hl.
Qed.

(** A word that is not live is left alone by every rule; a word that a
    rule changes is not live afterwards. *)
Lemma sfun_inert (sh : shape) (q1 : char) (w : text) (nq : option char) :
  good sh = true -> live w = false -> sfun sh q1 w nq = w.
Proof.
  intros Hg Hw. destruct sh as [q body body' | q pre pre']; cbn [sfun].
  - apply good_closed in Hg as (_ & _ & _ & Hl & _).
    unfold cfun. destruct (hitc q body q1 w nq) eqn:E; [|reflexivity].
    apply hitc_true in E as (_ & -> & _). congruence.
  - apply good_opening in Hg as (_ & _ & _ & Hl & _).
    unfold ofun. destruct (char_eqb q q1); [|reflexivity]. cbn [andb].
    destruct (startswith pre w) eqn:E; [|reflexivity].
    rewrite (live_startswith _ _ Hl E) in Hw. discriminate.
Qed.

Lemma sfun_result (sh : shape) (q1 : char) (w : text) (nq : option char) :
  good sh = true ->
  sfun sh q1 w nq = w \/ live (sfun sh q1 w nq) = false.
Proof.
  intros Hg. destruct sh as [q body body' | q pre pre']; cbn [sfun].
  - apply good_closed in Hg as (_ & _ & _ & _ & Hl).
    unfold cfun. destruct (hitc q body q1 w nq); auto.
  - apply good_opening in Hg as (_ & _ & _ & _ & Hl).
    unfold ofun. destruct (char_eqb q q1 && startswith pre w); auto.
Qed.

Lemma sfun_quote_free (sh : shape) (q1 : char) (w : text)
      (nq : option char) :
  good sh = true -> quote_free w = true ->
  quote_free (sfun sh q1 w nq) = true.
Proof.
  intros Hg Hw. destruct sh as [q body body' | q pre pre']; cbn [sfun].
  - apply good_closed in Hg as (_ & _ & Hb & _).
    unfold cfun. destruct (hitc q body q1 w nq); assumption.
  - apply good_opening in Hg as (_ & _ & Hp & _).
    unfold ofun. destruct (char_eqb q q1 && startswith pre w); [|assumption].
    rewrite quote_free_app, Hp. apply quote_free_skipn, Hw.
Qed.

Lemma sfuns_inert (shs : list shape) (q1 : char) (w : text)
      (nq : option char) :
  forallb good shs = true -> live w = false -> sfuns shs q1 w nq = w.
Proof.
  revert w; induction shs as [|sh shs IH]; intros w Hg Hw; [reflexivity|].
  cbn [forallb] in Hg. apply andb_true_iff in Hg as [Hg Hgs].
  cbn [sfuns]. rewrite (sfun_inert _ _ _ _ Hg Hw). apply IH; assumption.
Qed.

Lemma sfuns_result (shs : list shape) (q1 : char) (w : text)
      (nq : option char) :
  forallb good shs = true ->
  sfuns shs q1 w nq = w \/ live (sfuns shs q1 w nq) = false.
Proof.
  revert w; induction shs as [|sh shs IH]; intros w Hg; [left; reflexivity|].
  cbn [forallb] in Hg. apply andb_true_iff in Hg as [Hg Hgs].
  cbn [sfuns]. destruct (sfun_result sh q1 w nq Hg) as [E|E].
  - rewrite E. apply IH, Hgs.
  - right. rewrite (sfuns_inert _ _ _ _ Hgs E). exact E.
Qed.

Lemma sfuns_quote_free (shs : list shape) (q1 : char) (w : text)
      (nq : option char) :
  forallb good shs = true -> quote_free w = true ->
  quote_free (sfuns shs q1 w nq) = true.
Proof.
  revert w; induction shs as [|sh shs IH]; intros w Hg Hw; [exact Hw|].
  cbn [forallb] in Hg. apply andb_true_iff in Hg as [Hg Hgs].
  cbn [sfuns]. apply IH; [exact Hgs|]. apply sfun_quote_free; assumption.
Qed.

(** Applying the rules to a word twice is applying them once. *)
Lemma sfuns_idempotent (shs : list shape) (q1 : char) (w : text)
      (nq : option char) :
  forallb good shs = true ->
  sfuns shs q1 (sfuns shs q1 w nq) nq = sfuns shs q1 w nq.
Proof.
  intros Hg. destruct (sfuns_result shs q1 w nq Hg) as [E|E].
  - rewrite !E. reflexivity.
  - apply sfuns_inert; assumption.
Qed.

Lemma well_cut_lmapn (f : char -> text -> option char -> text)
      (nq : option char) (segs : list seg) :
  (forall q w n, quote_free w = true -> quote_free (f q w n) = true) ->
  well_cut segs = true -> well_cut (lmapn f nq segs) = true.
Proof.
  intros Hf. induction segs as [|[q w] rest IH]; intros Hwc; [reflexivity|].
  rewrite lmapn_last. apply well_cut_cons in Hwc as (Hq & Hw & Hwc).
  apply well_cut_cons. repeat split; auto.
Qed.

Lemma well_cut_crep (q : char) (body body' : text) (segs : list seg) :
  quote_free body' = true ->
  well_cut segs = true -> well_cut (crep q body body' segs) = true.
Proof.
  intros Hb.
  remember (List.length segs) as n eqn:En. revert segs En.
  induction n as [n IH] using lt_wf_ind. intros segs En Hwc.
  destruct segs as [|[q1 w1] rest]; [reflexivity|].
  cbn [crep]. apply well_cut_cons in Hwc as (Hq1 & Hw1 & Hwc).
  destruct (hitc q body q1 w1 (nextq rest)).
  - apply well_cut_cons. repeat split; try assumption.
    destruct rest as [|[q2 w2] rest']; [reflexivity|].
    apply well_cut_cons in Hwc as (Hq2 & Hw2 & Hwc).
    apply well_cut_cons. repeat split; try assumption.
    apply (IH (List.length rest')); [subst n; simpl; lia|reflexivity|exact Hwc].
  - apply well_cut_cons. repeat split; try assumption.
    apply (IH (List.length rest)); [subst n; simpl; lia|reflexivity|exact Hwc].
Qed.

Lemma well_cut_srep (sh : shape) (segs : list seg) :
  good sh = true -> well_cut segs = true -> well_cut (srep sh segs) = true.
Proof.
  intros Hg Hwc. destruct sh as [q body body' | q pre pre']; cbn [srep].
  - apply good_closed in Hg as (_ & _ & Hb & _).
    apply well_cut_crep; assumption.
  - apply well_cut_lmapn; [|exact Hwc].
    intros q1 w n. apply (sfun_quote_free (Opening q pre pre') q1 w n Hg).
Qed.

Lemma well_cut_sreps (shs : list shape) (segs : list seg) :
  forallb good shs = true -> well_cut segs = true ->
  well_cut (sreps shs segs) = true.
Proof.
  revert segs; induction shs as [|sh shs IH]; intros segs Hg Hwc;
    [exact Hwc|].
  cbn [forallb] in Hg. apply andb_true_iff in Hg as [Hg Hgs].
  cbn [sreps]. apply IH; [exact Hgs|]. apply well_cut_srep; assumption.
Qed.

Lemma replace_srep (sh : shape) (w0 : text) (segs : list seg) :
  good sh = true -> quote_free w0 = true -> well_cut segs = true ->
  replace (fst (rule_of sh)) (snd (rule_of sh)) (w0 ++ flat segs)
  = w0 ++ flat (srep sh segs).
Proof.
  intros Hg Hw0 Hwc. destruct sh as [q body body' | q pre pre'];
    cbn [rule_of fst snd replace srep].
  - apply good_closed in Hg as (Hq & Hb & _).
    rewrite (replace_from_word q _ _ w0 _ Hq Hw0).
    rewrite replace_closed_flat by assumption. reflexivity.
  - apply good_opening in Hg as (Hq & Hp & _).
    rewrite (replace_from_word q _ _ w0 _ Hq Hw0).
    rewrite replace_opening_flat by assumption. reflexivity.
Qed.

Lemma apply_rules_sreps (shs : list shape) (w0 : text) (segs : list seg) :
  forallb good shs = true -> quote_free w0 = true -> well_cut segs = true ->
  apply_rules (map rule_of shs) (w0 ++ flat segs)
  = w0 ++ flat (sreps shs segs).
Proof.
  revert segs; induction shs as [|sh shs IH]; intros segs Hg Hw0 Hwc;
    [reflexivity|].
  cbn [forallb] in Hg. apply andb_true_iff in Hg as [Hg Hgs].
  cbn [map apply_rules sreps].
  destruct (rule_of sh) as [old new] eqn:Er.
  change old with (fst (old, new)). change new with (snd (old, new)) at 2.
  rewrite <- Er, (replace_srep sh w0 segs Hg Hw0 Hwc).
  apply IH; [exact Hgs | exact Hw0 | apply well_cut_srep; assumption].
Qed.

(** The buffer of [update_file], computed on the segments of the
    content. *)
Lemma transform_sreps (w0 : text) (segs : list seg) :
  quote_free w0 = true -> well_cut segs = true ->
  transform (w0 ++ flat segs) = w0 ++ flat (sreps SHAPES segs).
Proof.
  intros Hw0 Hwc. unfold transform. rewrite <- shapes_table.
  apply apply_rules_sreps; [exact shapes_good | exact Hw0 | exact Hwc].
Qed.

(** ** Rules as functions of one segment *)

Lemma nextq_lmapn (f : char -> text -> option char -> text)
      (nq : option char) (segs : list seg) :
  nextq (lmapn f nq segs) = nextq segs.
Proof. destruct segs as [|[q w] rest]; reflexivity. Qed.

Lemma lmapn_lmapn (f g : char -> text -> option char -> text)
      (nq : option char) (segs : list seg) :
  lmapn f nq (lmapn g nq segs)
  = lmapn (fun q w n => f q (g q w n) n) nq segs.
Proof.
  induction segs as [|[q w] rest IH]; [reflexivity|].
  rewrite !lmapn_last, nextq_lmapn, IH. reflexivity.
Qed.

Lemma lmapn_ext (f g : char -> text -> option char -> text)
      (nq : option char) (segs : list seg) :
  (forall q w n, f q w n = g q w n) -> lmapn f nq segs = lmapn g nq segs.
Proof.
  intros H. induction segs as [|[q w] rest IH]; [reflexivity|].
  rewrite !lmapn_last, IH, H. reflexivity.
Qed.

Lemma lmapn_id (f : char -> text -> option char -> text)
      (nq : option char) (segs : list seg) :
  (forall q w n, f q w n = w) -> lmapn f nq segs = segs.
Proof.
  intros H. induction segs as [|[q w] rest IH]; [reflexivity|].
  rewrite lmapn_last, IH, H. reflexivity.
Qed.

Lemma lmapn_app (f : char -> text -> option char -> text)
      (nq : option char) (A B : list seg) :
  lmapn f nq (A ++ B)
  = lmapn f (match nextq B with None => nq | Some q => Some q end) A
    ++ lmapn f nq B.
Proof.
  induction A as [|[q w] A IH]; [reflexivity|].
  change (((q, w) :: A) ++ B) with ((q, w) :: (A ++ B)).
  rewrite !lmapn_last, IH. cbn [app]. do 3 f_equal.
  destruct A as [|[q2 w2] A]; [|reflexivity].
  cbn [app nextq]. destruct (nextq B); reflexivity.
Qed.

Lemma lmap_app (f : char -> text -> option char -> text) (A B : list seg) :
  lmap f (A ++ B) = lmapn f (nextq B) A ++ lmap f B.
Proof.
  unfold lmap. rewrite lmapn_app. destruct (nextq B); reflexivity.
Qed.

Lemma no_adj_cons (q : char) (body : text) (sg : seg) (rest : list seg) :
  no_adj q body (sg :: rest) = true
  <-> (hit_head q body (sg :: rest) = true ->
       hit_head q body rest = false)
      /\ no_adj q body rest = true.
Proof.
  cbn [no_adj]. rewrite andb_true_iff, negb_true_iff, andb_false_iff.
  destruct (hit_head q body (sg :: rest)), (hit_head q body rest);
    intuition congruence.
Qed.

(** Where no two matches of a closed rule are next to each other, the
    scan replaces every match: the rule is a function of one segment. *)
Lemma crep_lmap (q : char) (body body' : text) (segs : list seg) :
  no_adj q body segs = true ->
  crep q body body' segs = lmap (cfun q body body') segs.
Proof.
  remember (List.length segs) as n eqn:En. revert segs En.
  induction n as [n IH] using lt_wf_ind. intros segs En Hna.
  destruct segs as [|[q1 w1] rest]; [reflexivity|].
  apply no_adj_cons in Hna as [Hadj Hna].
  rewrite lmap_cons. cbn [crep hit_head] in *. unfold cfun at 1.
  destruct (hitc q body q1 w1 (nextq rest)) eqn:Hh.
  - f_equal. destruct rest as [|[q2 w2] rest']; [reflexivity|].
    specialize (Hadj eq_refl). cbn [hit_head] in Hadj.
    apply no_adj_cons in Hna as [_ Hna].
    rewrite lmap_cons. unfold cfun at 1. rewrite Hadj. f_equal.
    apply (IH (List.length rest')); [subst n; simpl; lia|reflexivity|exact Hna].
  - f_equal.
    apply (IH (List.length rest)); [subst n; simpl; lia|reflexivity|exact Hna].
Qed.

(** No rule turns a word into the body of a pattern. *)
Lemma hitc_not_made (f : char -> text -> option char -> text)
      (q : char) (body : text) (q1 : char) (w : text) (n : option char) :
  live body = true ->
  (f q1 w n = w \/ live (f q1 w n) = false) ->
  hitc q body q1 (f q1 w n) n = true -> hitc q body q1 w n = true.
Proof.
  intros Hl [E|E] Hh; [rewrite E in Hh; exact Hh|].
  apply hitc_true in Hh as (_ & Hb & _). congruence.
Qed.

Lemma hit_head_lmap (f : char -> text -> option char -> text)
      (q : char) (body : text) (segs : list seg) :
  live body = true ->
  (forall q1 w n, f q1 w n = w \/ live (f q1 w n) = false) ->
  hit_head q body (lmap f segs) = true -> hit_head q body segs = true.
Proof.
  intros Hl Hf. destruct segs as [|[q1 w1] rest]; [discriminate|].
  rewrite lmap_cons. cbn [hit_head]. unfold lmap. rewrite nextq_lmapn.
  apply hitc_not_made; [exact Hl | apply Hf].
Qed.

Lemma no_adj_lmap (f : char -> text -> option char -> text)
      (q : char) (body : text) (segs : list seg) :
  live body = true ->
  (forall q1 w n, f q1 w n = w \/ live (f q1 w n) = false) ->
  no_adj q body segs = true -> no_adj q body (lmap f segs) = true.
Proof.
  intros Hl Hf. induction segs as [|[q1 w1] rest IH]; intros Hna;
    [reflexivity|].
  apply no_adj_cons in Hna as [Hadj Hna].
  rewrite lmap_cons. apply no_adj_cons. split; [|apply IH, Hna].
  intros Hh.
  destruct (hit_head q body (lmap f rest)) eqn:E; [|reflexivity].
  apply (hit_head_lmap f q body rest Hl Hf) in E.
  rewrite <- lmap_cons in Hh.
  apply (hit_head_lmap f q body _ Hl Hf) in Hh.
  rewrite (Hadj Hh) in E. discriminate.
Qed.

Lemma calm_lmap (f : char -> text -> option char -> text)
      (shs : list shape) (segs : list seg) :
  forallb good shs = true ->
  (forall q1 w n, f q1 w n = w \/ live (f q1 w n) = false) ->
  calm shs segs = true -> calm shs (lmap f segs) = true.
Proof.
  intros Hg Hf Hc. unfold calm in *. rewrite forallb_forall in *.
  intros sh Hin. specialize (Hg _ Hin). specialize (Hc _ Hin).
  destruct sh as [q body body'|]; [|reflexivity].
  apply good_closed in Hg as (_ & _ & _ & Hl & _).
  apply no_adj_lmap; assumption.
Qed.

Lemma srep_lmap (sh : shape) (shs : list shape) (segs : list seg) :
  calm (sh :: shs) segs = true -> srep sh segs = lmap (sfun sh) segs.
Proof.
  intros Hc. destruct sh as [q body body'|]; [|reflexivity].
  cbn [calm forallb] in Hc. apply andb_true_iff in Hc as [Hc _].
  apply crep_lmap, Hc.
Qed.

(** On a calm text the whole table is a function of one segment. *)
Lemma sreps_lmap (shs : list shape) (segs : list seg) :
  forallb good shs = true -> calm shs segs = true ->
  sreps shs segs = lmap (sfuns shs) segs.
Proof.
  revert segs; induction shs as [|sh shs IH]; intros segs Hg Hc.
  - cbn [sreps]. unfold lmap. rewrite lmapn_id; reflexivity.
  - cbn [sreps]. rewrite (srep_lmap _ _ _ Hc).
    cbn [forallb] in Hg. apply andb_true_iff in Hg as [Hg Hgs].
    rewrite IH.
    + unfold lmap. rewrite lmapn_lmapn. reflexivity.
    + exact Hgs.
    + apply calm_lmap; [exact Hgs | intros; apply sfun_result, Hg|].
      cbn [calm forallb] in Hc. apply andb_true_iff in Hc as [_ Hc].
      exact Hc.
Qed.

Lemma transform_calm (w0 : text) (segs : list seg) :
  quote_free w0 = true -> well_cut segs = true ->
  calm SHAPES segs = true ->
  transform (w0 ++ flat segs) = w0 ++ flat (lmap (sfuns SHAPES) segs).
Proof.
  intros Hw0 Hwc Hc. rewrite transform_sreps by assumption.
  rewrite (sreps_lmap _ _ shapes_good Hc). reflexivity.
Qed.

Lemma transform_calm_idempotent (w0 : text) (segs : list seg) :
  quote_free w0 = true -> well_cut segs = true ->
  calm SHAPES segs = true ->
  transform (transform (w0 ++ flat segs)) = transform (w0 ++ flat segs).
Proof.
  intros Hw0 Hwc Hc. rewrite (transform_calm _ _ Hw0 Hwc Hc).
  rewrite transform_calm.
  - unfold lmap. rewrite lmapn_lmapn. f_equal. f_equal.
    apply lmapn_ext. intros q w n.
    apply sfuns_idempotent, shapes_good.
  - exact Hw0.
  - apply well_cut_lmapn; [|exact Hwc].
    intros q w n. apply sfuns_quote_free, shapes_good.
  - apply calm_lmap; [exact shapes_good | | exact Hc].
    intros q1 w n. apply sfuns_result, shapes_good.
Qed.

(** ** Overlapping occurrences *)

Lemma adj_occurs (q : char) (body : text) (segs : list seg) :
  hit_head q body segs = true -> hit_head q body (tl segs) = true ->
  exists b, flat segs = (q :: body ++ q :: body ++ [q]) ++ b.
Proof.
  destruct segs as [|[q1 w1] [|[q2 w2] [|[q3 w3] rest]]]; cbn [hit_head tl];
    intros H1 H2; try discriminate;
    apply hitc_true in H1 as (-> & -> & H1);
    apply hitc_true in H2 as (-> & -> & H2); try discriminate.
  injection H2 as ->. exists (w3 ++ flat rest).
  rewrite !flat_cons. simpl. rewrite <- !app_assoc. simpl.
  rewrite <- !app_assoc. reflexivity.
Qed.

Lemma no_adj_absent (q : char) (body pfx : text) (segs : list seg) :
  ~ occurs (q :: body ++ q :: body ++ [q]) (pfx ++ flat segs) ->
  no_adj q body segs = true.
Proof.
  revert pfx; induction segs as [|[q1 w1] rest IH]; intros pfx Hno;
    [reflexivity|].
  apply no_adj_cons. split.
  - intros H1. destruct (hit_head q body rest) eqn:H2; [|reflexivity].
    exfalso. apply Hno.
    destruct (adj_occurs q body ((q1, w1) :: rest) H1 H2) as [b E].
    exists pfx, b. f_equal. exact E.
  - apply (IH (pfx ++ q1 :: w1)). intros Ho. apply Hno.
    rewrite flat_cons.
    replace (pfx ++ q1 :: w1 ++ flat rest)
      with ((pfx ++ q1 :: w1) ++ flat rest)
      by (rewrite <- app_assoc; reflexivity).
    exact Ho.
Qed.

Lemma self_overlapping_closed (q : char) (body : text) :
  self_overlapping (q :: body ++ [q]) = true.
Proof.
  assert (L : last (q :: body ++ [q]) q = q).
  { change (q :: body ++ [q]) with ((q :: body) ++ [q]). apply last_last. }
  unfold self_overlapping. rewrite L.
  destruct body; apply char_eqb_refl.
Qed.

Lemma doubled_closed (q : char) (body : text) :
  doubled (q :: body ++ [q]) = q :: body ++ q :: body ++ [q].
Proof.
  unfold doubled. simpl. rewrite <- app_assoc. reflexivity.
Qed.

Lemma overlap_free_calm (s pfx : text) (segs : list seg) :
  overlap_free s = true -> s = pfx ++ flat segs ->
  calm SHAPES segs = true.
Proof.
  unfold overlap_free, calm. rewrite <- shapes_table, !forallb_forall.
  intros H -> sh Hin.
  destruct sh as [q body body'|]; [|reflexivity].
  specialize (H _ (in_map rule_of _ _ Hin)). cbn [rule_of fst] in H.
  rewrite self_overlapping_closed, doubled_closed in H. cbn [andb] in H.
  apply negb_true_iff, contains_false in H.
  apply (no_adj_absent q body pfx), H.
Qed.

(** C1 as stated fails: where a pattern overlaps its own next occurrence
    on the shared quote character, the first run rewrites the first of
    the two and the second run the other. *)
Lemma second_run_changes_overlap :
  transform (codes "'@platform/core'@platform/core'")
  = codes "'@/lib/core'@platform/core'"
  /\ transform (transform (codes "'@platform/core'@platform/core'"))
     = codes "'@/lib/core'@/lib/core'"
  /\ transform (transform (codes "'@platform/core'@platform/core'"))
     <> transform (codes "'@platform/core'@platform/core'").
Proof.
  split; [vm_compute; reflexivity|].
  split; [vm_compute; reflexivity|].
  vm_compute. discriminate.
Qed.

Lemma overlap_free_idempotent (s : text) :
  overlap_free s = true -> transform (transform s) = transform s.
Proof.
  intros Hs.
  destruct (parse_flat s) as (Es & Hw0 & Hwc).
  pose proof (overlap_free_calm s _ _ Hs Es) as Hc.
  rewrite Es. apply transform_calm_idempotent; assumption.
Qed.

(** *** A second run *)

Lemma update_file_settled (E : system) (p : text) (st : store) :
  settled st (resolve E p) ->
  r_store (update_file E p st) = st
  /\ writes (r_events (update_file E p st)) = [].
Proof.
  intros Hs.
  destruct (update_file_cases E p st) as [msg Hr ->|c Hr Hc ->|c Hr Hc
                                          |c msg Hr Hc|c msg after Hr Hc];
    try (destruct Hc; apply Hs, Hr).
  - rewrite handler_store, handler_writes. split; reflexivity.
  - split; reflexivity.
Qed.

Lemma update_file_settles (E : system) (p : text) (st : store) :
  ready E [p] st -> settled (r_store (update_file E p st)) (resolve E p).
Proof.
  intros Hrd. destruct (Hrd p (or_introl eq_refl)) as [Hw Hi].
  destruct (update_file_cases E p st) as [msg Hr ->|c Hr Hc ->
                                          |c Hr Hc _ _ ->|c msg Hr Hc _ _ ->
                                          |c msg after Hr Hc Hw'];
    rewrite ?handler_store; cbn [r_store fst]; intros c' Hc'.
  - congruence.
  - congruence.
  - rewrite put_same in Hc'. cbn [plain_file f_read] in Hc'.
    injection Hc' as <-. apply Hi, Hr.
  - rewrite put_same in Hc'. cbn [plain_file f_read] in Hc'.
    injection Hc' as <-. apply Hi, Hr.
  - congruence.
Qed.

Lemma update_file_keeps_settled (E : system) (q n : text) (st : store) :
  settled st n -> settled (r_store (update_file E q st)) n.
Proof.
  intros Hs. destruct (text_eqb n (resolve E q)) eqn:En.
  - apply text_eqb_eq in En. subst n.
    rewrite (proj1 (update_file_settled E q st Hs)). exact Hs.
  - apply text_eqb_neq in En. intros c.
    rewrite (update_file_frame E q n st En). apply Hs.
Qed.

Lemma update_file_keeps_ready (E : system) (l : list text) (q : text)
      (st : store) :
  ready E l st -> ready E l (r_store (update_file E q st)).
Proof.
  intros Hrd p Hp. destruct (Hrd p Hp) as [Hw Hi].
  destruct (text_eqb (resolve E p) (resolve E q)) eqn:En.
  - apply text_eqb_eq in En. rewrite En in *.
    destruct (update_file_cases E q st) as [msg Hr ->|c Hr Hc ->
                                            |c Hr Hc _ _ ->|c msg Hr Hc _ _ ->
                                            |c msg after Hr Hc Hw'];
      rewrite ?handler_store; cbn [r_store fst]; try (split; assumption);
      try congruence;
      rewrite put_same; cbn [plain_file f_read f_write];
      (split; [reflexivity|]); intros c' Hc'; injection Hc' as <-;
      rewrite (Hi c Hr); apply Hi, Hr.
  - apply text_eqb_neq in En. rewrite (update_file_frame E q _ st En).
    split; assumption.
Qed.

Lemma for_each_keeps_settled (E : system) (l : list text) (n : text)
      (st : store) :
  settled st n -> settled (r_store (for_each l (update_file E) st)) n.
Proof.
  revert st; induction l as [|q l IH]; intros st Hs; [exact Hs|].
  destruct (r_end (update_file E q st)) as [|msg] eqn:Hend.
  - rewrite (for_each_done _ _ _ _ Hend). cbn [r_store fst].
    apply IH, update_file_keeps_settled, Hs.
  - rewrite (for_each_stop _ _ _ _ _ Hend).
    apply update_file_keeps_settled, Hs.
Qed.

(** After a run that was not cut short, the file of every target is
    settled. *)
Lemma for_each_settles (E : system) (L l : list text) (st : store) :
  ready E L st -> incl l L ->
  r_end (for_each l (update_file E) st) = Done ->
  forall p, In p l ->
            settled (r_store (for_each l (update_file E) st)) (resolve E p).
Proof.
  revert st; induction l as [|q l IH]; intros st Hrd Hincl Hd p Hp;
    [destruct Hp|].
  assert (Hq : In q L) by (apply Hincl; left; reflexivity).
  assert (Hl : incl l L) by (intros x Hx; apply Hincl; right; exact Hx).
  destruct (r_end (update_file E q st)) as [|msg] eqn:Hend.
  - rewrite (for_each_done _ _ _ _ Hend) in Hd |- *.
    cbn [r_end snd] in Hd. cbn [r_store fst].
    destruct Hp as [<-|Hp].
    + apply for_each_keeps_settled, update_file_settles.
      intros x [<-|[]]. apply Hrd, Hq.
    + apply IH; [apply update_file_keeps_ready; assumption
                | exact Hl | exact Hd | exact Hp].
  - rewrite (for_each_stop _ _ _ _ _ Hend) in Hd. congruence.
Qed.

Lemma for_each_settled_noop (E : system) (l : list text) (st : store) :
  (forall p, In p l -> settled st (resolve E p)) ->
  r_store (for_each l (update_file E) st) = st
  /\ writes (r_events (for_each l (update_file E) st)) = [].
Proof.
  induction l as [|q l IH]; intros Hs; [split; reflexivity|].
  destruct (update_file_settled E q st (Hs q (or_introl eq_refl)))
    as [E1 E2].
  destruct (r_end (update_file E q st)) as [|msg] eqn:Hend.
  - rewrite (for_each_done _ _ _ _ Hend). cbn [r_store r_events fst snd].
    rewrite writes_app, E1, E2.
    apply IH. intros p Hp. apply Hs. right. exact Hp.
  - rewrite (for_each_stop _ _ _ _ _ Hend). split; assumption.
Qed.

(** When the first run is cut short, a second run can still write: the
    first target is rewritten, but neither its [Updated] line nor the
    line of the handler can be printed, and the script ends there; the
    second run passes that target and rewrites the next. *)
Lemma second_run_after_cut_short :
  (exists msg, r_end (main utf8_system odd_tree core_store) = Uncaught msg)
  /\ writes (r_events (main utf8_system odd_tree core_store))
     = [ROOT_DIR ++ codes "/" ++ odd_name]
  /\ writes (r_events
               (main utf8_system odd_tree
                     (r_store (main utf8_system odd_tree core_store))))
     = [ROOT_DIR ++ codes "/later.ts"].
Proof.
  split; [eexists; vm_compute; reflexivity|].
  split; vm_compute; reflexivity.
Qed.

(** C1, amended.  No substitute of the table contains a pattern of the
    table.  For every text in which no pattern overlaps its own next
    occurrence (no [doubled] pattern occurs), applying the table a second
    time to the result of the first application changes nothing.  So,
    when the files that a run works on can be written and those that can
    be read hold such texts, a second run after a first one that went
    through all its targets opens no file for writing and leaves the
    files as the first run left them. *)
Theorem transform_idempotent_overlap_free :
  forallb (fun r =>
             forallb (fun r' => negb (contains (fst r') (snd r)))
                     REPLACEMENTS)
          REPLACEMENTS = true
  /\ (forall s : text,
        overlap_free s = true ->
        transform (transform s) = transform s)
  /\ (forall (E : system) (top : text) (t : tree) (st : store),
        (forall p, In p (targets top t) ->
                   f_write (st (resolve E p)) = WriteOk
                   /\ forall c, f_read (st (resolve E p)) = Ok c ->
                                overlap_free c = true) ->
        r_end (run E top t st) = Done ->
        r_store (run E top t (r_store (run E top t st)))
        = r_store (run E top t st)
        /\ writes (r_events (run E top t (r_store (run E top t st)))) = []).
Proof.
  split; [vm_compute; reflexivity|].
  split; [exact overlap_free_idempotent|].
  intros E top t st H. rewrite !run_targets. intros Hd.
  apply for_each_settled_noop.
  apply (for_each_settles E (targets top t)); [|apply incl_refl|exact Hd].
  intros p Hp. destruct (H p Hp) as [Hw Ho]. split; [exact Hw|].
  intros c Hc. apply overlap_free_idempotent, (Ho c Hc).
Qed.

Lemma transform_idempotent_overlap_free_witness :
  transform (transform
               (codes "import x from '@platform/ui'; import { A } from '@modules/a';"))
  = transform (codes "import x from '@platform/ui'; import { A } from '@modules/a';")
  /\ writes (r_events
               (run demo_system ROOT_DIR demo_tree
                  (r_store
                     (run demo_system ROOT_DIR demo_tree
                        (put demo_store
                             (ROOT_DIR ++ codes "/src/b.js")
                             (plain_file (codes "import u from '@platform/ui';")))))))
     = [].
Proof.
  destruct transform_idempotent_overlap_free as (_ & H1 & H2).
  split.
  - apply H1. vm_compute. reflexivity.
  - apply H2; [|vm_compute; reflexivity]. intros p Hp. vm_compute in Hp.
    destruct Hp as [<-|[<-|[<-|[<-|[]]]]];
      (split; [vm_compute; reflexivity|]);
      intros c Hc; vm_compute in Hc; try discriminate;
      injection Hc as <-; vm_compute; reflexivity.
Defined.

(** ** One occurrence and the text around it *)

Lemma sfuns_closed_hit (q : char) (body body' : text) :
  In (Closed q body body') SHAPES ->
  sfuns SHAPES q body (Some q) = body'.
Proof.
  assert (H : forallb (fun sh => match sh with
                                 | Closed q body body' =>
                                     text_eqb (sfuns SHAPES q body (Some q))
                                              body'
                                 | Opening _ _ _ => true
                                 end) SHAPES = true)
    by (vm_compute; reflexivity).
  rewrite forallb_forall in H. intros Hin. specialize (H _ Hin).
  apply text_eqb_eq in H. exact H.
Qed.

Lemma flat_snoc_quote (A : list seg) (q : char) :
  flat (A ++ [(q, [])]) = flat A ++ [q].
Proof. rewrite flat_app. reflexivity. Qed.

(** ** An occurrence of an opening pattern and the text around it *)

Lemma nextq_app_cons (A : list seg) (x : char) (m : text) (B : list seg) :
  nextq (A ++ (x, m) :: B)
  = match nextq A with Some q => Some q | None => Some x end.
Proof. destruct A as [|[q w] A]; reflexivity. Qed.

(** The scan of a closed rule up to a segment that the rule does not
    match does not depend on that segment's word or on what follows, and
    starts afresh after it. *)
Lemma crep_cut (q : char) (body body' : text) (x : char) (A : list seg) :
  body <> [] ->
  exists A1,
    crep q body body' (A ++ [(x, [])]) = A1 ++ [(x, [])]
    /\ forall m B, m <> body ->
         crep q body body' (A ++ (x, m) :: B)
         = A1 ++ (x, m) :: crep q body body' B.
Proof.
  intros Hb.
  assert (Hmiss : forall m n, m <> body -> hitc q body x m n = false).
  { intros m n Hm. destruct (hitc q body x m n) eqn:E; [|reflexivity].
    apply hitc_true in E as (_ & E & _). congruence. }
  remember (List.length A) as k eqn:Ek. revert A Ek.
  induction k as [k IH] using lt_wf_ind. intros A Ek.
  destruct A as [|[q1 w1] A'].
  - exists []. split.
    + cbn [app crep]. rewrite Hmiss by congruence. reflexivity.
    + intros m B Hm. cbn [app crep]. rewrite (Hmiss _ _ Hm). reflexivity.
  - change (((q1, w1) :: A') ++ [(x, [])])
      with ((q1, w1) :: (A' ++ [(x, [])])).
    cbn [crep]. rewrite nextq_app_cons.
    destruct (hitc q body q1 w1
                (match nextq A' with Some q0 => Some q0 | None => Some x end))
      eqn:Hh.
    + destruct A' as [|sg2 A''].
      * exists [(q1, body')]. split; [reflexivity|].
        intros m B Hm. cbn [app crep nextq]. cbn [nextq] in Hh.
        rewrite Hh. reflexivity.
      * destruct (IH (List.length A'')) with (A := A'') as (A1 & E1 & E2);
          [subst k; simpl; lia | reflexivity |].
        exists ((q1, body') :: sg2 :: A1). split.
        -- cbn [app]. rewrite E1. reflexivity.
        -- intros m B Hm.
           change (((q1, w1) :: sg2 :: A'') ++ (x, m) :: B)
             with ((q1, w1) :: sg2 :: (A'' ++ (x, m) :: B)).
           cbn [crep nextq]. destruct sg2 as [q2 w2]. cbn [nextq] in Hh.
           rewrite Hh, (E2 _ _ Hm). reflexivity.
    + destruct (IH (List.length A')) with (A := A') as (A1 & E1 & E2);
        [subst k; simpl; lia | reflexivity |].
      exists ((q1, w1) :: A1). split.
      * rewrite E1. reflexivity.
      * intros m B Hm.
        change (((q1, w1) :: A') ++ (x, m) :: B)
          with ((q1, w1) :: (A' ++ (x, m) :: B)).
        cbn [crep]. rewrite nextq_app_cons, Hh, (E2 _ _ Hm). reflexivity.
Qed.

Lemma live_nonempty (body : text) : live body = true -> body <> [].
Proof. intros H ->. discriminate. Qed.

Lemma srep_cut (sh : shape) (x : char) (A : list seg) :
  good sh = true ->
  exists A1,
    srep sh (A ++ [(x, [])]) = A1 ++ [(x, [])]
    /\ forall m B,
         match sh with Closed _ body _ => m <> body | _ => True end ->
         srep sh (A ++ (x, m) :: B)
         = A1 ++ (x, sfun sh x m None) :: srep sh B.
Proof.
  intros Hg. destruct sh as [q body body' | q pre pre']; cbn [srep sfun].
  - apply good_closed in Hg as (_ & _ & _ & Hl & _).
    destruct (crep_cut q body body' x A (live_nonempty _ Hl))
      as (A1 & E1 & E2).
    exists A1. split; [exact E1|]. intros m B Hm.
    rewrite (E2 _ _ Hm). unfold cfun.
    destruct (hitc q body x m None) eqn:E; [|reflexivity].
    apply hitc_true in E as (_ & E & _). congruence.
  - exists (lmapn (ofun q pre pre') (Some x) A). split.
    + rewrite lmap_app, lmap_cons. cbn [nextq].
      pose proof (sfun_inert (Opening q pre pre') x [] None Hg eq_refl) as E.
      cbn [sfun] in E. rewrite E. reflexivity.
    + intros m B _. rewrite lmap_app, lmap_cons. reflexivity.
Qed.

Lemma sreps_cut (shs : list shape) (x : char) (m : text) (A : list seg) :
  forallb good shs = true ->
  (forall q body body', In (Closed q body body') shs -> m <> body) ->
  exists A1,
    sreps shs (A ++ [(x, [])]) = A1 ++ [(x, [])]
    /\ forall B,
         sreps shs (A ++ (x, m) :: B)
         = A1 ++ (x, sfuns shs x m None) :: sreps shs B.
Proof.
  revert m A; induction shs as [|sh shs IH]; intros m A Hg Hm.
  - exists A. split; reflexivity.
  - cbn [forallb] in Hg. apply andb_true_iff in Hg as [Hg Hgs].
    destruct (srep_cut sh x A Hg) as (A1 & E1 & E2).
    destruct (IH (sfun sh x m None) A1 Hgs) as (A2 & E3 & E4).
    { intros q body body' Hin E.
      destruct (sfun_result sh x m None Hg) as [Es|Es].
      - rewrite Es in E. apply (Hm q body body'); [right; exact Hin|exact E].
      - rewrite forallb_forall in Hgs. specialize (Hgs _ Hin).
        apply good_closed in Hgs as (_ & _ & _ & Hl & _). congruence. }
    exists A2. split.
    + cbn [sreps]. rewrite E1. exact E3.
    + intros B. cbn [sreps sfuns]. rewrite E2, E4; [reflexivity|].
      destruct sh as [q body body'|]; [|exact I].
      apply (Hm q body body'). left. reflexivity.
Qed.

Lemma closed_bodies_second (q : char) (body body' : text) :
  In (Closed q body body') SHAPES -> nth 1 body 0%N = 112%N.
Proof.
  assert (H : forallb (fun sh => match sh with
                                 | Closed _ body _ =>
                                     char_eqb (nth 1 body 0%N) 112%N
                                 | Opening _ _ _ => true
                                 end) SHAPES = true)
    by (vm_compute; reflexivity).
  rewrite forallb_forall in H. intros Hin. specialize (H _ Hin).
  apply char_eqb_eq in H. exact H.
Qed.

Lemma opening_in_place (q : char) (pre pre' a b : text) :
  In (Opening q pre pre') SHAPES ->
  (forall wb, nth 1 (pre ++ wb) 0%N = 109%N) ->
  (forall wb, sfuns SHAPES q (pre ++ wb) None = pre' ++ wb) ->
  exists a',
    transform (a ++ [q]) = a' ++ [q]
    /\ transform (a ++ (q :: pre) ++ b) = a' ++ (q :: pre') ++ transform b.
Proof.
  intros Hin Hsec Hfun.
  assert (Hg : good (Opening q pre pre') = true).
  { pose proof shapes_good as H. rewrite forallb_forall in H.
    apply H, Hin. }
  apply good_opening in Hg as (Hq & Hp & _).
  destruct (parse_flat a) as (Ea & Hw0 & HA).
  destruct (parse_flat b) as (Eb & Hwb & HB).
  destruct (parse a) as [w0 A]. destruct (parse b) as [wb B].
  cbn [fst snd] in *.
  destruct (sreps_cut SHAPES q (pre ++ wb) A shapes_good) as (A1 & E1 & E2).
  { intros q0 body body' Hc E. apply closed_bodies_second in Hc.
    rewrite <- E, Hsec in Hc. discriminate. }
  exists (w0 ++ flat A1). split.
  - replace (a ++ [q]) with (w0 ++ flat (A ++ [(q, [])]))
      by (rewrite Ea, flat_snoc_quote; same_text).
    rewrite transform_sreps, E1, flat_snoc_quote; [same_text|exact Hw0|].
    rewrite well_cut_app, HA. cbn [well_cut forallb fst snd andb].
    rewrite Hq. reflexivity.
  - replace (a ++ (q :: pre) ++ b)
      with (w0 ++ flat (A ++ (q, pre ++ wb) :: B))
      by (rewrite Ea, Eb at 1; rewrite flat_app, flat_cons; same_text).
    rewrite transform_sreps, E2, Hfun, flat_app, flat_cons.
    + rewrite Eb, (transform_sreps wb B Hwb HB). same_text.
    + exact Hw0.
    + rewrite well_cut_app, HA. apply well_cut_cons.
      rewrite quote_free_app, Hp, Hwb. auto.
Qed.

(** C4.  The two [@modules/] patterns have no closing quote, so every
    occurrence is rewritten, whatever follows it: for every text before
    and after, the occurrence becomes the substitute, the text after it
    is rewritten as it would be on its own, and so is the text before it
    (up to and with the quote).  The content
    [import { A } from "@modules/auth/login";] becomes
    [import { A } from "@/modules/auth/login";]. *)
Theorem modules_prefix_always_rewritten :
  (forall a b : text,
      exists a',
        transform (a ++ sq) = a' ++ sq
        /\ transform (a ++ codes "'@modules/" ++ b)
           = a' ++ codes "'@/modules/" ++ transform b)
  /\ (forall a b : text,
      exists a',
        transform (a ++ dq) = a' ++ dq
        /\ transform (a ++ (dq ++ codes "@modules/") ++ b)
           = a' ++ (dq ++ codes "@/modules/") ++ transform b)
  /\ transform (codes "import { A } from "
                ++ dquoted "@modules/auth/login" ++ codes ";")
     = codes "import { A } from "
       ++ dquoted "@/modules/auth/login" ++ codes ";".
Proof.
  split; [|split].
  - intros a b.
    apply (opening_in_place 39%N (codes "@modules/") (codes "@/modules/")).
    + cbn [SHAPES In]. auto 20.
    + intros wb. reflexivity.
    + intros wb. vm_compute. reflexivity.
  - intros a b.
    apply (opening_in_place 34%N (codes "@modules/") (codes "@/modules/")).
    + cbn [SHAPES In]. auto 20.
    + intros wb. reflexivity.
    + intros wb. vm_compute. reflexivity.
  - vm_compute. reflexivity.
Qed.

(* ================================================================== *)
(** * Further properties *)

(** ** Separators *)

Lemma startswith_before (old a : text) (c : char) (b : text) :
  ~ In c old -> startswith old (a ++ c :: b) = true ->
  exists a', a = old ++ a'.
Proof.
  revert a; induction old as [|x old IH]; intros a Hc H.
  - exists a. reflexivity.
  - destruct a as [|y a]; cbn [app startswith] in H;
      apply andb_true_iff in H as [H1 H2]; apply char_eqb_eq in H1.
    + exfalso. apply Hc. left. exact H1.
    + subst y. destruct (IH a) as [a' ->]; [|exact H2|].
      * intros Hin. apply Hc. right. exact Hin.
      * exists a'. reflexivity.
Qed.

Lemma startswith_longer (old a t : text) :
  startswith old a = true -> startswith old (a ++ t) = true.
Proof.
  intros H. apply startswith_true in H as [b ->].
  rewrite <- app_assoc. apply startswith_app.
Qed.

(** [replace] works on the two sides of a character that is not in the
    pattern as it works on each side alone. *)
Lemma replace_from_split (old new a : text) (c : char) (b : text) :
  old <> [] -> ~ In c old ->
  replace_from old new 0 (a ++ c :: b)
  = replace_from old new 0 a ++ c :: replace_from old new 0 b.
Proof.
  intros Hold Hc.
  remember (List.length a) as n eqn:En. revert a En.
  induction n as [n IH] using lt_wf_ind. intros a En.
  destruct (startswith old (a ++ c :: b)) eqn:Hs.
  - destruct (startswith_before old a c b Hc Hs) as [a' ->].
    rewrite <- app_assoc, !replace_from_hit by exact Hold.
    rewrite (IH (List.length a')); [|subst n; rewrite length_app;
      destruct old; [congruence | simpl; lia]|reflexivity].
    rewrite <- app_assoc. reflexivity.
  - destruct a as [|y a].
    + cbn [app] in *. rewrite (replace_from_miss _ _ _ _ Hs). reflexivity.
    + assert (Hs' : startswith old (y :: a) = false).
      { destruct (startswith old (y :: a)) eqn:E; [|reflexivity].
        apply (startswith_longer _ _ (c :: b)) in E. congruence. }
      change ((y :: a) ++ c :: b) with (y :: (a ++ c :: b)) in *.
      rewrite (replace_from_miss _ _ _ _ Hs), (replace_from_miss _ _ _ _ Hs').
      rewrite (IH (List.length a)); [reflexivity|subst n; simpl; lia|reflexivity].
Qed.

Lemma apply_rules_split (rules : list (text * text)) (a : text) (c : char)
      (b : text) :
  Forall (fun r => fst r <> []) rules ->
  forallb (fun r => negb (existsb (char_eqb c) (fst r))) rules = true ->
  apply_rules rules (a ++ c :: b)
  = apply_rules rules a ++ c :: apply_rules rules b.
Proof.
  intros Hne. revert a b.
  induction Hne as [|[old new] rest Hold _ IH]; intros a b Hc;
    [reflexivity|].
  cbn [forallb fst] in Hc. apply andb_true_iff in Hc as [Hc Hrest].
  cbn [apply_rules fst] in *.
  rewrite !(replace_nonempty _ _ _ Hold).
  rewrite replace_from_split; [apply IH, Hrest | exact Hold |].
  intros Hin. apply negb_true_iff in Hc.
  assert (existsb (char_eqb c) old = true); [|congruence].
  apply existsb_exists. exists c. split; [exact Hin | apply char_eqb_refl].
Qed.

(** X1.  The rewriting works on the two sides of a separator (a
    character that is in no pattern of the table) as on each side alone;
    the line feed is a separator, so a file is rewritten line by
    line. *)
Theorem transform_splits_at_separator (c : char) (a b : text) :
  separator c = true ->
  transform (a ++ c :: b) = transform a ++ c :: transform b.
Proof.
  intros Hc. apply apply_rules_split; [apply patterns_nonempty | exact Hc].
Qed.

Lemma transform_splits_at_separator_witness :
  transform (codes "import a from '@platform/ui'" ++ 10%N
             :: codes "import b from '@platform/core'")
  = transform (codes "import a from '@platform/ui'") ++ 10%N
    :: transform (codes "import b from '@platform/core'").
Proof.
  apply transform_splits_at_separator. vm_compute. reflexivity.
Defined.

(** ** Quote characters are kept *)

Lemma map_fst_lmapn (f : char -> text -> option char -> text)
      (nq : option char) (segs : list seg) :
  map fst (lmapn f nq segs) = map fst segs.
Proof.
  induction segs as [|[q w] rest IH]; [reflexivity|].
  rewrite lmapn_last. cbn [map fst]. rewrite IH. reflexivity.
Qed.

Lemma map_fst_crep (q : char) (body body' : text) (segs : list seg) :
  map fst (crep q body body' segs) = map fst segs.
Proof.
  remember (List.length segs) as n eqn:En. revert segs En.
  induction n as [n IH] using lt_wf_ind. intros segs En.
  destruct segs as [|[q1 w1] rest]; [reflexivity|].
  cbn [crep]. destruct (hitc q body q1 w1 (nextq rest)).
  - destruct rest as [|sg2 rest']; [reflexivity|].
    cbn [map fst]. rewrite (IH (List.length rest'));
      [reflexivity|subst n; simpl; lia|reflexivity].
  - cbn [map fst]. rewrite (IH (List.length rest));
      [reflexivity|subst n; simpl; lia|reflexivity].
Qed.

Lemma map_fst_sreps (shs : list shape) (segs : list seg) :
  map fst (sreps shs segs) = map fst segs.
Proof.
  revert segs; induction shs as [|sh shs IH]; intros segs; [reflexivity|].
  cbn [sreps]. rewrite IH. destruct sh; cbn [srep].
  - apply map_fst_crep.
  - apply map_fst_lmapn.
Qed.

Lemma parse_word (w0 : text) :
  quote_free w0 = true -> parse w0 = (w0, []).
Proof.
  induction w0 as [|c w0 IH]; intros H; [reflexivity|].
  apply quote_free_cons in H as [Hc Hw]. cbn [parse].
  rewrite (IH Hw), Hc. reflexivity.
Qed.

(** A text has one cut only. *)
Lemma parse_unique (segs : list seg) :
  well_cut segs = true ->
  forall w0, quote_free w0 = true -> parse (w0 ++ flat segs) = (w0, segs).
Proof.
  induction segs as [|[q w] rest IH]; intros Hwc w0 Hw0.
  - cbn [flat flat_map]. rewrite app_nil_r. apply parse_word, Hw0.
  - apply well_cut_cons in Hwc as (Hq & Hw & Hwc).
    induction w0 as [|c w0 IHw].
    + rewrite flat_cons. cbn [app parse].
      rewrite (IH Hwc w Hw), Hq. reflexivity.
    + apply quote_free_cons in Hw0 as [Hc Hw0].
      cbn [app parse]. rewrite (IHw Hw0), Hc. reflexivity.
Qed.

Lemma filter_quotes_word (w : text) :
  quote_free w = true -> filter is_quote w = [].
Proof.
  induction w as [|c w IH]; intros H; [reflexivity|].
  apply quote_free_cons in H as [Hc Hw]. cbn [filter].
  rewrite Hc. apply IH, Hw.
Qed.

Lemma filter_quotes_flat (segs : list seg) :
  well_cut segs = true -> filter is_quote (flat segs) = map fst segs.
Proof.
  induction segs as [|[q w] rest IH]; intros Hwc; [reflexivity|].
  apply well_cut_cons in Hwc as (Hq & Hw & Hwc).
  rewrite flat_cons. cbn [filter map fst]. rewrite Hq, filter_app.
  rewrite (filter_quotes_word _ Hw), (IH Hwc). reflexivity.
Qed.

(** X2.  The rewriting changes nothing before the first quote character
    of a text and neither adds, removes nor reorders quote characters:
    the text up to the first quote and the sequence of quote characters
    are those of the original. *)
Theorem transform_keeps_quotes (s : text) :
  fst (parse (transform s)) = fst (parse s)
  /\ filter is_quote (transform s) = filter is_quote s.
Proof.
  destruct (parse_flat s) as (Es & Hw0 & Hwc).
  destruct (parse s) as [w0 segs]. cbn [fst snd] in *.
  assert (Et : transform s = w0 ++ flat (sreps SHAPES segs)).
  { rewrite Es at 1. apply transform_sreps; assumption. }
  assert (Hwc' : well_cut (sreps SHAPES segs) = true)
    by (apply well_cut_sreps; [exact shapes_good | exact Hwc]).
  rewrite Et. split.
  - rewrite (parse_unique _ Hwc' _ Hw0). reflexivity.
  - rewrite Es, !filter_app, (filter_quotes_flat _ Hwc'),
      (filter_quotes_flat _ Hwc), map_fst_sreps. reflexivity.
Qed.

(** ** Patterns left in the result *)

Lemma contains_word (q : char) (P w t : text) :
  is_quote q = true -> quote_free w = true ->
  contains (q :: P) (w ++ t) = contains (q :: P) t.
Proof.
  intros Hq. induction w as [|c w IH]; intros Hw; [reflexivity|].
  apply quote_free_cons in Hw as [Hc Hw].
  cbn [app contains startswith]. rewrite (quote_differs _ _ Hq Hc).
  cbn [andb orb]. apply IH, Hw.
Qed.

Lemma contains_opening_flat (q : char) (pre : text) (segs : list seg) :
  is_quote q = true -> quote_free pre = true -> well_cut segs = true ->
  contains (q :: pre) (flat segs) = existsb (opens q pre) segs.
Proof.
  intros Hq Hp. induction segs as [|[q1 w1] rest IH]; intros Hwc;
    [reflexivity|].
  apply well_cut_cons in Hwc as (_ & Hw1 & Hwc).
  rewrite flat_cons. cbn [contains existsb].
  rewrite (contains_word q pre w1 _ Hq Hw1), (IH Hwc).
  cbn [startswith]. rewrite (startswith_pre pre w1 _ Hp (flat_quoted _ Hwc)).
  reflexivity.
Qed.

Lemma contains_closed_flat (q : char) (body : text) (segs : list seg) :
  is_quote q = true -> quote_free body = true -> well_cut segs = true ->
  contains (q :: body ++ [q]) (flat segs) = any_hit q body segs.
Proof.
  intros Hq Hb. induction segs as [|[q1 w1] rest IH]; intros Hwc;
    [reflexivity|].
  pose proof (startswith_closed q body q1 w1 rest Hq Hb Hwc) as Hs.
  apply well_cut_cons in Hwc as (_ & Hw1 & Hwc).
  rewrite flat_cons in *. cbn [contains any_hit hit_head].
  rewrite Hs, (contains_word q _ w1 _ Hq Hw1), (IH Hwc). reflexivity.
Qed.

Lemma opens_lmap_same (q : char) (pre pre' : text) (segs : list seg) :
  (forall x, startswith pre (pre' ++ x) = false) ->
  existsb (opens q pre) (lmap (ofun q pre pre') segs) = false.
Proof.
  intros Hp. induction segs as [|[q1 w1] rest IH]; [reflexivity|].
  rewrite lmap_cons. cbn [existsb]. rewrite IH, orb_false_r.
  unfold opens, ofun. cbn [fst snd].
  destruct (char_eqb q q1); [|reflexivity]. cbn [andb].
  destruct (startswith pre w1) eqn:E; [apply Hp | exact E].
Qed.

Lemma opens_lmap_other (q q2 : char) (pre pre2 pre2' : text)
      (segs : list seg) :
  q2 <> q ->
  existsb (opens q pre) (lmap (ofun q2 pre2 pre2') segs)
  = existsb (opens q pre) segs.
Proof.
  intros Hq. induction segs as [|[q1 w1] rest IH]; [reflexivity|].
  rewrite lmap_cons. cbn [existsb]. rewrite IH. f_equal.
  unfold opens, ofun. cbn [fst snd].
  destruct (char_eqb q q1) eqn:E1; [|reflexivity].
  apply char_eqb_eq in E1. subst q1.
  apply char_eqb_neq in Hq. rewrite Hq. reflexivity.
Qed.

Lemma sreps_app (A B : list shape) (segs : list seg) :
  sreps (A ++ B) segs = sreps B (sreps A segs).
Proof.
  revert segs; induction A as [|sh A IH]; intros segs; [reflexivity|].
  cbn [app sreps]. apply IH.
Qed.

Lemma shapes_end :
  SHAPES = firstn 12 SHAPES
           ++ [Opening 39%N (codes "@modules/") (codes "@/modules/");
               Opening 34%N (codes "@modules/") (codes "@/modules/")].
Proof. reflexivity. Qed.

Lemma modules_not_kept (x : text) :
  startswith (codes "@modules/") (codes "@/modules/" ++ x) = false.
Proof. reflexivity. Qed.

Lemma opening_absent (s : text) :
  contains (codes "'@modules/") (transform s) = false
  /\ contains (dq ++ codes "@modules/") (transform s) = false.
Proof.
  destruct (parse_flat s) as (Es & Hw0 & Hwc).
  destruct (parse s) as [w0 segs]. cbn [fst snd] in *.
  rewrite Es, transform_sreps by assumption.
  assert (Hwc' : well_cut (sreps SHAPES segs) = true)
    by (apply well_cut_sreps; [exact shapes_good | exact Hwc]).
  change (codes "'@modules/") with (39%N :: codes "@modules/").
  change (dq ++ codes "@modules/") with (34%N :: codes "@modules/").
  rewrite !contains_word, !contains_opening_flat;
    try reflexivity; try assumption.
  rewrite shapes_end, sreps_app. cbn [sreps srep]. split.
  - rewrite opens_lmap_other by discriminate.
    apply opens_lmap_same, modules_not_kept.
  - apply opens_lmap_same, modules_not_kept.
Qed.

(** X3.  Whatever the text, neither of the two opening patterns (a
    single or a double quote followed by [@modules/]) occurs in the
    result of the rewriting. *)
Theorem modules_patterns_never_survive (s : text) :
  contains (codes "'@modules/") (transform s) = false
  /\ contains (dq ++ codes "@modules/") (transform s) = false.
Proof. exact (opening_absent s). Qed.

Lemma sfuns_never_hit (q : char) (body body' : text) (q1 : char) (w : text)
      (n : option char) :
  In (Closed q body body') SHAPES ->
  hitc q body q1 (sfuns SHAPES q1 w n) n = false.
Proof.
  intros Hin.
  assert (Hg : good (Closed q body body') = true).
  { pose proof shapes_good as H. rewrite forallb_forall in H.
    apply H, Hin. }
  apply good_closed in Hg as (_ & _ & _ & Hl & Hl').
  destruct (hitc q body q1 (sfuns SHAPES q1 w n) n) eqn:E; [|reflexivity].
  apply hitc_true in E as (-> & E & ->).
  destruct (sfuns_result SHAPES q w (Some q) shapes_good) as [E'|E'].
  - rewrite E' in E. subst w.
    rewrite (sfuns_closed_hit _ _ _ Hin) in E'. congruence.
  - congruence.
Qed.

Lemma any_hit_lmap (q : char) (body body' : text) (segs : list seg) :
  In (Closed q body body') SHAPES ->
  any_hit q body (lmap (sfuns SHAPES) segs) = false.
Proof.
  intros Hin. induction segs as [|[q1 w1] rest IH]; [reflexivity|].
  rewrite lmap_cons. cbn [any_hit hit_head]. rewrite IH, orb_false_r.
  unfold lmap. rewrite nextq_lmapn.
  apply (sfuns_never_hit _ _ _ _ _ _ Hin).
Qed.

(** X4.  When no pattern overlaps its own next occurrence in a text, no
    pattern of the table occurs in the result of the rewriting: one
    application rewrites every occurrence. *)
Theorem no_pattern_survives (s : text) :
  overlap_free s = true ->
  forallb (fun r => negb (contains (fst r) (transform s))) REPLACEMENTS
  = true.
Proof.
  intros Hof. destruct (opening_absent s) as [Ho1 Ho2].
  destruct (parse_flat s) as (Es & Hw0 & Hwc).
  pose proof (overlap_free_calm s _ _ Hof Es) as Hc.
  assert (Et : transform s
               = fst (parse s) ++ flat (lmap (sfuns SHAPES) (snd (parse s)))).
  { rewrite Es at 1. apply transform_calm; assumption. }
  assert (Hwc' : well_cut (lmap (sfuns SHAPES) (snd (parse s))) = true).
  { apply well_cut_lmapn; [|exact Hwc].
    intros q w n. apply sfuns_quote_free, shapes_good. }
  rewrite <- shapes_table, forallb_forall. intros r Hr.
  apply in_map_iff in Hr as (sh & <- & Hin).
  apply negb_true_iff.
  destruct sh as [q body body' | q pre pre']; cbn [rule_of fst].
  - assert (Hg : good (Closed q body body') = true).
    { pose proof shapes_good as H. rewrite forallb_forall in H.
      apply H, Hin. }
    apply good_closed in Hg as (Hq & Hb & _).
    rewrite Et, (contains_word q _ _ _ Hq Hw0).
    rewrite (contains_closed_flat q body _ Hq Hb Hwc').
    apply (any_hit_lmap _ _ _ _ Hin).
  - cbn [SHAPES In] in Hin.
    repeat (destruct Hin as [Hin|Hin]; [try discriminate|]);
      try (injection Hin as <- <- <-; assumption).
    destruct Hin.
Qed.

Lemma no_pattern_survives_witness :
  forallb (fun r =>
             negb (contains (fst r)
                     (transform (codes "from '@platform/ui' and '@modules/a'"))))
          REPLACEMENTS = true.
Proof. apply no_pattern_survives. vm_compute. reflexivity. Defined.

(** ** Files are processed independently *)

Lemma update_file_local_store (E : system) (p : text) (st1 st2 : store) :
  st1 (resolve E p) = st2 (resolve E p) ->
  r_store (update_file E p st1) (resolve E p)
  = r_store (update_file E p st2) (resolve E p).
Proof.
  intros H. unfold update_file, handler. cbv zeta. rewrite H.
  repeat match goal with
         | |- context [match ?x with _ => _ end] => destruct x
         end; cbn [r_store fst]; rewrite ?put_same; auto.
Qed.

Lemma flat_map_same {A B : Type} (f g : A -> list B) (l : list A) :
  (forall x, In x l -> f x = g x) -> flat_map f l = flat_map g l.
Proof.
  induction l as [|x l IH]; intros H; [reflexivity|].
  cbn [flat_map]. rewrite (H x (or_introl eq_refl)), IH; [reflexivity|].
  intros y Hy. apply H. right. exact Hy.
Qed.

Lemma for_each_independent (E : system) (l : list text) (st : store) :
  NoDup (map (resolve E) l) ->
  r_end (for_each l (update_file E) st) = Done ->
  r_events (for_each l (update_file E) st)
  = flat_map (fun p => r_events (update_file E p st)) l
  /\ forall p, In p l ->
       r_store (for_each l (update_file E) st) (resolve E p)
       = r_store (update_file E p st) (resolve E p).
Proof.
  revert st; induction l as [|q l IH]; intros st Hnd Hd.
  - split; [reflexivity | intros p []].
  - cbn [map] in Hnd. inversion Hnd as [|q' l' Hq Hl]; subst.
    assert (Hother : forall p, In p l -> resolve E p <> resolve E q).
    { intros p Hp Heq. apply Hq. rewrite <- Heq. apply in_map, Hp. }
    destruct (r_end (update_file E q st)) as [|msg] eqn:Hend;
      [|rewrite (for_each_stop _ _ _ _ _ Hend) in Hd; congruence].
    rewrite (for_each_done _ _ _ _ Hend) in Hd |- *.
    cbn [r_end snd] in Hd. cbn [r_store r_events fst snd flat_map].
    set (st1 := r_store (update_file E q st)) in *.
    assert (Hsame : forall p, In p l -> st1 (resolve E p) = st (resolve E p)).
    { intros p Hp. apply update_file_frame, Hother, Hp. }
    destruct (IH st1 Hl Hd) as [IH1 IH2]. split.
    + rewrite IH1. f_equal. apply flat_map_same. intros p Hp.
      apply update_file_local, Hsame, Hp.
    + intros p [<-|Hp].
      * apply for_each_update_frame, Hother.
      * rewrite (IH2 p Hp). apply update_file_local_store, Hsame, Hp.
Qed.

Lemma file_eta (f : file) (c : text) :
  f_read f = Ok c -> f_write f = WriteOk -> f = plain_file c.
Proof. destruct f as [r w]. cbn. intros -> ->. reflexivity. Qed.

(** X5.  When no two targets name the same file and the run is not cut
    short, the files are processed independently of each other: the
    events of the run are those of [update_file] on each target in
    turn, each taken on the files as they were before the run; so every
    target that can be read and written holds the rewritten content
    afterwards, a target that cannot be read is as before, and so is
    every file that no target names. *)
Theorem run_processes_files_independently (E : system) (top : text)
        (t : tree) (st : store) :
  NoDup (map (resolve E) (targets top t)) ->
  r_end (run E top t st) = Done ->
  r_events (run E top t st)
  = flat_map (fun p => r_events (update_file E p st)) (targets top t)
  /\ (forall p c, In p (targets top t) ->
        f_read (st (resolve E p)) = Ok c ->
        f_write (st (resolve E p)) = WriteOk ->
        r_store (run E top t st) (resolve E p) = plain_file (transform c))
  /\ (forall p, In p (targets top t) ->
        (forall c, f_read (st (resolve E p)) <> Ok c) ->
        r_store (run E top t st) (resolve E p) = st (resolve E p))
  /\ (forall n, (forall p, In p (targets top t) -> resolve E p <> n) ->
        r_store (run E top t st) n = st n).
Proof.
  intros Hnd Hd. rewrite run_targets in Hd.
  destruct (for_each_independent E _ st Hnd Hd) as [H1 H2].
  split; [rewrite run_targets; exact H1|]. split; [|split].
  - intros p c Hp Hr Hw. rewrite run_targets, (H2 p Hp).
    destruct (update_file_cases E p st) as [msg Hr' ->|c' Hr' Hc ->
                                            |c' Hr' Hc _ _ ->
                                            |c' msg Hr' Hc _ _ ->
                                            |c' msg after Hr' Hc Hw'];
      rewrite ?handler_store; cbn [r_store fst]; try congruence.
    + assert (c' = c) by congruence. subst c'.
      apply file_eta; [rewrite Hc|]; assumption.
    + rewrite put_same. congruence.
    + rewrite put_same. congruence.
  - intros p Hp Hr. rewrite run_targets, (H2 p Hp).
    destruct (f_read (st (resolve E p))) as [c|msg] eqn:Hr'.
    + destruct (Hr c eq_refl).
    + rewrite (update_file_unreadable E p st msg Hr'), handler_store.
      reflexivity.
  - intros n Hn. apply run_frame, Hn.
Qed.

Lemma run_processes_files_independently_witness :
  r_store (run demo_system ROOT_DIR demo_tree demo_store)
          (ROOT_DIR ++ codes "/app.tsx")
  = plain_file (transform (codes "import x from '@platform/core';")).
Proof.
  apply (run_processes_files_independently
           demo_system ROOT_DIR demo_tree demo_store).
  - vm_compute. repeat constructor; cbn [In]; intuition discriminate.
  - vm_compute. reflexivity.
  - vm_compute. auto.
  - vm_compute. reflexivity.
  - vm_compute. reflexivity.
Defined.

(** ** The run stays below its root *)

Fixpoint tree_nested_ind (P : tree -> Prop) (H0 : P Unlistable)
         (H1 : forall subdirs files,
             Forall (fun d => P (snd d)) subdirs ->
             P (Listing subdirs files))
         (t : tree) : P t :=
  match t with
  | Unlistable => H0
  | Listing subdirs files =>
      H1 subdirs files
         ((fix go (l : list (text * tree)) : Forall (fun d => P (snd d)) l :=
             match l with
             | [] => Forall_nil _
             | d :: l' =>
                 Forall_cons d
                   (match d return P (snd d) with
                    | (_, sub) => tree_nested_ind P H0 H1 sub
                    end)
                   (go l')
             end) subdirs)
  end.

Lemma startswith_refl (a : text) : startswith a a = true.
Proof. apply startswith_true. exists []. symmetry. apply app_nil_r. Qed.

Lemma startswith_trans (a b c : text) :
  startswith a b = true -> startswith b c = true -> startswith a c = true.
Proof.
  rewrite !startswith_true. intros [x ->] [y ->].
  exists (x ++ y). rewrite app_assoc. reflexivity.
Qed.

(** [join a ""] is [a] as a directory prefix, and [join a b] is that
    prefix followed by [b]. *)
Lemma join_prefix (a b : text) :
  startswith slash b = false -> join a b = join a [] ++ b.
Proof.
  intros Hb. unfold join. rewrite Hb. cbn [startswith slash codes].
  change (startswith slash []) with false. cbv iota.
  destruct (text_eqb a [] || endswith slash a).
  - rewrite app_nil_r. reflexivity.
  - rewrite app_nil_r, <- app_assoc. reflexivity.
Qed.

Lemma join_below (a b : text) :
  startswith slash b = false ->
  startswith (join a []) (join (join a b) []) = true.
Proof.
  intros Hb. apply startswith_true.
  rewrite (join_prefix (join a b) []) by reflexivity.
  rewrite (join_prefix a b Hb). rewrite app_nil_r.
  unfold join at 1. change (startswith slash []) with false. cbv iota.
  destruct (text_eqb _ [] || endswith slash _).
  - exists b. rewrite app_nil_r. reflexivity.
  - exists (b ++ slash). rewrite app_nil_r, app_assoc. reflexivity.
Qed.

Lemma walk_below (t : tree) :
  relative_names t = true ->
  forall top root dirs files,
    In (root, dirs, files) (walk top t) ->
    startswith (join top []) (join root []) = true
    /\ forallb (fun f => negb (startswith slash f)) files = true.
Proof.
  induction t as [|subdirs files0 IH] using tree_nested_ind;
    intros Hrel top root dirs files Hin; [destruct Hin|].
  cbn [relative_names] in Hrel. apply andb_true_iff in Hrel as [Hsub Hfiles].
  cbn [walk] in Hin. destruct Hin as [Hin|Hin].
  - injection Hin as <- _ <-. split; [apply startswith_refl | exact Hfiles].
  - apply in_flat_map in Hin as ([name sub] & Hd & Hin).
    rewrite Forall_forall in IH. rewrite forallb_forall in Hsub.
    specialize (IH _ Hd). specialize (Hsub _ Hd). cbn [snd] in IH.
    apply andb_true_iff in Hsub as [Hname Hsub].
    apply negb_true_iff in Hname.
    destruct (IH Hsub _ _ _ _ Hin) as [Hroot Hf]. split; [|exact Hf].
    apply (startswith_trans _ (join (join top name) [])); [|exact Hroot].
    apply join_below, Hname.
Qed.

Lemma targets_below (top : text) (t : tree) (p : text) :
  relative_names t = true -> In p (targets top t) ->
  startswith (join top []) p = true.
Proof.
  intros Hrel Hin. unfold targets in Hin.
  apply in_flat_map in Hin as ([[root dirs] files] & He & Hp).
  destruct (walk_below t Hrel _ _ _ _ He) as [Hroot Hfiles].
  unfold dir_targets in Hp. destruct (skipped_root root); [destruct Hp|].
  apply in_map_iff in Hp as (name & <- & Hf).
  apply filter_In in Hf as [Hf _].
  rewrite forallb_forall in Hfiles. specialize (Hfiles _ Hf).
  apply negb_true_iff in Hfiles.
  apply (startswith_trans _ (join root [])); [exact Hroot|].
  rewrite (join_prefix root name Hfiles). apply startswith_app.
Qed.

(** X6.  In a tree whose names do not start with a slash, the run works
    below its root only: every path it opens, for reading or for
    writing, starts with the root as a directory prefix ([join top ""],
    the root with its slash); and a file that no path below the root
    names (no link below the root leads to it) is the same file after
    the run. *)
Theorem run_stays_below_root (E : system) (top : text) (t : tree)
        (st : store) :
  relative_names t = true ->
  (forall p, In p (reads (r_events (run E top t st))) ->
             startswith (join top []) p = true)
  /\ (forall p, In p (writes (r_events (run E top t st))) ->
                startswith (join top []) p = true)
  /\ (forall n, (forall p, startswith (join top []) p = true ->
                           resolve E p <> n) ->
                r_store (run E top t st) n = st n).
Proof.
  intros Hrel. split; [|split].
  - intros p Hp. destruct (in_dec (list_eq_dec N.eq_dec) p (targets top t))
      as [Hin|Hno].
    + apply (targets_below top t p Hrel Hin).
    + destruct (proj1 (run_not_opened E top t st p Hno) Hp).
  - intros p Hp. destruct (in_dec (list_eq_dec N.eq_dec) p (targets top t))
      as [Hin|Hno].
    + apply (targets_below top t p Hrel Hin).
    + destruct (proj2 (run_not_opened E top t st p Hno) Hp).
  - intros n Hn. apply run_frame. intros q Hq.
    apply Hn, (targets_below top t q Hrel Hq).
Qed.

Lemma run_stays_below_root_witness :
  r_store (run demo_system ROOT_DIR demo_tree demo_store)
          (codes "/etc/hosts.json")
  = demo_store (codes "/etc/hosts.json").
Proof.
  apply (run_stays_below_root demo_system ROOT_DIR demo_tree demo_store).
  - vm_compute. reflexivity.
  - intros p Hp Heq. cbn [resolve demo_system] in Heq. subst p.
    vm_compute in Hp. discriminate.
Defined.

(** ** Where a second application changes the result *)

Lemma nextq_map_fst (segs segs' : list seg) :
  map fst segs' = map fst segs -> nextq segs' = nextq segs.
Proof.
  destruct segs as [|[q w] rest], segs' as [|[q' w'] rest']; cbn;
    intros E; try discriminate; [reflexivity|].
  injection E as -> _. reflexivity.
Qed.

Lemma nextq_crep (q : char) (body body' : text) (segs : list seg) :
  nextq (crep q body body' segs) = nextq segs.
Proof. apply nextq_map_fst, map_fst_crep. Qed.

Lemma touch_same (sh : shape) (sg : seg) : touch sh sg sg.
Proof. split; [reflexivity | left; reflexivity]. Qed.

Lemma crep_touch (q : char) (body body' : text) (segs : list seg) :
  live body' = false ->
  Forall2 (touch (Closed q body body')) segs (crep q body body' segs).
Proof.
  intros Hl.
  remember (List.length segs) as n eqn:En. revert segs En.
  induction n as [n IH] using lt_wf_ind. intros segs En.
  destruct segs as [|[q1 w1] rest]; [constructor|].
  cbn [crep]. destruct (hitc q body q1 w1 (nextq rest)) eqn:Hh.
  - apply hitc_true in Hh as (-> & -> & _). constructor.
    + split; [reflexivity|]. right. split; [|exact Hl].
      cbn [fires fst snd]. rewrite char_eqb_refl, text_eqb_refl. reflexivity.
    + destruct rest as [|sg2 rest']; constructor; [apply touch_same|].
      apply (IH (List.length rest')); [subst n; simpl; lia|reflexivity].
  - constructor; [apply touch_same|].
    apply (IH (List.length rest)); [subst n; simpl; lia|reflexivity].
Qed.

Lemma lmap_touch (q : char) (pre pre' : text) (segs : list seg) :
  (forall x, live (pre' ++ x) = false) ->
  Forall2 (touch (Opening q pre pre')) segs (lmap (ofun q pre pre') segs).
Proof.
  intros Hl. induction segs as [|[q1 w1] rest IH]; [constructor|].
  rewrite lmap_cons. constructor; [|exact IH].
  split; [reflexivity|]. cbn [fst snd fires]. unfold ofun, opens.
  cbn [fst snd]. destruct (char_eqb q q1 && startswith pre w1); auto.
Qed.

Lemma srep_touch (sh : shape) (segs : list seg) :
  good sh = true -> Forall2 (touch sh) segs (srep sh segs).
Proof.
  intros Hg. destruct sh as [q body body' | q pre pre']; cbn [srep].
  - apply good_closed in Hg as (_ & _ & _ & _ & Hl). apply crep_touch, Hl.
  - apply good_opening in Hg as (_ & _ & _ & _ & Hl). apply lmap_touch, Hl.
Qed.

Lemma fires_live (sh : shape) (sg : seg) :
  good sh = true -> fires sh sg = true -> live (snd sg) = true.
Proof.
  intros Hg Hf. destruct sh as [q body body' | q pre pre']; cbn [fires] in Hf.
  - apply good_closed in Hg as (_ & _ & _ & Hl & _).
    apply andb_true_iff in Hf as [_ Hf]. apply text_eqb_eq in Hf.
    rewrite Hf. exact Hl.
  - apply good_opening in Hg as (_ & _ & _ & Hl & _).
    unfold opens in Hf. apply andb_true_iff in Hf as [_ Hf].
    apply (live_startswith _ _ Hl Hf).
Qed.

Lemma touch_alike (sh : shape) (q : char) (body : text) (sg sg' : seg) :
  good sh = true -> avoids q body sh = true -> live body = true ->
  touch sh sg sg' -> alike q body sg sg'.
Proof.
  intros Hg Ha Hl [Hq [Hw | [Hf Hl']]]; split; try exact Hq.
  - unfold isk. rewrite Hq, Hw. reflexivity.
  - assert (E1 : isk q body sg' = false).
    { unfold isk. destruct (text_eqb (snd sg') body) eqn:E;
        [|apply andb_false_r].
      apply text_eqb_eq in E. congruence. }
    rewrite E1. symmetry. unfold isk.
    destruct (char_eqb q (fst sg)) eqn:Eq; [|reflexivity]. cbn [andb].
    destruct (text_eqb (snd sg) body) eqn:Eb; [|reflexivity].
    apply char_eqb_eq in Eq. apply text_eqb_eq in Eb.
    destruct sh as [q0 b0 b0' | q0 pre pre']; cbn [fires avoids] in *.
    + apply andb_true_iff in Hf as [Hf1 Hf2].
      apply char_eqb_eq in Hf1. apply text_eqb_eq in Hf2.
      rewrite Hf1, <- Eq, char_eqb_refl in Ha.
      rewrite <- Hf2, Eb, text_eqb_refl in Ha. discriminate.
    + unfold opens in Hf. apply andb_true_iff in Hf as [_ Hf].
      rewrite Eb in Hf. rewrite Hf in Ha. discriminate.
Qed.

Lemma hit_head_isk (q : char) (body : text) (sg : seg) (rest : list seg) :
  hit_head q body (sg :: rest)
  = isk q body sg
    && match nextq rest with Some q2 => char_eqb q q2 | None => false end.
Proof. destruct sg as [q1 w1]. reflexivity. Qed.

Lemma alike_hits (q : char) (body : text) (segs segs' : list seg) :
  Forall2 (alike q body) segs segs' ->
  hit_head q body segs' = hit_head q body segs
  /\ any_hit q body segs' = any_hit q body segs
  /\ no_adj q body segs' = no_adj q body segs.
Proof.
  induction 1 as [|sg sg' rest rest' [Hq Hk] HF (IH1 & IH2 & IH3)];
    [repeat split|].
  assert (Hn : nextq rest' = nextq rest).
  { destruct HF as [|[q1 w1] [q2 w2] ? ? [E _] _]; [reflexivity|].
    cbn in E. subst. reflexivity. }
  assert (Hh : hit_head q body (sg' :: rest') = hit_head q body (sg :: rest)).
  { rewrite !hit_head_isk, Hk, Hn. reflexivity. }
  split; [exact Hh|]. split.
  - cbn [any_hit]. rewrite Hh, IH2. reflexivity.
  - cbn [no_adj]. rewrite Hh, IH1, IH3. reflexivity.
Qed.

Lemma Forall2_weaken {A B : Type} (P Q : A -> B -> Prop) (l : list A)
      (l' : list B) :
  (forall a b, P a b -> Q a b) -> Forall2 P l l' -> Forall2 Q l l'.
Proof. intros H. induction 1; constructor; auto. Qed.

(** A rule that avoids [(q, body)] keeps the matches of that rule where
    they are. *)
Lemma srep_keeps_hits (sh : shape) (q : char) (body : text)
      (segs : list seg) :
  good sh = true -> avoids q body sh = true -> live body = true ->
  any_hit q body (srep sh segs) = any_hit q body segs
  /\ no_adj q body (srep sh segs) = no_adj q body segs.
Proof.
  intros Hg Ha Hl.
  apply (alike_hits q body segs (srep sh segs)).
  apply (Forall2_weaken (touch sh)); [|apply srep_touch, Hg].
  intros a b. apply touch_alike; assumption.
Qed.

Lemma no_adj_false_cons (q : char) (body : text) (sg : seg)
      (rest : list seg) :
  no_adj q body (sg :: rest) = false ->
  (hit_head q body (sg :: rest) = true /\ hit_head q body rest = true)
  \/ no_adj q body rest = false.
Proof.
  cbn [no_adj]. intros H. apply andb_false_iff in H as [H|H]; [left|right; exact H].
  apply negb_false_iff, andb_true_iff in H. exact H.
Qed.

(** Of two matches next to each other the scan leaves the second. *)
Lemma crep_leaves_overlapped (q : char) (body body' : text)
      (segs : list seg) :
  no_adj q body segs = false ->
  any_hit q body (crep q body body' segs) = true.
Proof.
  remember (List.length segs) as n eqn:En. revert segs En.
  induction n as [n IH] using lt_wf_ind. intros segs En Hna.
  destruct segs as [|[q1 w1] rest]; [discriminate|].
  apply no_adj_false_cons in Hna. cbn [crep].
  destruct (hitc q body q1 w1 (nextq rest)) eqn:Hh.
  - destruct rest as [|sg2 rest'].
    { apply hitc_true in Hh as (_ & _ & Hh). discriminate. }
    cbn [any_hit].
    destruct (hit_head q body (sg2 :: rest')) eqn:H2.
    + rewrite (hit_head_isk q body sg2 (crep q body body' rest')).
      rewrite nextq_crep, <- hit_head_isk, H2.
      rewrite orb_true_r. reflexivity.
    + destruct Hna as [[_ Hna]|Hna]; [congruence|].
      apply no_adj_false_cons in Hna. destruct Hna as [[Hna _]|Hna];
        [congruence|].
      rewrite (IH (List.length rest'));
        [|subst n; simpl; lia|reflexivity|exact Hna].
      rewrite !orb_true_r. reflexivity.
  - destruct Hna as [[Hna _]|Hna]; [cbn [hit_head] in Hna; congruence|].
    cbn [any_hit].
    rewrite (IH (List.length rest)); [|subst n; simpl; lia|reflexivity|exact Hna].
    apply orb_true_r.
Qed.

Lemma live_count_cons (sg : seg) (rest : list seg) :
  live_count (sg :: rest)
  = (if live (snd sg) then 1 else 0) + live_count rest.
Proof.
  unfold live_count. cbn [filter]. destruct (live (snd sg)); reflexivity.
Qed.

Lemma touch_live_count (sh : shape) (segs segs' : list seg) :
  good sh = true -> Forall2 (touch sh) segs segs' ->
  live_count segs' <= live_count segs.
Proof.
  intros Hg. induction 1 as [|sg sg' rest rest' [_ Hw] _ IH]; [apply le_n|].
  rewrite !live_count_cons. destruct Hw as [Hw | [Hf Hl]].
  - rewrite Hw. lia.
  - rewrite Hl. destruct (live (snd sg)); lia.
Qed.

Lemma srep_live_count (sh : shape) (segs : list seg) :
  good sh = true -> live_count (srep sh segs) <= live_count segs.
Proof.
  intros Hg. apply (touch_live_count sh); [exact Hg | apply srep_touch, Hg].
Qed.

Lemma crep_live_count_lt (q : char) (body body' : text) (segs : list seg) :
  good (Closed q body body') = true ->
  any_hit q body segs = true ->
  live_count (crep q body body' segs) < live_count segs.
Proof.
  intros Hg. pose proof (good_closed _ _ _ Hg) as (_ & _ & _ & Hl & Hl').
  induction segs as [|[q1 w1] rest IH]; [discriminate|].
  intros Hh. cbn [any_hit hit_head] in Hh.
  pose proof (srep_live_count (Closed q body body') rest Hg) as Hle.
  cbn [srep] in Hle. cbn [crep].
  destruct (hitc q body q1 w1 (nextq rest)) eqn:E.
  - apply hitc_true in E as (_ & -> & _).
    rewrite !live_count_cons. cbn [snd]. rewrite Hl, Hl'.
    destruct rest as [|sg2 rest']; [cbn; lia|].
    pose proof (srep_live_count (Closed q body body') rest' Hg) as Hle'.
    cbn [srep] in Hle'. rewrite !live_count_cons. lia.
  - cbn [orb] in Hh. specialize (IH Hh). rewrite !live_count_cons. lia.
Qed.

Lemma shape_eqb_eq (a b : shape) : shape_eqb a b = true <-> a = b.
Proof.
  destruct a as [q x y | q x y], b as [q' x' y' | q' x' y']; cbn [shape_eqb];
    try (split; [discriminate | intros E; discriminate E]);
    rewrite !andb_true_iff, char_eqb_eq, !text_eqb_eq;
    (split; [intros [[-> ->] ->]; reflexivity
            | intros E; injection E as -> -> ->; auto]).
Qed.

Section OneRule.

Variables (q : char) (body body' : text).
Let k : shape := Closed q body body'.

Hypothesis k_good : good k = true.

Let around : list shape -> Prop := all_around k q body.

Lemma around_tail (sh : shape) (L : list shape) :
  around (sh :: L) -> around L.
Proof. intros H x Hx. apply H. right. exact Hx. Qed.

Lemma live_body : live body = true.
Proof. apply (good_closed _ _ _ k_good). Qed.

Lemma sreps_keeps_hit (L : list shape) (segs : list seg) :
  around L -> ~ In k L ->
  any_hit q body segs = true -> any_hit q body (sreps L segs) = true.
Proof.
  revert segs; induction L as [|sh L IH]; intros segs HL Hk Hh; [exact Hh|].
  cbn [sreps]. apply IH.
  - apply (around_tail _ _ HL).
  - intros Hin. apply Hk. right. exact Hin.
  - destruct (HL sh (or_introl eq_refl)) as [Hg [E|Ha]].
    + exfalso. apply Hk. left. exact E.
    + rewrite (proj1 (srep_keeps_hits sh q body segs Hg Ha live_body)).
      exact Hh.
Qed.

Lemma sreps_leaves_overlapped (L : list shape) (segs : list seg) :
  around L -> NoDup L -> In k L ->
  no_adj q body segs = false -> any_hit q body (sreps L segs) = true.
Proof.
  revert segs; induction L as [|sh L IH]; intros segs HL Hnd Hk Hna;
    [destruct Hk|].
  inversion Hnd as [|sh' L' Hsh HndL]; subst.
  cbn [sreps]. destruct (HL sh (or_introl eq_refl)) as [Hg [E|Ha]].
  - subst sh. apply sreps_keeps_hit;
      [apply (around_tail _ _ HL) | exact Hsh |].
    apply crep_leaves_overlapped, Hna.
  - apply IH; [apply (around_tail _ _ HL) | exact HndL | |].
    + destruct Hk as [E|Hk]; [|exact Hk].
      subst sh. cbn [avoids k] in Ha.
      rewrite char_eqb_refl, text_eqb_refl in Ha. discriminate.
    + rewrite (proj2 (srep_keeps_hits sh q body segs Hg Ha live_body)).
      exact Hna.
Qed.

Lemma sreps_live_count (L : list shape) (segs : list seg) :
  around L -> live_count (sreps L segs) <= live_count segs.
Proof.
  revert segs; induction L as [|sh L IH]; intros segs HL; [apply le_n|].
  cbn [sreps]. destruct (HL sh (or_introl eq_refl)) as [Hg _].
  pose proof (IH (srep sh segs) (around_tail _ _ HL)).
  pose proof (srep_live_count sh segs Hg). lia.
Qed.

Lemma sreps_live_count_lt (L : list shape) (segs : list seg) :
  around L -> In k L -> any_hit q body segs = true ->
  live_count (sreps L segs) < live_count segs.
Proof.
  revert segs; induction L as [|sh L IH]; intros segs HL Hk Hh;
    [destruct Hk|].
  cbn [sreps]. destruct (HL sh (or_introl eq_refl)) as [Hg [E|Ha]].
  - subst sh.
    pose proof (sreps_live_count L (srep k segs) (around_tail _ _ HL)).
    pose proof (crep_live_count_lt q body body' segs k_good Hh).
    cbn [srep k] in *. lia.
  - assert (Hk' : In k L).
    { destruct Hk as [E|Hk]; [|exact Hk].
      subst sh. cbn [avoids k] in Ha.
      rewrite char_eqb_refl, text_eqb_refl in Ha. discriminate. }
    pose proof (srep_live_count sh segs Hg).
    assert (Hh' : any_hit q body (srep sh segs) = true).
    { rewrite (proj1 (srep_keeps_hits sh q body segs Hg Ha live_body)).
      exact Hh. }
    pose proof (IH (srep sh segs) (around_tail _ _ HL) Hk' Hh'). lia.
Qed.

End OneRule.

Lemma startswith_word_then (q : char) (P body w t : text) :
  is_quote q = true -> quote_free body = true -> quote_free w = true ->
  quoted_start t ->
  startswith (body ++ q :: P) (w ++ t)
  = text_eqb w body && startswith (q :: P) t.
Proof.
  intros Hq Hb Hw Ht. revert w Hw.
  induction body as [|b body IH]; intros [|c w] Hw.
  - reflexivity.
  - apply quote_free_cons in Hw as [Hc _].
    cbn [app startswith text_eqb]. rewrite (quote_differs _ _ Hq Hc).
    reflexivity.
  - apply quote_free_cons in Hb as [Hb' _].
    cbn [app text_eqb andb]. destruct t as [|x t]; [reflexivity|].
    cbn [startswith]. simpl in Ht.
    rewrite char_eqb_sym, (quote_differs _ _ Ht Hb'). reflexivity.
  - apply quote_free_cons in Hb as [_ Hb].
    apply quote_free_cons in Hw as [_ Hw].
    cbn [app startswith text_eqb]. rewrite (IH Hb _ Hw).
    rewrite (char_eqb_sym b c), andb_assoc. reflexivity.
Qed.

Lemma startswith_closed_any (q : char) (body : text) (segs : list seg) :
  is_quote q = true -> quote_free body = true -> well_cut segs = true ->
  startswith (q :: body ++ [q]) (flat segs) = hit_head q body segs.
Proof.
  intros Hq Hb Hwc. destruct segs as [|[q1 w1] rest]; [reflexivity|].
  apply startswith_closed; assumption.
Qed.

Lemma startswith_doubled (q : char) (body : text) (sg : seg)
      (rest : list seg) :
  is_quote q = true -> quote_free body = true ->
  well_cut (sg :: rest) = true ->
  startswith (q :: body ++ q :: body ++ [q]) (flat (sg :: rest))
  = hit_head q body (sg :: rest) && hit_head q body rest.
Proof.
  intros Hq Hb Hwc. destruct sg as [q1 w1].
  apply well_cut_cons in Hwc as (_ & Hw & Hrest).
  rewrite flat_cons. cbn [startswith].
  rewrite (startswith_word_then q (body ++ [q]) body w1 (flat rest) Hq Hb Hw
             (flat_quoted _ Hrest)).
  rewrite (startswith_closed_any q body rest Hq Hb Hrest).
  cbn [hit_head]. unfold hitc.
  destruct (hit_head q body rest) eqn:E; [|rewrite !andb_false_r; reflexivity].
  destruct rest as [|[q2 w2] rest']; [discriminate|].
  cbn [hit_head] in E. apply hitc_true in E as (-> & _ & _).
  cbn [nextq]. rewrite char_eqb_refl, !andb_true_r. reflexivity.
Qed.

(** A doubled pattern occurs exactly where two matches are next to each
    other. *)
Lemma contains_doubled_flat (q : char) (body w0 : text) (segs : list seg) :
  is_quote q = true -> quote_free body = true ->
  quote_free w0 = true -> well_cut segs = true ->
  contains (q :: body ++ q :: body ++ [q]) (w0 ++ flat segs)
  = negb (no_adj q body segs).
Proof.
  intros Hq Hb Hw0 Hwc. rewrite (contains_word q _ w0 _ Hq Hw0).
  induction segs as [|[q1 w1] rest IH]; [reflexivity|].
  pose proof (startswith_doubled q body _ _ Hq Hb Hwc) as Hs.
  apply well_cut_cons in Hwc as (_ & Hw1 & Hwc).
  rewrite flat_cons in *. cbn [contains no_adj].
  rewrite Hs, (contains_word q _ w1 _ Hq Hw1), (IH Hwc).
  rewrite negb_andb, negb_involutive. reflexivity.
Qed.

Lemma forallb_false {A : Type} (f : A -> bool) (l : list A) :
  forallb f l = false -> exists x, In x l /\ f x = false.
Proof.
  induction l as [|x l IH]; [discriminate|]. cbn [forallb].
  intros H. apply andb_false_iff in H as [H|H].
  - exists x. split; [left; reflexivity | exact H].
  - destruct (IH H) as (y & Hy & Hf). exists y. split; [right|]; assumption.
Qed.

Lemma shape_of_overlap (s : text) :
  overlap_free s = false ->
  exists q body body',
    In (Closed q body body') SHAPES
    /\ contains (q :: body ++ q :: body ++ [q]) s = true.
Proof.
  unfold overlap_free. rewrite <- shapes_table. intros H.
  apply forallb_false in H as (r & Hr & Hf).
  apply in_map_iff in Hr as (sh & <- & Hin).
  apply negb_false_iff, andb_true_iff in Hf as [Hso Hc].
  destruct sh as [q body body' | q pre pre']; cbn [rule_of fst] in *.
  - exists q, body, body'. rewrite doubled_closed in Hc. auto.
  - exfalso. cbn [SHAPES In] in Hin.
    repeat (destruct Hin as [Hin|Hin]; [try discriminate|]);
      try (injection Hin as <- <- <-; vm_compute in Hso; discriminate).
    destruct Hin.
Qed.

Lemma shapes_around (q : char) (body body' : text) :
  In (Closed q body body') SHAPES ->
  all_around (Closed q body body') q body SHAPES.
Proof.
  assert (H : forallb (fun k =>
                match k with
                | Closed q body _ =>
                    forallb (fun sh => good sh
                                       && (shape_eqb sh k || avoids q body sh))
                            SHAPES
                | Opening _ _ _ => true
                end) SHAPES = true)
    by (vm_compute; reflexivity).
  rewrite forallb_forall in H. intros Hk. specialize (H _ Hk).
  cbv beta iota in H.
  rewrite forallb_forall in H. intros sh Hsh. specialize (H _ Hsh).
  apply andb_true_iff in H as [Hg H]. split; [exact Hg|].
  apply orb_true_iff in H as [H|H]; [left; apply shape_eqb_eq, H | right; exact H].
Qed.

Lemma shapes_nodup : NoDup SHAPES.
Proof.
  assert (H : distinct SHAPES = true) by (vm_compute; reflexivity).
  revert H. generalize SHAPES. induction l as [|sh l IH]; [constructor|].
  cbn [distinct]. intros H. apply andb_true_iff in H as [H1 H2].
  constructor; [|apply IH, H2].
  intros Hin. apply negb_true_iff in H1.
  assert (existsb (shape_eqb sh) l = true); [|congruence].
  apply existsb_exists. exists sh. split; [exact Hin|].
  apply shape_eqb_eq. reflexivity.
Qed.

Lemma flat_injective (A B : list seg) :
  well_cut A = true -> well_cut B = true -> flat A = flat B -> A = B.
Proof.
  intros HA HB E.
  pose proof (parse_unique A HA [] eq_refl) as PA.
  pose proof (parse_unique B HB [] eq_refl) as PB.
  cbn [app] in PA, PB. rewrite E, PB in PA. injection PA as ->. reflexivity.
Qed.

(** A text in which a pattern overlaps its own next occurrence is
    rewritten in two steps. *)
Lemma overlap_needs_two (s : text) :
  overlap_free s = false -> transform (transform s) <> transform s.
Proof.
  intros Hof.
  destruct (shape_of_overlap s Hof) as (q & body & body' & Hin & Hc).
  assert (Hg : good (Closed q body body') = true).
  { pose proof shapes_good as H. rewrite forallb_forall in H.
    apply H, Hin. }
  pose proof (good_closed _ _ _ Hg) as (Hq & Hb & _).
  destruct (parse_flat s) as (Es & Hw0 & Hwc).
  destruct (parse s) as [w0 segs]. cbn [fst snd] in *.
  rewrite Es in Hc.
  rewrite (contains_doubled_flat q body w0 segs Hq Hb Hw0 Hwc) in Hc.
  apply negb_true_iff in Hc.
  pose proof (shapes_around q body body' Hin) as Har.
  pose proof (sreps_leaves_overlapped q body body' Hg SHAPES segs Har
                shapes_nodup Hin Hc) as Hh.
  set (segs1 := sreps SHAPES segs) in *.
  assert (Hwc1 : well_cut segs1 = true)
    by (apply well_cut_sreps; [exact shapes_good | exact Hwc]).
  pose proof (sreps_live_count_lt q body body' Hg SHAPES segs1 Har Hin Hh)
    as Hlt.
  rewrite Es, (transform_sreps w0 segs Hw0 Hwc). fold segs1.
  rewrite (transform_sreps w0 segs1 Hw0 Hwc1). intros E.
  apply app_inv_head in E. apply flat_injective in E;
    [|apply well_cut_sreps; [exact shapes_good | exact Hwc1] | exact Hwc1].
  rewrite E in Hlt. lia.
Qed.

(** X7.  The rewriting is idempotent on a text exactly when no pattern
    overlaps its own next occurrence in it: on every other text a second
    application changes the result of the first. *)
Theorem transform_idempotent_exactly (s : text) :
  transform (transform s) = transform s <-> overlap_free s = true.
Proof.
  split.
  - intros E. destruct (overlap_free s) eqn:Hof; [reflexivity|].
    destruct (overlap_needs_two s Hof E).
  - apply overlap_free_idempotent.
Qed.

Lemma transform_idempotent_exactly_witness :
  overlap_free (codes "import x from '@platform/core';") = true.
Proof.
  apply transform_idempotent_exactly. vm_compute. reflexivity.
Defined.

(** ** The order of the table *)

Lemma sfun_changes (sh : shape) (q1 : char) (w : text) (n : option char) :
  good sh = true -> sfun sh q1 w n <> w ->
  fires sh (q1, w) = true /\ live (sfun sh q1 w n) = false.
Proof.
  intros Hg Hne. destruct (sfun_result sh q1 w n Hg) as [E|E]; [congruence|].
  split; [|exact E].
  destruct sh as [q body body' | q pre pre']; cbn [sfun fires] in *.
  - unfold cfun in Hne. destruct (hitc q body q1 w n) eqn:Hh; [|congruence].
    apply hitc_true in Hh as (-> & -> & _). cbn [fst snd].
    rewrite char_eqb_refl, text_eqb_refl. reflexivity.
  - unfold ofun in Hne. unfold opens. cbn [fst snd].
    destruct (char_eqb q q1 && startswith pre w); congruence.
Qed.

Lemma fires_closed_avoided (q : char) (body body' : text) (b : shape)
      (sg : seg) :
  avoids q body b = true ->
  fires (Closed q body body') sg = true -> fires b sg = false.
Proof.
  intros Ha Hf. cbn [fires] in Hf. apply andb_true_iff in Hf as [Hq Hw].
  apply char_eqb_eq in Hq. apply text_eqb_eq in Hw.
  destruct b as [qb bb bb' | qb pre pre']; cbn [avoids fires] in *.
  - destruct (char_eqb qb (fst sg)) eqn:E1; [|reflexivity].
    destruct (text_eqb (snd sg) bb) eqn:E2; [|reflexivity].
    apply char_eqb_eq in E1. apply text_eqb_eq in E2.
    rewrite E1, <- Hq, char_eqb_refl, <- Hw, E2, text_eqb_refl in Ha.
    discriminate.
  - unfold opens. rewrite Hw. apply negb_true_iff in Ha. rewrite Ha.
    apply andb_false_r.
Qed.

(** At most one rule of the table can change a given segment. *)
Lemma fires_unique (a b : shape) (sg : seg) :
  In a SHAPES -> In b SHAPES ->
  fires a sg = true -> fires b sg = true -> a = b.
Proof.
  intros Ha Hb Fa Fb.
  destruct a as [qa ba ba' | qa pa pa'].
  - destruct (shapes_around qa ba ba' Ha b Hb) as [_ [E|Hav]];
      [symmetry; exact E|].
    rewrite (fires_closed_avoided _ _ _ _ _ Hav Fa) in Fb. discriminate.
  - destruct b as [qb bb bb' | qb pb pb'].
    + destruct (shapes_around qb bb bb' Hb _ Ha) as [_ [E|Hav]]; [exact E|].
      rewrite (fires_closed_avoided _ _ _ _ _ Hav Fb) in Fa. discriminate.
    + assert (H : forallb (fun a => forallb (fun b =>
                   match a, b with
                   | Opening qa _ _, Opening qb _ _ =>
                       shape_eqb a b || negb (char_eqb qa qb)
                   | _, _ => true
                   end) SHAPES) SHAPES = true)
        by (vm_compute; reflexivity).
      rewrite forallb_forall in H. specialize (H _ Ha). cbv beta in H.
      rewrite forallb_forall in H. specialize (H _ Hb). cbv beta iota in H.
      apply orb_true_iff in H as [H|H]; [apply shape_eqb_eq, H|].
      cbn [fires] in Fa, Fb. unfold opens in Fa, Fb.
      apply andb_true_iff in Fa as [Fa _]. apply andb_true_iff in Fb as [Fb _].
      apply char_eqb_eq in Fa, Fb. rewrite Fa, Fb, char_eqb_refl in H.
      discriminate.
Qed.

Lemma in_shapes_good (sh : shape) : In sh SHAPES -> good sh = true.
Proof.
  pose proof shapes_good as H. rewrite forallb_forall in H. apply H.
Qed.

Lemma sfun_commute (a b : shape) (q1 : char) (w : text) (n : option char) :
  In a SHAPES -> In b SHAPES ->
  sfun a q1 (sfun b q1 w n) n = sfun b q1 (sfun a q1 w n) n.
Proof.
  intros Ha Hb.
  pose proof (in_shapes_good a Ha) as Ga.
  pose proof (in_shapes_good b Hb) as Gb.
  destruct (text_eqb (sfun a q1 w n) w) eqn:Ea;
    destruct (text_eqb (sfun b q1 w n) w) eqn:Eb.
  - apply text_eqb_eq in Ea, Eb. rewrite Ea, Eb, Ea. reflexivity.
  - apply text_eqb_eq in Ea. apply text_eqb_neq in Eb.
    rewrite Ea. apply sfun_inert; [exact Ga|].
    apply (sfun_changes b q1 w n Gb Eb).
  - apply text_eqb_eq in Eb. apply text_eqb_neq in Ea.
    rewrite Eb. symmetry. apply sfun_inert; [exact Gb|].
    apply (sfun_changes a q1 w n Ga Ea).
  - apply text_eqb_neq in Ea, Eb.
    rewrite (fires_unique a b (q1, w) Ha Hb
               (proj1 (sfun_changes a q1 w n Ga Ea))
               (proj1 (sfun_changes b q1 w n Gb Eb))).
    reflexivity.
Qed.

Lemma sfuns_permutation (L1 L2 : list shape) (q1 : char) (n : option char) :
  Permutation L1 L2 -> (forall x, In x L1 -> In x SHAPES) ->
  forall w, sfuns L1 q1 w n = sfuns L2 q1 w n.
Proof.
  induction 1 as [|x l l' HP IH | x y l | l l' l'' HP1 IH1 HP2 IH2];
    intros Hin w.
  - reflexivity.
  - cbn [sfuns]. apply IH. intros z Hz. apply Hin. right. exact Hz.
  - cbn [sfuns]. f_equal. apply sfun_commute; apply Hin; cbn; auto.
  - rewrite (IH1 Hin). apply IH2. intros z Hz. apply Hin.
    apply (Permutation_in _ (Permutation_sym HP1) Hz).
Qed.

(** X8.  On a text in which no pattern overlaps its own next occurrence
    the order of the entries of the table does not matter: the rules
    applied in any other order give the same buffer. *)
Theorem table_order_irrelevant (rules : list (text * text)) (s : text) :
  Permutation REPLACEMENTS rules ->
  overlap_free s = true ->
  apply_rules rules s = transform s.
Proof.
  intros HP Hof. rewrite <- shapes_table in HP.
  apply Permutation_sym, Permutation_map_inv in HP as (shs & -> & HP).
  assert (Hin : forall x, In x shs -> In x SHAPES).
  { intros x Hx. apply (Permutation_in _ (Permutation_sym HP) Hx). }
  assert (Hg : forallb good shs = true).
  { apply forallb_forall. intros x Hx. apply in_shapes_good, Hin, Hx. }
  destruct (parse_flat s) as (Es & Hw0 & Hwc).
  pose proof (overlap_free_calm s _ _ Hof Es) as Hc.
  assert (Hc' : calm shs (snd (parse s)) = true).
  { unfold calm in *. rewrite forallb_forall in *.
    intros x Hx. apply Hc, Hin, Hx. }
  rewrite Es at 2. rewrite (transform_calm _ _ Hw0 Hwc Hc).
  rewrite Es at 1. rewrite (apply_rules_sreps shs _ _ Hg Hw0 Hwc).
  rewrite (sreps_lmap shs _ Hg Hc'). f_equal. f_equal.
  apply lmapn_ext. intros q w n. symmetry.
  apply (sfuns_permutation SHAPES shs q n HP (fun x H => H)).
Qed.

Lemma table_order_irrelevant_witness :
  apply_rules (rev REPLACEMENTS)
              (codes "import u from '@platform/ui-kit';")
  = transform (codes "import u from '@platform/ui-kit';").
Proof.
  apply table_order_irrelevant.
  - apply Permutation_rev.
  - vm_compute. reflexivity.
Defined.

(** ** A quoted name that stands alone *)

Lemma isk_miss (q : char) (body : text) (x : char) (m : text)
      (n : option char) :
  isk q body (x, m) = false -> hitc q body x m n = false.
Proof. unfold isk, hitc. cbn [fst snd]. intros ->. reflexivity. Qed.

(** The scan of a closed rule passes a segment that has not both the
    quote and the word of the rule: what comes before is scanned as if
    the text ended with that quote, and the scan starts afresh after
    it. *)
Lemma crep_pass (q : char) (body body' : text) (x : char) (m : text)
      (A : list seg) :
  body <> [] -> isk q body (x, m) = false ->
  exists A1,
    crep q body body' (A ++ [(x, [])]) = A1 ++ [(x, [])]
    /\ forall B,
         crep q body body' (A ++ (x, m) :: B)
         = A1 ++ (x, m) :: crep q body body' B.
Proof.
  intros Hb Hk.
  assert (Hmiss : forall n, hitc q body x m n = false)
    by (intros n; apply isk_miss, Hk).
  assert (Hmiss0 : forall n, hitc q body x [] n = false).
  { intros n. destruct (hitc q body x [] n) eqn:E; [|reflexivity].
    apply hitc_true in E as (_ & E & _). congruence. }
  remember (List.length A) as k eqn:Ek. revert A Ek.
  induction k as [k IH] using lt_wf_ind. intros A Ek.
  destruct A as [|[q1 w1] A'].
  - exists []. split.
    + cbn [app crep]. rewrite Hmiss0. reflexivity.
    + intros B. cbn [app crep]. rewrite Hmiss. reflexivity.
  - change (((q1, w1) :: A') ++ [(x, [])])
      with ((q1, w1) :: (A' ++ [(x, [])])).
    cbn [crep]. rewrite nextq_app_cons.
    destruct (hitc q body q1 w1
                (match nextq A' with Some q0 => Some q0 | None => Some x end))
      eqn:Hh.
    + destruct A' as [|sg2 A''].
      * exists [(q1, body')]. split; [reflexivity|].
        intros B. cbn [app crep nextq]. cbn [nextq] in Hh.
        rewrite Hh. reflexivity.
      * destruct (IH (List.length A'')) with (A := A'') as (A1 & E1 & E2);
          [subst k; simpl; lia | reflexivity |].
        exists ((q1, body') :: sg2 :: A1). split.
        -- cbn [app]. rewrite E1. reflexivity.
        -- intros B.
           change (((q1, w1) :: sg2 :: A'') ++ (x, m) :: B)
             with ((q1, w1) :: sg2 :: (A'' ++ (x, m) :: B)).
           cbn [crep nextq]. destruct sg2 as [q2 w2]. cbn [nextq] in Hh.
           rewrite Hh, E2. reflexivity.
    + destruct (IH (List.length A')) with (A := A') as (A1 & E1 & E2);
        [subst k; simpl; lia | reflexivity |].
      exists ((q1, w1) :: A1). split.
      * rewrite E1. reflexivity.
      * intros B.
        change (((q1, w1) :: A') ++ (x, m) :: B)
          with ((q1, w1) :: (A' ++ (x, m) :: B)).
        cbn [crep]. rewrite nextq_app_cons, Hh, E2. reflexivity.
Qed.

Lemma srep_pass (sh : shape) (x : char) (m : text) (A : list seg) :
  good sh = true -> fires sh (x, m) = false ->
  exists A1,
    srep sh (A ++ [(x, [])]) = A1 ++ [(x, [])]
    /\ forall B, srep sh (A ++ (x, m) :: B) = A1 ++ (x, m) :: srep sh B.
Proof.
  intros Hg Hf. destruct sh as [q body body' | q pre pre'];
    cbn [srep fires] in *.
  - apply good_closed in Hg as (_ & _ & _ & Hl & _).
    apply (crep_pass q body body' x m A (live_nonempty _ Hl) Hf).
  - exists (lmapn (ofun q pre pre') (Some x) A). split.
    + rewrite lmap_app, lmap_cons. cbn [nextq].
      pose proof (sfun_inert (Opening q pre pre') x [] None Hg eq_refl) as E.
      cbn [sfun] in E. rewrite E. reflexivity.
    + intros B. rewrite lmap_app, lmap_cons. unfold ofun at 2.
      unfold opens in Hf. cbn [fst snd] in Hf. rewrite Hf. reflexivity.
Qed.

Lemma avoids_fires (q : char) (body : text) (sh : shape) :
  avoids q body sh = true -> fires sh (q, body) = false.
Proof.
  destruct sh as [q0 b0 b0' | q0 pre pre']; unfold avoids, fires, opens;
    cbn [fst snd]; intros H; apply negb_true_iff in H.
  - exact H.
  - rewrite H. apply andb_false_r.
Qed.

Lemma nextq_srep (sh : shape) (segs : list seg) :
  nextq (srep sh segs) = nextq segs.
Proof. apply nextq_map_fst, (map_fst_sreps [sh] segs). Qed.

Lemma nextq_sreps (shs : list shape) (segs : list seg) :
  nextq (sreps shs segs) = nextq segs.
Proof. apply nextq_map_fst, map_fst_sreps. Qed.

Section StandsAlone.

Variables (q : char) (body body' : text).
Let k : shape := Closed q body body'.

Hypothesis k_good : good k = true.

Let around : list shape -> Prop := all_around k q body.

Lemma isk_default : isk q body (q, []) = false.
Proof.
  pose proof (live_nonempty _ (live_body q body body' k_good)) as Hb.
  unfold isk. cbn [fst snd]. destruct body; [congruence|].
  apply andb_false_r.
Qed.

Lemma last_isk_tail (sg : seg) (A : list seg) :
  isk q body (last (sg :: A) (q, [])) = false ->
  isk q body (last A (q, [])) = false.
Proof.
  destruct A as [|sg2 A]; intros H; [apply isk_default | exact H].
Qed.

Lemma last_isk_split (A : list seg) :
  isk q body (last A (q, [])) = true -> exists A0, A = A0 ++ [(q, body)].
Proof.
  induction A as [|[x m] A _] using rev_ind; intros H.
  - cbn [last] in H. rewrite isk_default in H. discriminate.
  - rewrite last_last in H. unfold isk in H. cbn [fst snd] in H.
    apply andb_true_iff in H as [H1 H2].
    apply char_eqb_eq in H1. apply text_eqb_eq in H2. subst.
    exists A. reflexivity.
Qed.

Lemma alike_last_isk (A A1 : list seg) :
  Forall2 (alike q body) A A1 ->
  isk q body (last A1 (q, [])) = isk q body (last A (q, [])).
Proof.
  induction 1 as [|sg sg' rest rest' [_ Hk] HF IH]; [reflexivity|].
  destruct HF as [|sg2 sg2' r r' H2 HF']; [exact Hk | exact IH].
Qed.

Lemma alike_before_quote (A A1 : list seg) :
  Forall2 (alike q body) (A ++ [(q, [])]) (A1 ++ [(q, [])]) ->
  Forall2 (alike q body) A A1.
Proof.
  intros H. apply Forall2_app_inv_l in H as (l1 & l2 & H1 & H2 & E).
  inversion H2 as [|a b l l' _ Hnil]; subst. inversion Hnil; subst.
  apply app_inj_tail in E as [-> _]. exact H1.
Qed.

(** The rule's own scan at an occurrence that stands alone. *)
Lemma crep_at (A R : list seg) :
  isk q body (last A (q, [])) = false ->
  hit_head q body R = false -> nextq R = Some q ->
  exists A1,
    crep q body body' (A ++ [(q, [])]) = A1 ++ [(q, [])]
    /\ crep q body body' (A ++ (q, body) :: R)
       = A1 ++ (q, body') :: crep q body body' R.
Proof.
  intros HA HR Hn.
  assert (Hmiss0 : forall n, hitc q body q [] n = false)
    by (intros n; apply isk_miss, isk_default).
  assert (Hhit : hitc q body q body (Some q) = true).
  { apply hitc_true. auto. }
  remember (List.length A) as n eqn:En. revert A En HA.
  induction n as [n IH] using lt_wf_ind. intros A En HA.
  destruct A as [|[q1 w1] A'].
  - exists []. split.
    + cbn [app crep]. rewrite Hmiss0. reflexivity.
    + cbn [app crep]. rewrite Hn, Hhit.
      destruct R as [|[q2 w2] R']; [discriminate|].
      cbn [hit_head] in HR. cbn [crep]. rewrite HR. reflexivity.
  - change (((q1, w1) :: A') ++ [(q, [])])
      with ((q1, w1) :: (A' ++ [(q, [])])).
    change (((q1, w1) :: A') ++ (q, body) :: R)
      with ((q1, w1) :: (A' ++ (q, body) :: R)).
    cbn [crep]. rewrite !nextq_app_cons.
    destruct (hitc q body q1 w1
                (match nextq A' with Some q0 => Some q0 | None => Some q end))
      eqn:Hh.
    + destruct A' as [|sg2 A''].
      * exfalso. apply hitc_true in Hh as (-> & -> & _).
        cbn [last] in HA. unfold isk in HA. cbn [fst snd] in HA.
        rewrite char_eqb_refl, text_eqb_refl in HA. discriminate.
      * destruct (IH (List.length A'')) with (A := A'') as (A1 & E1 & E2);
          [subst n; simpl; lia | reflexivity
          | apply (last_isk_tail sg2), (last_isk_tail (q1, w1)), HA |].
        exists ((q1, body') :: sg2 :: A1). split.
        -- cbn [app]. rewrite E1. reflexivity.
        -- cbn [app]. rewrite E2. reflexivity.
    + destruct (IH (List.length A')) with (A := A') as (A1 & E1 & E2);
        [subst n; simpl; lia | reflexivity
        | apply (last_isk_tail (q1, w1)), HA |].
      exists ((q1, w1) :: A1). split.
      * rewrite E1. reflexivity.
      * rewrite E2. reflexivity.
Qed.

Lemma around_good (L : list shape) : around L -> forallb good L = true.
Proof.
  intros HL. apply forallb_forall. intros sh Hsh. apply (HL sh Hsh).
Qed.

(** The rules of a table in which every other rule avoids the segments
    of [k], at an occurrence that stands alone. *)
Lemma sreps_at (L : list shape) (A R : list seg) :
  around L -> NoDup L -> In k L ->
  isk q body (last A (q, [])) = false ->
  hit_head q body R = false -> nextq R = Some q ->
  exists A1,
    sreps L (A ++ [(q, [])]) = A1 ++ [(q, [])]
    /\ sreps L (A ++ (q, body) :: R) = A1 ++ (q, body') :: sreps L R.
Proof.
  pose proof (good_closed _ _ _ k_good) as (_ & _ & _ & Hl & Hl').
  revert A R; induction L as [|sh L IH]; intros A R HL Hnd Hk HA HR Hn;
    [destruct Hk|].
  inversion Hnd as [|sh' L' Hsh HndL]; subst.
  pose proof (around_tail q body body' _ _ HL) as HL'.
  cbn [sreps]. destruct (HL sh (or_introl eq_refl)) as [Hg [E|Ha]].
  - subst sh. cbn [srep k].
    destruct (crep_at A R HA HR Hn) as (A1 & E1 & E2).
    destruct (sreps_cut L q body' A1 (around_good L HL')) as (A2 & E3 & E4).
    { intros q0 b0 b0' Hin E.
      destruct (HL' _ Hin) as [Hg0 _].
      apply good_closed in Hg0 as (_ & _ & _ & Hl0 & _). congruence. }
    exists A2. split.
    + rewrite E1. exact E3.
    + rewrite E2, E4, (sfuns_inert L q body' None (around_good L HL') Hl').
      reflexivity.
  - assert (Hk' : In k L).
    { destruct Hk as [E|Hk]; [|exact Hk].
      subst sh. cbn [avoids k] in Ha.
      rewrite char_eqb_refl, text_eqb_refl in Ha. discriminate. }
    destruct (srep_pass sh q body A Hg (avoids_fires _ _ _ Ha))
      as (A1 & E1 & E2).
    assert (Hal : forall segs, Forall2 (alike q body) segs (srep sh segs)).
    { intros segs. apply (Forall2_weaken (touch sh)); [|apply srep_touch, Hg].
      intros a b. apply touch_alike; assumption. }
    destruct (IH A1 (srep sh R) HL' HndL Hk') as (A2 & E3 & E4).
    + rewrite (alike_last_isk A A1); [exact HA|].
      apply alike_before_quote.
      pose proof (Hal (A ++ [(q, [])])) as H. rewrite E1 in H. exact H.
    + rewrite (proj1 (alike_hits q body R (srep sh R) (Hal R))). exact HR.
    + rewrite nextq_srep. exact Hn.
    + exists A2. split.
      * rewrite E1. exact E3.
      * rewrite E2. exact E4.
Qed.

End StandsAlone.

Lemma closed_stands_alone (q : char) (body body' a b : text) :
  In (Closed q body body') SHAPES ->
  stands_alone [q] body a b = true ->
  exists a' b',
    transform (a ++ [q]) = a' ++ [q]
    /\ transform ([q] ++ b) = [q] ++ b'
    /\ transform (a ++ ([q] ++ body ++ [q]) ++ b)
       = a' ++ ([q] ++ body' ++ [q]) ++ b'.
Proof.
  intros Hin Hsa.
  assert (Hg : good (Closed q body body') = true).
  { pose proof shapes_good as H. rewrite forallb_forall in H.
    apply H, Hin. }
  pose proof (good_closed _ _ _ Hg) as (Hq & Hb & Hb' & _).
  destruct (parse_flat a) as (Ea & Hw0 & HA).
  destruct (parse_flat b) as (Eb & Hwb & HB).
  destruct (parse a) as [w0 A]. destruct (parse b) as [wb B].
  cbn [fst snd] in *.
  unfold stands_alone in Hsa. apply andb_true_iff in Hsa as [H1 H2].
  apply negb_true_iff in H1. apply negb_true_iff in H2.
  assert (HAk : isk q body (last A (q, [])) = false).
  { destruct (isk q body (last A (q, []))) eqn:Ek; [|reflexivity].
    destruct (last_isk_split q body body' Hg A Ek) as [A0 ->].
    assert (endswith ([q] ++ body) a = true); [|congruence].
    apply endswith_true. exists (w0 ++ flat A0).
    rewrite Ea, flat_app, flat_cons. cbn [flat flat_map].
    rewrite app_nil_r. same_text. }
  pose (R := (q, wb) :: B).
  assert (HRk : hit_head q body R = false).
  { destruct (hit_head q body R) eqn:Eh; [|reflexivity].
    cbn [hit_head R] in Eh. apply hitc_true in Eh as (_ & -> & En).
    destruct B as [|[q2 w2] B']; [discriminate|].
    cbn [nextq] in En. injection En as ->.
    assert (startswith (body ++ [q]) b = true); [|congruence].
    apply startswith_true. exists (w2 ++ flat B').
    rewrite Eb, flat_cons. same_text. }
  assert (HnR : nextq R = Some q) by reflexivity.
  assert (HwR : well_cut R = true) by (apply well_cut_cons; auto).
  assert (EfR : flat R = q :: wb ++ flat B) by reflexivity.
  clearbody R.
  destruct (sreps_at q body body' Hg SHAPES A R
              (shapes_around q body body' Hin) shapes_nodup Hin
              HAk HRk HnR) as (A1 & E1 & E2).
  pose proof (nextq_sreps SHAPES R) as Hn. rewrite HnR in Hn.
  destruct (sreps SHAPES R) as [|[q' w'] R'] eqn:ER; [discriminate|].
  cbn [nextq] in Hn. injection Hn as ->.
  assert (HwA : well_cut (A ++ [(q, [])]) = true).
  { rewrite well_cut_app, HA. cbn [well_cut forallb fst snd andb].
    rewrite Hq. reflexivity. }
  exists (w0 ++ flat A1), (w' ++ flat R'). split; [|split].
  - replace (a ++ [q]) with (w0 ++ flat (A ++ [(q, [])]))
      by (rewrite Ea, flat_snoc_quote; same_text).
    rewrite (transform_sreps _ _ Hw0 HwA), E1, flat_snoc_quote. same_text.
  - replace ([q] ++ b) with ([] ++ flat R)
      by (rewrite Eb, EfR; same_text).
    rewrite (transform_sreps [] R eq_refl HwR), ER, flat_cons. same_text.
  - replace (a ++ ([q] ++ body ++ [q]) ++ b)
      with (w0 ++ flat (A ++ (q, body) :: R))
      by (rewrite Ea, Eb at 1; rewrite flat_app, flat_cons, EfR; same_text).
    rewrite transform_sreps, E2, flat_app, !flat_cons;
      [same_text|exact Hw0|].
    rewrite well_cut_app, HA. apply well_cut_cons. auto.
Qed.

Lemma closed_maps_in_place (q : char) (body body' : text) :
  In (Closed q body body') SHAPES -> maps_in_place [q] body body'.
Proof. intros Hin a b Hsa. apply closed_stands_alone; assumption. Qed.

(** One rule at a quoted text that is not its pattern. *)
Lemma rule_passes_over (sh : shape) (x : char) (m : text) :
  good sh = true -> is_quote x = true -> quote_free m = true ->
  fires sh (x, m) = false ->
  passes_over [x] (fst (rule_of sh)) (snd (rule_of sh)) ([x] ++ m ++ [x]).
Proof.
  intros Hg Hx Hm Hf a b.
  destruct (parse_flat a) as (Ea & Hw0 & HA).
  destruct (parse_flat b) as (Eb & Hwb & HB).
  destruct (parse a) as [w0 A]. destruct (parse b) as [wb B].
  cbn [fst snd] in *.
  destruct (srep_pass sh x m A Hg Hf) as (A1 & E1 & E2).
  pose (R := (x, wb) :: B).
  assert (HnR : nextq R = Some x) by reflexivity.
  assert (HwR : well_cut R = true) by (apply well_cut_cons; auto).
  assert (EfR : flat R = x :: wb ++ flat B) by reflexivity.
  clearbody R.
  pose proof (nextq_srep sh R) as Hn. rewrite HnR in Hn.
  destruct (srep sh R) as [|[q' w'] R'] eqn:ER; [discriminate|].
  cbn [nextq] in Hn. injection Hn as ->.
  assert (HwA : well_cut (A ++ [(x, [])]) = true).
  { rewrite well_cut_app, HA. cbn [well_cut forallb fst snd andb].
    rewrite Hx. reflexivity. }
  exists (w0 ++ flat A1), (w' ++ flat R'). split; [|split].
  - replace (a ++ [x]) with (w0 ++ flat (A ++ [(x, [])]))
      by (rewrite Ea, flat_snoc_quote; same_text).
    rewrite (replace_srep sh _ _ Hg Hw0 HwA), E1, flat_snoc_quote. same_text.
  - replace ([x] ++ b) with ([] ++ flat R)
      by (rewrite Eb, EfR; same_text).
    rewrite (replace_srep sh [] R Hg eq_refl HwR), ER, flat_cons. same_text.
  - replace (a ++ ([x] ++ m ++ [x]) ++ b)
      with (w0 ++ flat (A ++ (x, m) :: R))
      by (rewrite Ea, Eb at 1; rewrite flat_app, flat_cons, EfR; same_text).
    rewrite replace_srep, E2, ER, flat_app, !flat_cons;
      [same_text|exact Hg|exact Hw0|].
    rewrite well_cut_app, HA. apply well_cut_cons. auto.
Qed.

(** C2 as stated fails, also in a text whose quote characters pair up:
    the strings of the text below are ['a'], ['@platform/ui'] and
    ['@platform/ui-kit'].  The scan for ['@platform/ui'] first matches
    from the quote that closes ['a'] to the quote that opens the second
    string, and goes on after that quote; so the quoted name
    ['@platform/ui'] itself is left as it is. *)
Lemma quoted_ui_is_kept :
  let s := codes "'a'@platform/ui" ++ codes "'@platform/ui'"
           ++ codes " '@platform/ui-kit'" in
  well_quoted s = true
  /\ transform s
     = codes "'a'@super-platform/ui-base" ++ codes "'@platform/ui'"
       ++ codes " '@super-platform/ui'"
  /\ well_quoted (transform s) = true
  /\ stands_alone sq (codes "@platform/ui") (codes "'a'@platform/ui")
                  (codes " '@platform/ui-kit'") = false.
Proof. vm_compute. repeat split; reflexivity. Qed.

(** C2, amended.  Neither of the two quoted names contains the other,
    so no occurrence of one is an occurrence of the other: the rule for
    ['@platform/ui'] passes over every occurrence of
    ['@platform/ui-kit'], and the rule for ['@platform/ui-kit'] over
    every occurrence of ['@platform/ui'], each working on the text
    before and after as it would without the occurrence.  Every
    occurrence of ['@platform/ui-kit'] that stands alone (that shares
    neither of its quote characters with another occurrence of the same
    quoted name) becomes ['@super-platform/ui'], and every occurrence
    of ['@platform/ui'] that stands alone becomes
    ['@super-platform/ui-base'], each in place and with the text around
    it rewritten as it would be on its own; the same holds with double
    quotes.  Two imports on separate lines are an instance. *)
Theorem ui_rules_map_independently :
  contains (codes "'@platform/ui'") (codes "'@platform/ui-kit'") = false
  /\ contains (codes "'@platform/ui-kit'") (codes "'@platform/ui'") = false
  /\ passes_over sq (codes "'@platform/ui'")
                 (codes "'@super-platform/ui-base'")
                 (codes "'@platform/ui-kit'")
  /\ passes_over sq (codes "'@platform/ui-kit'")
                 (codes "'@super-platform/ui'")
                 (codes "'@platform/ui'")
  /\ passes_over dq (dquoted "@platform/ui")
                 (dquoted "@super-platform/ui-base")
                 (dquoted "@platform/ui-kit")
  /\ passes_over dq (dquoted "@platform/ui-kit")
                 (dquoted "@super-platform/ui")
                 (dquoted "@platform/ui")
  /\ maps_in_place sq (codes "@platform/ui-kit") (codes "@super-platform/ui")
  /\ maps_in_place sq (codes "@platform/ui")
                   (codes "@super-platform/ui-base")
  /\ maps_in_place dq (codes "@platform/ui-kit") (codes "@super-platform/ui")
  /\ maps_in_place dq (codes "@platform/ui")
                   (codes "@super-platform/ui-base")
  /\ transform (codes "import a from '@platform/ui';" ++ [10%N]
                ++ codes "import b from '@platform/ui-kit';")
     = codes "import a from '@super-platform/ui-base';" ++ [10%N]
       ++ codes "import b from '@super-platform/ui';".
Proof.
  split; [vm_compute; reflexivity|].
  split; [vm_compute; reflexivity|].
  split; [|split; [|split; [|split; [|split; [|split; [|split; [|split]]]]]]].
  - exact (rule_passes_over
             (Closed 39%N (codes "@platform/ui")
                     (codes "@super-platform/ui-base"))
             39%N (codes "@platform/ui-kit")
             eq_refl eq_refl eq_refl eq_refl).
  - exact (rule_passes_over
             (Closed 39%N (codes "@platform/ui-kit")
                     (codes "@super-platform/ui"))
             39%N (codes "@platform/ui")
             eq_refl eq_refl eq_refl eq_refl).
  - exact (rule_passes_over
             (Closed 34%N (codes "@platform/ui")
                     (codes "@super-platform/ui-base"))
             34%N (codes "@platform/ui-kit")
             eq_refl eq_refl eq_refl eq_refl).
  - exact (rule_passes_over
             (Closed 34%N (codes "@platform/ui-kit")
                     (codes "@super-platform/ui"))
             34%N (codes "@platform/ui")
             eq_refl eq_refl eq_refl eq_refl).
  - apply (closed_maps_in_place 39%N (codes "@platform/ui-kit")
             (codes "@super-platform/ui")).
    cbn [SHAPES In]. auto 10.
  - apply (closed_maps_in_place 39%N (codes "@platform/ui")
             (codes "@super-platform/ui-base")).
    cbn [SHAPES In]. auto 10.
  - apply (closed_maps_in_place 34%N (codes "@platform/ui-kit")
             (codes "@super-platform/ui")).
    cbn [SHAPES In]. auto 10.
  - apply (closed_maps_in_place 34%N (codes "@platform/ui")
             (codes "@super-platform/ui-base")).
    cbn [SHAPES In]. auto 10.
  - vm_compute. reflexivity.
Qed.

Lemma ui_rules_map_independently_witness :
  stands_alone sq (codes "@platform/ui")
               (codes "import a from ")
               (codes "; import b from '@platform/ui-kit';") = true
  /\ exists a' b',
       transform (codes "import a from " ++ sq) = a' ++ sq
       /\ transform (sq ++ codes "; import b from '@platform/ui-kit';")
          = sq ++ b'
       /\ transform (codes "import a from "
                     ++ (sq ++ codes "@platform/ui" ++ sq)
                     ++ codes "; import b from '@platform/ui-kit';")
          = a' ++ (sq ++ codes "@super-platform/ui-base" ++ sq) ++ b'.
Proof.
  split; [vm_compute; reflexivity|].
  destruct ui_rules_map_independently
    as (_ & _ & _ & _ & _ & _ & _ & H & _).
  apply H. vm_compute. reflexivity.
Defined.

(** ** What a run prints and writes *)

Lemma for_each_event (E : system) (l : list text) (st : store) (e : event) :
  In e (r_events (for_each l (update_file E) st)) ->
  exists p st', In p l /\ In e (r_events (update_file E p st')).
Proof.
  revert st; induction l as [|q l IH]; intros st H; [destruct H|].
  destruct (r_end (update_file E q st)) as [|msg] eqn:Hend.
  - rewrite (for_each_done _ _ _ _ Hend) in H. cbn [r_events fst snd] in H.
    apply in_app_or in H as [H|H].
    + exists q, st. split; [left; reflexivity | exact H].
    + destruct (IH _ H) as (p & st' & Hp & He).
      exists p, st'. split; [right; exact Hp | exact He].
  - rewrite (for_each_stop _ _ _ _ _ Hend) in H.
    exists q, st. split; [left; reflexivity | exact H].
Qed.

Lemma handler_printed (E : system) (p : text) (st : store)
      (ev : list event) (msg : text) :
  r_events (handler E p st ev msg) = ev
  \/ r_events (handler E p st ev msg) = ev ++ [Print (error_line p msg)].
Proof.
  destruct (handler_cases E p st ev msg) as [[_ ->] | (m & _ & ->)]; auto.
Qed.

Lemma update_file_prints (E : system) (p : text) (st : store) (line : text) :
  In line (printed (r_events (update_file E p st))) ->
  line = updated_line p \/ exists msg, line = error_line p msg.
Proof.
  assert (Hh : forall st' ev msg,
             printed ev = [] ->
             In line (printed (r_events (handler E p st' ev msg))) ->
             exists m, line = error_line p m).
  { intros st' ev msg Hev.
    destruct (handler_printed E p st' ev msg) as [-> | ->];
      rewrite ?printed_app, Hev; cbn; intros H; [destruct H|].
    destruct H as [<-|[]]. exists msg. reflexivity. }
  destruct (update_file_cases E p st) as [? ? ->|? ? ? ->|? ? ? ? ? ->
                                          |? ? ? ? ? ? ->|? ? ? ? ? ? ->];
    try (intros Hline; right; refine (Hh _ _ _ _ Hline); reflexivity).
  - cbn [r_events fst snd printed flat_map app In]. intros [].
  - cbn [r_events fst snd printed flat_map app In]. intros [<-|[]].
    left. reflexivity.
Qed.

Lemma update_file_prints_once (E : system) (p : text) (st : store) :
  List.length (printed (r_events (update_file E p st))) <= 1.
Proof.
  assert (Hh : forall st' ev msg,
             printed ev = [] ->
             List.length (printed (r_events (handler E p st' ev msg))) <= 1).
  { intros st' ev msg Hev.
    destruct (handler_printed E p st' ev msg) as [-> | ->];
      rewrite ?printed_app, Hev; cbn; lia. }
  destruct (update_file_cases E p st) as [? ? ->|? ? ? ->|? ? ? ? ? ->
                                          |? ? ? ? ? ? ->|? ? ? ? ? ? ->];
    try (apply Hh; reflexivity); cbn; lia.
Qed.

Lemma trace_app (E : system) (st st1 st2 : store) (ev1 ev2 : list event) :
  trace E st ev1 st1 -> trace E st1 ev2 st2 -> trace E st (ev1 ++ ev2) st2.
Proof.
  intros H1 H2. induction H1; cbn [app].
  - exact H2.
  - apply trace_read. auto.
  - apply trace_write; auto.
  - apply trace_print. auto.
Qed.

Lemma handler_trace (E : system) (p : text) (st0 st : store)
      (ev : list event) (msg : text) :
  trace E st0 ev st ->
  trace E st0 (r_events (handler E p st ev msg))
        (r_store (handler E p st ev msg)).
Proof.
  intros H.
  destruct (handler_cases E p st ev msg) as [[_ ->] | (m & _ & ->)];
    cbn [r_events r_store fst snd]; [|exact H].
  apply (trace_app E st0 st st); [exact H|].
  apply trace_print, trace_nil.
Qed.

Lemma update_file_trace (E : system) (p : text) (st : store) :
  trace E st (r_events (update_file E p st)) (r_store (update_file E p st)).
Proof.
  destruct (update_file_cases E p st) as [msg Hr ->|c Hr Hc ->
                                          |c Hr Hc Hw Hp ->
                                          |c msg Hr Hc Hw Hp ->
                                          |c msg after Hr Hc Hw ->].
  - apply handler_trace. rewrite <- Hr. apply trace_read, trace_nil.
  - cbn [r_events r_store fst snd]. rewrite <- Hr.
    apply trace_read, trace_nil.
  - cbn [r_events r_store fst snd].
    apply (trace_write E st _ p c _ Hr Hc). apply trace_print.
    unfold written. rewrite Hw. apply trace_nil.
  - apply handler_trace. apply (trace_write E st _ p c _ Hr Hc).
    unfold written. rewrite Hw. apply trace_nil.
  - apply handler_trace. apply (trace_write E st _ p c _ Hr Hc).
    unfold written. rewrite Hw. apply trace_nil.
Qed.

Lemma for_each_trace (E : system) (l : list text) (st : store) :
  trace E st (r_events (for_each l (update_file E) st))
        (r_store (for_each l (update_file E) st)).
Proof.
  revert st; induction l as [|q l IH]; intros st; [apply trace_nil|].
  destruct (r_end (update_file E q st)) as [|msg] eqn:Hend.
  - rewrite (for_each_done _ _ _ _ Hend). cbn [r_events r_store fst snd].
    apply (trace_app E st (r_store (update_file E q st)));
      [apply update_file_trace | apply IH].
  - rewrite (for_each_stop _ _ _ _ _ Hend). apply update_file_trace.
Qed.

(** What a trace says of each of its reads and writes, and of the files
    at its end. *)
Lemma trace_reads (E : system) (st st' : store) (ev : list event) :
  trace E st ev st' ->
  forall e0 p r e1,
    ev = e0 ++ Read p r :: e1 ->
    r = f_read (replay E e0 st (resolve E p)).
Proof.
  induction 1 as [st|st st' p0 rest H IH|st st' p0 c rest Hr Hc H IH
                  |st st' line rest H IH]; intros e0 p r e1 Heq.
  - destruct e0; discriminate.
  - destruct e0 as [|x e0]; cbn [app] in Heq.
    + injection Heq as <- <- _. reflexivity.
    + injection Heq as <- Heq. cbn [replay]. apply (IH _ _ _ _ Heq).
  - destruct e0 as [|x [|y e0]]; cbn [app] in Heq.
    + injection Heq as <- <- _. cbn [replay]. symmetry. exact Hr.
    + discriminate.
    + injection Heq as <- <- Heq. cbn [replay]. apply (IH _ _ _ _ Heq).
  - destruct e0 as [|x e0]; cbn [app] in Heq; [discriminate|].
    injection Heq as <- Heq. cbn [replay]. apply (IH _ _ _ _ Heq).
Qed.

Lemma trace_writes (E : system) (st st' : store) (ev : list event) :
  trace E st ev st' ->
  forall e0 p data e1,
    ev = e0 ++ Write p data :: e1 ->
    exists e0' c,
      e0 = e0' ++ [Read p (Ok c)]
      /\ f_read (replay E e0' st (resolve E p)) = Ok c
      /\ data = transform c /\ data <> c.
Proof.
  induction 1 as [st|st st' p0 rest H IH|st st' p0 c rest Hr Hc H IH
                  |st st' line rest H IH]; intros e0 p data e1 Heq.
  - destruct e0; discriminate.
  - destruct e0 as [|x e0]; cbn [app] in Heq; [discriminate|].
    injection Heq as <- Heq.
    destruct (IH _ _ _ _ Heq) as (e0' & c & -> & H1 & H2 & H3).
    exists (Read p0 (f_read (st (resolve E p0))) :: e0'), c.
    repeat split; assumption.
  - destruct e0 as [|x [|y e0]]; cbn [app] in Heq.
    + discriminate.
    + injection Heq as <- <- <- _. exists [], c.
      repeat split; [exact Hr | exact Hc].
    + injection Heq as <- <- Heq.
      destruct (IH _ _ _ _ Heq) as (e0' & c' & -> & H1 & H2 & H3).
      exists (Read p0 (Ok c) :: Write p0 (transform c) :: e0'), c'.
      repeat split; assumption.
  - destruct e0 as [|x e0]; cbn [app] in Heq; [discriminate|].
    injection Heq as <- Heq.
    destruct (IH _ _ _ _ Heq) as (e0' & c & -> & H1 & H2 & H3).
    exists (Print line :: e0'), c. repeat split; assumption.
Qed.

Lemma trace_replay (E : system) (st st' : store) (ev : list event) :
  trace E st ev st' -> st' = replay E ev st.
Proof. induction 1; cbn [replay]; auto. Qed.

(** X9.  A run prints at most one line per target, and nothing but
    lines [Updated: <path>] and [Error reading <path>: <message>] for
    its targets.  Every read reports what the file named by the path
    holds at that moment, after the writes before it.  Every write goes
    to a target, comes right after a read of the same path that gave a
    content, and carries the rewritten content, which differs from what
    was read.  The files after the run are the files before it with
    those writes made. *)
Theorem run_output_shape (E : system) (top : text) (t : tree) (st : store) :
  (forall line, In line (printed (r_events (run E top t st))) ->
     exists p, In p (targets top t)
               /\ (line = codes "Updated: " ++ p
                   \/ exists msg,
                        line = codes "Error reading " ++ p ++ codes ": " ++ msg))
  /\ (forall e0 p r e1,
        r_events (run E top t st) = e0 ++ Read p r :: e1 ->
        r = f_read (replay E e0 st (resolve E p)))
  /\ (forall e0 p data e1,
        r_events (run E top t st) = e0 ++ Write p data :: e1 ->
        In p (targets top t)
        /\ exists e0' c,
             e0 = e0' ++ [Read p (Ok c)]
             /\ f_read (replay E e0' st (resolve E p)) = Ok c
             /\ data = transform c /\ data <> c)
  /\ r_store (run E top t st) = replay E (r_events (run E top t st)) st
  /\ List.length (printed (r_events (run E top t st)))
     <= List.length (targets top t).
Proof.
  rewrite run_targets.
  pose proof (for_each_trace E (targets top t) st) as Ht.
  split; [|split; [|split; [|split]]].
  - intros line Hl. unfold printed in Hl.
    apply in_flat_map in Hl as (e & He & Hl).
    destruct (for_each_event _ _ _ _ He) as (p & st' & Hp & He').
    exists p. split; [exact Hp|].
    apply (update_file_prints E p st'). unfold printed.
    apply in_flat_map. exists e. split; assumption.
  - apply (trace_reads E _ _ _ Ht).
  - intros e0 p data e1 Heq. split.
    + apply (for_each_update_writes E (targets top t) st).
      rewrite Heq, writes_app. apply in_or_app. right. left. reflexivity.
    + apply (trace_writes E _ _ _ Ht _ _ _ _ Heq).
  - apply (trace_replay E _ _ _ Ht).
  - generalize (targets top t). intros l. clear Ht. revert st.
    induction l as [|q l IH]; intros st; [apply le_n|].
    pose proof (update_file_prints_once E q st) as H1.
    destruct (r_end (update_file E q st)) as [|msg] eqn:Hend.
    + rewrite (for_each_done _ _ _ _ Hend). cbn [r_events fst snd].
      rewrite printed_app, length_app.
      specialize (IH (r_store (update_file E q st))). cbn [List.length]. lia.
    + rewrite (for_each_stop _ _ _ _ _ Hend). cbn [List.length]. lia.
Qed.

(** ** Below a skipped directory *)

Lemma occurs_longer (d a b : text) : occurs d a -> occurs d (a ++ b).
Proof.
  intros (x & y & ->). exists x, (y ++ b). rewrite <- !app_assoc. reflexivity.
Qed.

Lemma join_empty (a : text) : join a [] = a \/ join a [] = a ++ slash.
Proof.
  unfold join. change (startswith slash []) with false. cbv iota.
  destruct (text_eqb a [] || endswith slash a); rewrite ?app_nil_r; auto.
Qed.

Lemma skipped_root_below (top root : text) :
  startswith (join top []) (join root []) = true ->
  skipped_root top = true -> skipped_root root = true.
Proof.
  intros Hp Hs. apply startswith_true in Hp as [r Hr].
  assert (H : skipped_root (join root []) = true).
  { apply skipped_root_true. apply skipped_root_true in Hs.
    rewrite Hr.
    assert (Hin : forall d, occurs d top -> occurs d (join top [] ++ r)).
    { intros d Hd. apply occurs_longer.
      destruct (join_empty top) as [-> | ->];
        [exact Hd | apply occurs_longer, Hd]. }
    destruct Hs as [Hs|[Hs|Hs]]; auto. }
  destruct (join_empty root) as [E|E]; rewrite E in H; [exact H|].
  apply skipped_root_slash, H.
Qed.

(** X10.  Directories are not pruned from the walk, but the test of the
    outer loop is inherited: in a tree whose names do not start with a
    slash, a walk that starts at a path containing [node_modules],
    [.git] or [.next] has no target at all, so the run does nothing. *)
Theorem skipped_directory_has_no_targets (E : system) (top : text)
        (t : tree) (st : store) :
  relative_names t = true -> skipped_root top = true ->
  targets top t = [] /\ run E top t st = (st, [], Done).
Proof.
  intros Hrel Hs.
  assert (Ht : targets top t = []).
  { unfold targets.
    assert (H : forall e, In e (walk top t) -> dir_targets e = []).
    { intros [[root dirs] files] He.
      destruct (walk_below t Hrel _ _ _ _ He) as [Hroot _].
      unfold dir_targets.
      rewrite (skipped_root_below top root Hroot Hs). reflexivity. }
    induction (walk top t) as [|e l IH]; [reflexivity|].
    cbn [flat_map]. rewrite (H e (or_introl eq_refl)). apply IH.
    intros x Hx. apply H. right. exact Hx. }
  split; [exact Ht|]. rewrite run_targets, Ht. reflexivity.
Qed.

Lemma skipped_directory_has_no_targets_witness :
  run demo_system (ROOT_DIR ++ codes "/node_modules") demo_tree demo_store
  = (demo_store, [], Done).
Proof.
  apply skipped_directory_has_no_targets; vm_compute; reflexivity.
Defined.

Lemma run_output_shape_witness :
  exists p,
    In p (targets ROOT_DIR demo_tree)
    /\ (codes "Updated: " ++ ROOT_DIR ++ codes "/app.tsx"
        = codes "Updated: " ++ p
        \/ exists msg,
             codes "Updated: " ++ ROOT_DIR ++ codes "/app.tsx"
             = codes "Error reading " ++ p ++ codes ": " ++ msg).
Proof.
  apply (proj1 (run_output_shape demo_system ROOT_DIR demo_tree demo_store)).
  vm_compute. auto.
Defined.
